(** * Edo Lab starter: dev proxy and browser SDK

    A shallow embedding of [dev-proxy.js] (the local development proxy) and
    of [edo.js] (the browser SDK), followed by the properties of the two
    that the specification states.

    Conventions.
    - Server-side strings are byte strings ([string]).  A request is taken
      after Node's [url.parse]: it carries [pathname] and [search].
    - Browser-side strings are lists of UTF-16 code units ([list N]), so that
      [String.prototype.trim] and the regular expression class [\s] range
      over the whole of their white space set.
    - Asynchronous steps are explicit: the request handler returns either a
      response or the effect it starts (token exchange, upstream request,
      file read); the callback that finishes each effect is a function of
      its own.  [serve] composes them given the outcome of the effects. *)

From Stdlib Require Import ZArith List Ascii String Bool Lia DecimalString.
From stdpp Require Import base option gmap strings list.

Local Open Scope Z_scope.

(** ** Byte-string helpers (the [String.prototype] methods the proxy uses) *)

Module Str.

(** [s.startsWith(p)] *)
Fixpoint startsWith (s p : string) {struct p} : bool :=
  match p with
  | EmptyString => true
  | String c p' =>
      match s with
      | EmptyString => false
      | String d s' => Ascii.eqb c d && startsWith s' p'
      end
  end.

Arguments startsWith : simpl never.

(** [s.includes(sub)] *)
Fixpoint includes (s sub : string) : bool :=
  startsWith s sub ||
  match s with
  | EmptyString => false
  | String _ s' => includes s' sub
  end.

(** [s.slice(n)] for a non-negative [n] *)
Fixpoint slice (n : nat) (s : string) : string :=
  match n, s with
  | O, _ => s
  | S n', String _ s' => slice n' s'
  | S _, EmptyString => EmptyString
  end.

(** [s.split(c)] for a one-character separator: never the empty list *)
Fixpoint split (c : ascii) (s : string) : list string :=
  match s with
  | EmptyString => [EmptyString]
  | String d s' =>
      if Ascii.eqb d c then EmptyString :: split c s'
      else match split c s' with
           | [] => [String d EmptyString]
           | w :: ws => String d w :: ws
           end
  end.

(** [l.join(sep)] *)
Fixpoint join (sep : string) (l : list string) : string :=
  match l with
  | [] => EmptyString
  | [w] => w
  | w :: ws => w +:+ sep +:+ join sep ws
  end.

(** the part before the first [c] and, when there is one, the part after *)
Fixpoint cut (c : ascii) (s : string) : string * option string :=
  match s with
  | EmptyString => (EmptyString, None)
  | String d s' =>
      if Ascii.eqb d c then (EmptyString, Some s')
      else let '(a, b) := cut c s' in (String d a, b)
  end.

Definition nonempty (s : string) : bool :=
  match s with EmptyString => false | _ => true end.

(** last character, if any *)
Fixpoint last (s : string) : option ascii :=
  match s with
  | EmptyString => None
  | String c EmptyString => Some c
  | String _ s' => last s'
  end.

(** JavaScript truthiness of a value that is a string, [null] or
    [undefined] *)
Definition truthy (o : option string) : bool :=
  match o with
  | Some s => nonempty s
  | None => false
  end.

End Str.

(** ** [URLSearchParams] over byte strings (server side) *)

Module Query.

Definition hexval (c : ascii) : option N :=
  let n := N_of_ascii c in
  if (48 <=? n)%N && (n <=? 57)%N then Some (n - 48)%N
  else if (65 <=? n)%N && (n <=? 70)%N then Some (n - 55)%N
  else if (97 <=? n)%N && (n <=? 102)%N then Some (n - 87)%N
  else None.

(** Well-formed UTF-8.  [URLSearchParams] decodes the bytes it has
    percent-decoded as UTF-8; a string of the code is identified here
    with its UTF-8 bytes, which is exact for the byte sequences that
    are well formed. *)
Definition continuation (b : N) : bool := ((0x80 <=? b) && (b <=? 0xBF))%N.

Fixpoint wellFormed (l : list N) : bool :=
  match l with
  | [] => true
  | b :: r =>
      if (b <? 0x80)%N then wellFormed r
      else if ((0xC2 <=? b) && (b <=? 0xDF))%N then
        match r with
        | c :: r' => continuation c && wellFormed r'
        | _ => false
        end
      else if ((0xE0 <=? b) && (b <=? 0xEF))%N then
        match r with
        | c :: d :: r' =>
            continuation c && continuation d
            && (if (b =? 0xE0)%N then (0xA0 <=? c)%N
                else if (b =? 0xED)%N then (c <=? 0x9F)%N else true)
            && wellFormed r'
        | _ => false
        end
      else if ((0xF0 <=? b) && (b <=? 0xF4))%N then
        match r with
        | c :: d :: e :: r' =>
            continuation c && continuation d && continuation e
            && (if (b =? 0xF0)%N then (0x90 <=? c)%N
                else if (b =? 0xF4)%N then (c <=? 0x8F)%N else true)
            && wellFormed r'
        | _ => false
        end
      else false
  end.

Definition utf8 (s : string) : bool :=
  wellFormed (map N_of_ascii (list_ascii_of_string s)).

(** percent-decoding: [%XY] with two hexadecimal digits is one byte, any
    other byte stands for itself *)
Fixpoint percent_decode (s : string) : string :=
  match s with
  | EmptyString => EmptyString
  | String c s' =>
      if Ascii.eqb c "%" then
        match s' with
        | String h (String l rest as s'') =>
            match hexval h, hexval l with
            | Some a, Some b =>
                (* the recursive call is on [rest], a subterm of [s'] *)
                String (ascii_of_N (16 * a + b)) (percent_decode rest)
            | _, _ => String c (percent_decode s')
            end
        | _ => String c (percent_decode s')
        end
      else String c (percent_decode s')
  end.

Fixpoint plus_to_space (s : string) : string :=
  match s with
  | EmptyString => EmptyString
  | String c s' =>
      String (if Ascii.eqb c "+" then " "%char else c) (plus_to_space s')
  end.

Definition decode (s : string) : string := percent_decode (plus_to_space s).

(** one [name=value] piece of a query string *)
Definition parse_pair (piece : string) : string * string :=
  let '(n, v) := Str.cut "=" piece in
  (decode n, decode (default EmptyString v)).

(** [new URLSearchParams(search)]: a leading [?] is dropped, the rest is
    split at [&], empty pieces are skipped *)
Definition parse (search : string) : list (string * string) :=
  let s := match search with
           | String "?" s' => s'
           | _ => search
           end in
  map parse_pair (List.filter Str.nonempty (Str.split "&" s)).

(** [params.get(name)]: the value of the first pair of that name *)
Fixpoint get (name : string) (ps : list (string * string)) : option string :=
  match ps with
  | [] => None
  | (n, v) :: ps' => if String.eqb n name then Some v else get name ps'
  end.

(** the [application/x-www-form-urlencoded] serializer: letters, digits
    and [* - . _] stand for themselves, a space becomes [+], any other
    byte is written [%XY] in upper-case hexadecimal *)
Definition hexdigit (n : N) : ascii :=
  ascii_of_N (if (n <? 10)%N then 48 + n else 55 + n)%N.

Definition unreserved (c : ascii) : bool :=
  let n := N_of_ascii c in
  ((48 <=? n) && (n <=? 57) || (65 <=? n) && (n <=? 90)
   || (97 <=? n) && (n <=? 122)
   || (n =? 42) || (n =? 45) || (n =? 46) || (n =? 95))%N.

Fixpoint encode (s : string) : string :=
  match s with
  | EmptyString => EmptyString
  | String c s' =>
      if unreserved c then String c (encode s')
      else if Ascii.eqb c " " then String "+" (encode s')
      else
        let n := N_of_ascii c in
        String "%" (String (hexdigit (n / 16)) (String (hexdigit (n mod 16))
                                                   (encode s')))
  end.

(** [params.toString()] *)
Definition serialize (ps : list (string * string)) : string :=
  Str.join "&" (map (λ p, encode (fst p) +:+ "=" +:+ encode (snd p)) ps).

End Query.

(** ** Node's POSIX [path] functions *)

Module Path.

(** the segment stack of [normalizeString]: empty segments and [.] are
    skipped, [..] removes the segment before it; above the top, [..] is
    kept only when [allowAboveRoot] *)
Definition step (allowAboveRoot : bool) (stack : list string) (seg : string)
  : list string :=
  if String.eqb seg "" || String.eqb seg "." then stack
  else if String.eqb seg ".." then
    match stack with
    | top :: rest =>
        if String.eqb top ".." then
          (if allowAboveRoot then seg :: stack else stack)
        else rest
    | [] => if allowAboveRoot then [seg] else []
    end
  else seg :: stack.

(** the stack holds the segments in reverse order *)
Definition normalizeString (p : string) (allowAboveRoot : bool) : string :=
  Str.join "/" (rev (fold_left (step allowAboveRoot) (Str.split "/" p) [])).

Definition isAbsolute (p : string) : bool := Str.startsWith p "/".

(** [path.normalize(p)] *)
Definition normalize (p : string) : string :=
  match p with
  | EmptyString => "."
  | _ =>
      let trailingSeparator :=
        match Str.last p with Some c => Ascii.eqb c "/" | None => false end in
      let r := normalizeString p (negb (isAbsolute p)) in
      match r with
      | EmptyString =>
          if isAbsolute p then "/"
          else if trailingSeparator then "./" else "."
      | _ =>
          let r' := if trailingSeparator then r +:+ "/" else r in
          if isAbsolute p then "/" +:+ r' else r'
      end
  end.

(** [path.join(a, b)]: the non-empty arguments joined by [/], normalized *)
Definition join (a b : string) : string :=
  match List.filter Str.nonempty [a; b] with
  | [] => "."
  | l => normalize (Str.join "/" l)
  end.

(** the non-empty segments of a path *)
Definition segments (p : string) : list string :=
  List.filter Str.nonempty (Str.split "/" p).

(** index-free reading of [path.extname]: the extension of the last
    segment, from its last dot on; none when the segment has no dot, only
    a leading dot, or is [..] *)
Fixpoint after_last_dot (s : string) : option string :=
  match s with
  | EmptyString => None
  | String c s' =>
      match after_last_dot s' with
      | Some e => Some e
      | None => if Ascii.eqb c "." then Some s else None
      end
  end.

Definition extname (p : string) : string :=
  match rev (segments p) with
  | [] => ""
  | base :: _ =>
      match base with
      | EmptyString => ""
      | String _ tl =>
          if String.eqb base ".." then ""
          else default "" (after_last_dot tl)
      end
  end.

End Path.

(** ** The development proxy, [dev-proxy.js] *)

Module DevProxy.

(** *** Requests, responses and the effects a handler starts *)

(** An incoming request: its method, the [pathname] and [search] that
    [url.parse(req.url)] yields ([search] is [null] without a query),
    Node's header object (lower-case names) and the body. *)
Record request := {
  method   : string;
  pathname : string;
  search   : option string;
  headers  : gmap string string;
  reqBody  : string;
}.

(** What [JSON.stringify] is applied to in the handlers. *)
Inductive json :=
| StatusReady (token : string)          (* { ready: true, token } *)
| StatusNotReady                        (* { ready: false } *)
| ProxyError (detail : string).         (* { error: 'Proxy error', detail } *)

Inductive body :=
| NoBody                                (* res.end() *)
| Text (s : string)                     (* res.end('...') *)
| Html (s : string)                     (* res.end(page(...)) *)
| Json (j : json)                       (* res.end(JSON.stringify(...)) *)
| Data (d : string).                    (* file contents, piped upstream body *)

Record response := {
  status      : Z;
  respHeaders : list (string * string);
  respBody    : body;
}.

Record upstream_response := {
  statusCode   : Z;
  contentType  : option string;         (* proxyRes.headers['content-type'] *)
  upstreamBody : string;
}.

(** The token endpoint's reply as [exchangeCode] settles it, its fields in
    the types the provider sends them: strings, and a whole number of
    seconds. *)
Record token_reply := {
  access_token      : option string;
  expires_in        : option Z;         (* [None]: absent, arithmetic gives NaN *)
  error_description : option string;
  error             : option string;
}.

Inductive exchange_result :=
| Resolved (r : option token_reply)     (* [None]: the reply is JSON [null] *)
| Rejected (message : string).

Inductive read_result :=
| ReadOk (data : string)
| ENOENT
| ReadError.

(** *** State: the token cache and the PKCE map *)

Record cache_record := { c_access_token : option string; c_expires_on : option Z }.

Record state := {
  _token       : option string;
  _tokenExpiry : option Z;              (* milliseconds; [None] is NaN *)
  _pkce        : gmap string string;    (* state -> verifier *)
  cacheFile    : option cache_record;   (* contents of [CACHE_FILE] *)
}.

(** [a > b] for a number that may be NaN *)
Definition gt (a : option Z) (b : Z) : bool :=
  match a with
  | Some x => x >? b
  | None => false
  end.

(** Start-up: restore a cached token that is good for more than a minute. *)
Definition initial (disk : option cache_record) (now : Z) : state :=
  let fresh := {| _token := None; _tokenExpiry := Some 0;
                  _pkce := ∅; cacheFile := disk |} in
  match disk with
  | Some c =>
      if Str.truthy (c_access_token c)
         && gt ((λ e, e * 1000) <$> c_expires_on c) (now + 60000)
      then {| _token := c_access_token c;
              _tokenExpiry := (λ e, e * 1000) <$> c_expires_on c;
              _pkce := ∅; cacheFile := disk |}
      else fresh
  | None => fresh
  end.

Definition tokenValid (st : state) (now : Z) : bool :=
  Str.truthy (_token st) && gt (_tokenExpiry st) (now + 60000).

(** The numbers of the code are doubles, and the arithmetic here is that
    of the integers: the two agree as long as the operands and results
    are safe integers, which the theorems that depend on a computed
    instant assume of it. *)
Definition safeInteger (z : Z) : Prop := - 2 ^ 53 < z < 2 ^ 53.

(** [persistToken(result)]; the write to the cache file is best effort. *)
Definition persistToken (st : state) (now : Z) (writable : bool)
    (result : token_reply) : state :=
  let expiry := (λ e, now + e * 1000) <$> expires_in result in
  {| _token := access_token result;
     _tokenExpiry := expiry;
     _pkce := _pkce st;
     cacheFile :=
       if writable
       then Some {| c_access_token := access_token result;
                    c_expires_on := (λ e, e / 1000) <$> expiry |}
       else cacheFile st |}.

(** [_pkce.set(state, verifier)] in [/oauth/start] *)
Definition pkce_begin (s verifier : string) (m : gmap string string)
  : gmap string string :=
  <[s := verifier]> m.

(** [_pkce.get(state); _pkce.delete(state)] in the callback; [state] is
    [null] when the query has no such parameter, and no key is [null]. *)
Definition pkce_complete (s : option string) (m : gmap string string)
  : option string * gmap string string :=
  match s with
  | Some k => (m !! k, delete k m)
  | None => (None, m)
  end.

(** *** Configuration *)

Definition CLIENT_ID := "66ca0383-bf0c-4dc8-9d57-c852c06a9413".
Definition TENANT_ID := "48d03f3f-62a3-401f-b4a2-2514758215ac".
Definition POLICY := "B2C_1A_MULTITENANT".
Definition B2C_HOST := "login.edoenergy.com".
Definition SCOPES : list string := [
  "https://edoapps.onmicrosoft.com/services/point.read";
  "https://edoapps.onmicrosoft.com/services/timeseries.read";
  "https://edoapps.onmicrosoft.com/services/bill.read";
  "https://edoapps.onmicrosoft.com/services/building.read" ].

(** What a WHATWG [URL] object shows of a parsed address. *)
Record url := {
  protocol    : string;
  hostname    : string;
  port        : string;
  urlPathname : string;
  urlSearch   : string;
}.

(** The options object given to [lib.request], and what is piped into it. *)
Record upstream_request := {
  secure    : bool;                     (* [https] rather than [http] *)
  upHost    : string;
  upPort    : string;
  upPath    : string;
  upMethod  : string;
  upHeaders : list (string * string);
  upBody    : option string;            (* [req.pipe(proxyReq)], or none *)
}.

Inductive outcome :=
| Respond (r : response)
| AwaitExchange (code verifier : string)
| ProxyTo (u : upstream_request)
| ReadFile (filePath : string)
| Throw.                                (* caught by [createServer]'s handler *)

(** *** What Node's HTTP client sends for these options

    [lib.request] sends the headers of the options in their order and
    adds its own: a [Host] header, since the options name none; a
    [Connection] header, by the [keepAlive] setting of the global agent;
    and, for a method that takes a body by default, a header that frames
    it. *)

(** the default port of [lib], as the port option spells it *)
Definition defaultPort (u : upstream_request) : string :=
  if secure u then "443" else "80".

(** a host with two colons and no bracket is an IPv6 literal *)
Definition bareIPv6 (h : string) : bool :=
  match Str.cut ":" h with
  | (_, Some r) => Str.includes r ":" && negb (Str.startsWith h "[")
  | (_, None) => false
  end.

Definition hostHeader (u : upstream_request) : string :=
  let host := if Str.nonempty (upHost u) then upHost u else "localhost" in
  let host := if bareIPv6 host then "[" +:+ host +:+ "]" else host in
  if String.eqb (upPort u) (defaultPort u) then host
  else host +:+ ":" +:+ upPort u.

(** [useChunkedEncodingByDefault] *)
Definition chunkedByDefault (m : string) : bool :=
  negb (String.eqb m "GET" || String.eqb m "HEAD" || String.eqb m "DELETE"
        || String.eqb m "OPTIONS" || String.eqb m "TRACE"
        || String.eqb m "CONNECT").

(** the header that frames the body: chunks once data is written before
    the end, a length of zero when the request ends without any *)
Definition framing (u : upstream_request) : list (string * string) :=
  if chunkedByDefault (upMethod u) then
    match upBody u with
    | Some (String _ _) => [("Transfer-Encoding", "chunked")]
    | _ => [("Content-Length", "0")]
    end
  else [].

Definition clientHeaders (keepAlive : bool) (u : upstream_request)
  : list (string * string) :=
  [ ("Host", hostHeader u);
    ("Connection", if keepAlive then "keep-alive" else "close") ]
  ++ framing u.

(** the header lines that reach upstream *)
Definition wire (keepAlive : bool) (u : upstream_request)
  : list (string * string) :=
  upHeaders u ++ clientHeaders keepAlive u.

(** The callback page. *)
Definition page (heading detail : string) (isError : bool) : string :=
  "<!DOCTYPE html>
<html><head><style>
  body { font-family: -apple-system, sans-serif; display: flex; flex-direction: column;
         align-items: center; justify-content: center; min-height: 100vh; margin: 0;
         background: " +:+ (if isError then "#1a0808" else "#07130d")
  +:+ "; color: " +:+ (if isError then "#f87171" else "#4ade80") +:+ ";
         gap: 12px; text-align: center; padding: 24px; }
  h2 { margin: 0; font-size: 22px; }
  p  { margin: 0; opacity: .6; font-size: 13px; }
</style></head><body>
  <h2>" +:+ heading +:+ "</h2><p>" +:+ detail +:+ "</p>
  <script>
    window.opener?.postMessage('"
  +:+ (if isError then "edo_auth_error" else "edo_auth_ok") +:+ "', '*');
    setTimeout(() => window.close(), 1200);
  </script>
</body></html>".

(** The three [res.setHeader] calls that open [handleRequest]. *)
Definition cors : list (string * string) := [
  ("Access-Control-Allow-Origin", "*");
  ("Access-Control-Allow-Headers", "Authorization, Content-Type");
  ("Access-Control-Allow-Methods", "GET, POST, PUT, DELETE, OPTIONS") ].

(** [res.writeHead(status, hs); res.end(b)] *)
Definition reply (code : Z) (hs : list (string * string)) (b : body)
  : response :=
  {| status := code; respHeaders := cors ++ hs; respBody := b |}.

Definition html (code : Z) (heading detail : string) (isError : bool)
  : response :=
  reply code [("Content-Type", "text/html")] (Html (page heading detail isError)).

Definition MIME (ext : string) : option string :=
  if String.eqb ext ".html" then Some "text/html; charset=utf-8"
  else if String.eqb ext ".js" then Some "application/javascript"
  else if String.eqb ext ".css" then Some "text/css"
  else if String.eqb ext ".json" then Some "application/json"
  else if String.eqb ext ".svg" then Some "image/svg+xml"
  else if String.eqb ext ".png" then Some "image/png"
  else if String.eqb ext ".ico" then Some "image/x-icon"
  else if String.eqb ext ".woff2" then Some "font/woff2"
  else None.

Section Handler.

(** [__dirname], [EDO_API_BASE] and [PORT] (in decimal); the URL parser
    behind [new URL], which throws on what it cannot parse; SHA-256
    followed by [b64url], which turns a verifier into its challenge. *)
Variable dirname : string.
Variable EDO_API_BASE : string.
Variable PORT : string.
Variable parseURL : string → option url.
Variable challengeOf : string → string.

Definition REDIRECT_URI : string := "http://localhost:" +:+ PORT.

Definition authUrl (challenge st : string) : string :=
  "https://" +:+ B2C_HOST +:+ "/" +:+ TENANT_ID +:+ "/" +:+ POLICY
  +:+ "/oauth2/v2.0/authorize?"
  +:+ Query.serialize [
        ("client_id", CLIENT_ID);
        ("response_type", "code");
        ("redirect_uri", REDIRECT_URI);
        ("response_mode", "query");
        ("scope", Str.join " " SCOPES);
        ("code_challenge", challenge);
        ("code_challenge_method", "S256");
        ("state", st) ].

(** **** The OAuth callback, up to the token exchange *)

(** [params], [code], [state], [errMsg] of the callback *)
Definition paramsOf (req : request) : list (string * string) :=
  Query.parse (default "" (search req)).

Definition codeOf (req : request) : option string :=
  Query.get "code" (paramsOf req).

Definition stateOf (req : request) : option string :=
  Query.get "state" (paramsOf req).

Definition errMsgOf (req : request) : option string :=
  match Query.get "error_description" (paramsOf req) with
  | Some d => Some d
  | None => Query.get "error" (paramsOf req)
  end.

Definition callback (st : state) (req : request) : state * outcome :=
  let code := codeOf req in
  let errMsg := errMsgOf req in
  if Str.truthy errMsg then
    (st, Respond (html 200 "Authorization failed" (default "" errMsg) true))
  else
    let '(verifier, m) := pkce_complete (stateOf req) (_pkce st) in
    let st' := {| _token := _token st; _tokenExpiry := _tokenExpiry st;
                  _pkce := m; cacheFile := cacheFile st |} in
    if negb (Str.truthy code) || negb (Str.truthy verifier) then
      (st', Respond (html 400 "Invalid callback"
                       "Missing code or state — please try again." true))
    else (st', AwaitExchange (default "" code) (default "" verifier)).

(** **** The callback once [exchangeCode] has settled *)
Definition callback_resume (st : state) (now : Z) (writable : bool)
    (r : exchange_result) : state * response :=
  match r with
  | Resolved (Some result) =>
      if Str.truthy (access_token result) then
        (persistToken st now writable result,
         html 200 "Authorized!" "This window will close automatically." false)
      else
        (st, html 200 "Auth failed"
               (match error_description result with
                | Some d => d
                | None => default "Unknown error" (error result)
                end) true)
  | Resolved None =>
      (* reading [access_token] of [null] throws inside the [try] *)
      (st, html 200 "Token exchange failed"
             "Cannot read properties of null (reading 'access_token')" true)
  | Rejected message =>
      (st, html 200 "Token exchange failed" message true)
  end.

(** **** [/oauth/start] *)
Definition start (st : state) (newState newVerifier : string)
  : state * outcome :=
  let challenge := challengeOf newVerifier in
  ({| _token := _token st; _tokenExpiry := _tokenExpiry st;
      _pkce := pkce_begin newState newVerifier (_pkce st);
      cacheFile := cacheFile st |},
   Respond (reply 302 [("Location", authUrl challenge newState)] NoBody)).

(** **** [/api/dev-auth/status] *)
Definition authStatus (st : state) (now : Z) : response :=
  reply 200 [("Content-Type", "application/json")]
    (Json (if tokenValid st now
           then StatusReady (default "" (_token st))
           else StatusNotReady)).

(** **** [/api/edo/*]: the request sent upstream *)
Definition forwardPath (req : request) : string :=
  match Str.slice 8 (pathname req) with
  | EmptyString => "/"
  | p => p
  end.

Definition proxy (req : request) : outcome :=
  match parseURL (EDO_API_BASE +:+ forwardPath req
                  +:+ default "" (search req)) with
  | None => Throw
  | Some target =>
      let https := String.eqb (protocol target) "https:" in
      ProxyTo
        {| secure := https;
           upHost := hostname target;
           upPort := match port target with
                     | EmptyString => if https then "443" else "80"
                     | p => p
                     end;
           upPath := urlPathname target +:+ urlSearch target;
           upMethod := method req;
           upHeaders := [
             ("Authorization", default "" (headers req !! "authorization"));
             ("Content-Type", "application/json");
             ("Accept", "application/json") ];
           upBody :=
             if negb (String.eqb (method req) "GET")
                && negb (String.eqb (method req) "HEAD")
             then Some (reqBody req) else None |}
  end.

(** the callback given to [lib.request] *)
Definition proxy_response (proxyRes : upstream_response) : response :=
  reply (statusCode proxyRes)
    [("Content-Type", default "application/json" (contentType proxyRes))]
    (Data (upstreamBody proxyRes)).

(** [proxyReq.on('error', ...)], when no header has been sent yet *)
Definition proxy_error (message : string) : response :=
  reply 502 [("Content-Type", "application/json")] (Json (ProxyError message)).

(** **** Static files *)
Definition filePathOf (req : request) : string :=
  Path.join dirname
    (if String.eqb (pathname req) "/" then "index.html" else pathname req).

Definition static (req : request) : outcome :=
  let filePath := filePathOf req in
  if negb (Str.startsWith filePath (dirname +:+ "/"))
     && negb (String.eqb filePath dirname)
  then Respond (reply 403 [] (Text "Forbidden"))
  else ReadFile filePath.

(** the callback given to [fs.readFile] *)
Definition static_read (filePath : string) (r : read_result) : response :=
  match r with
  | ENOENT => reply 404 [] (Text "Not found")
  | ReadError => reply 500 [] (Text "Server error")
  | ReadOk data =>
      reply 200
        [("Content-Type",
          default "application/octet-stream" (MIME (Path.extname filePath)))]
        (Data data)
  end.

(** **** [handleRequest], up to the first effect it starts *)
Definition isCallback (req : request) : bool :=
  String.eqb (pathname req) "/"
  && match search req with
     | Some s => Str.includes s "code="
     | None => false
     end.

Definition handleRequest (st : state) (now : Z)
    (newState newVerifier : string) (req : request) : state * outcome :=
  if String.eqb (method req) "OPTIONS" then
    (st, Respond (reply 204 [] NoBody))
  else if isCallback req then callback st req
  else if String.eqb (pathname req) "/oauth/start" then
    start st newState newVerifier
  else if String.eqb (pathname req) "/api/dev-auth/status" then
    (st, Respond (authStatus st now))
  else if Str.startsWith (pathname req) "/api/edo" then (st, proxy req)
  else (st, static req).

(** **** A whole request, given how its effects turn out *)
Record world := {
  now         : Z;                    (* [Date.now()] *)
  newState    : string;               (* [b64url(crypto.randomBytes(16))] *)
  newVerifier : string;               (* [b64url(crypto.randomBytes(32))] *)
  writable    : bool;                 (* can the cache file be written *)
  exchange    : string → string → exchange_result;
  upstream    : upstream_request → upstream_response + string;
  readFile    : string → read_result;
}.

Definition serve (w : world) (st : state) (req : request)
  : state * response :=
  match handleRequest st (now w) (newState w) (newVerifier w) req with
  | (st', Respond r) => (st', r)
  | (st', AwaitExchange c v) =>
      callback_resume st' (now w) (writable w) (exchange w c v)
  | (st', ProxyTo u) =>
      (st', match upstream w u with
            | inl proxyRes => proxy_response proxyRes
            | inr message => proxy_error message
            end)
  | (st', ReadFile f) => (st', static_read f (readFile w f))
  | (st', Throw) => (st', reply 500 [] (Text "Internal server error"))
  end.

End Handler.

End DevProxy.

(** ** The browser SDK, [edo.js] *)

Module Sdk.

(** A JavaScript string: its UTF-16 code units. *)
Abbreviation jsstring := (list N).

(** an ASCII literal *)
Definition lit (s : string) : jsstring :=
  map N_of_ascii (list_ascii_of_string s).

(** *** White space, [trim] and the [Bearer] prefix *)

(** [WhiteSpace] and [LineTerminator] of ECMAScript: what [trim] removes
    and what [\s] matches. *)
Definition isWhiteSpace (c : N) : bool :=
  ((c =? 0x9) || (c =? 0xA) || (c =? 0xB) || (c =? 0xC) || (c =? 0xD)
   || (c =? 0x20) || (c =? 0xA0) || (c =? 0x1680)
   || (0x2000 <=? c) && (c <=? 0x200A)
   || (c =? 0x2028) || (c =? 0x2029) || (c =? 0x202F) || (c =? 0x205F)
   || (c =? 0x3000) || (c =? 0xFEFF))%N.

Fixpoint trimStart (s : jsstring) : jsstring :=
  match s with
  | c :: s' => if isWhiteSpace c then trimStart s' else s
  | [] => []
  end.

Definition trimEnd (s : jsstring) : jsstring := rev (trimStart (rev s)).

Definition trim (s : jsstring) : jsstring := trimEnd (trimStart s).

(** Canonicalization under the [i] flag, as far as a pattern of ASCII
    letters can tell: a code unit above 127 never canonicalizes to an
    ASCII one, so only [a]-[z] are mapped. *)
Definition canonicalize (c : N) : N :=
  if ((0x61 <=? c) && (c <=? 0x7A))%N then (c - 0x20)%N else c.

(** matching a literal pattern at the start of [s], ignoring case: the
    rest of [s] after the match *)
Fixpoint matchIgnoreCase (pat s : jsstring) : option jsstring :=
  match pat with
  | [] => Some s
  | p :: pat' =>
      match s with
      | c :: s' =>
          if (canonicalize p =? canonicalize c)%N
          then matchIgnoreCase pat' s' else None
      | [] => None
      end
  end.

(** [raw.replace(/^Bearer\s+/i, '')]: [\s+] is greedy and nothing follows
    it, so it takes the whole run of white space *)
Definition stripBearer (raw : jsstring) : jsstring :=
  match matchIgnoreCase (lit "Bearer") raw with
  | Some (c :: rest) => if isWhiteSpace c then trimStart rest else raw
  | _ => raw
  end.

(** *** The SDK's state while the overlay is shown *)

Record state := {
  _token       : option jsstring;
  _proxyBase   : option jsstring;
  resolved     : bool;                  (* has [_resolve] been called *)
  overlay      : bool;                  (* is [el] in the document *)
  _poll        : bool;                  (* is the status poll running *)
  sessionToken : option jsstring;       (* sessionStorage EDO_DEV_TOKEN *)
  sessionProxy : option jsstring;       (* sessionStorage EDO_DEV_PROXY *)
}.

Definition finishConnect (proxyUrl token : jsstring) (st : state) : state :=
  {| _token := Some token;
     _proxyBase := Some proxyUrl;
     resolved := true;
     overlay := false;
     _poll := false;
     sessionToken := Some token;
     sessionProxy := Some proxyUrl |}.

(** [connectWithToken], with the value of the input field *)
Definition connectWithToken (proxyUrl value : jsstring) (st : state) : state :=
  let raw := trim value in
  let token := stripBearer raw in
  match token with
  | [] => st
  | _ => finishConnect proxyUrl token st
  end.

(** *** Query parameters of [get] *)

#[warnings="-register-all"]
Inductive jsval :=
| Undefined
| Null
| Bool (b : bool)
| Num (z : Z)                           (* a number that is an integer *)
| Str (s : jsstring)
| Arr (l : list jsval)
| Other (text : jsstring).              (* any other value, by its [String] *)

(** [String] writes an integer in decimal digits as long as it is below
    ten to the 21st; the integers a number holds exactly are the safe
    ones, and those are the numbers [Num] stands for. *)
Fixpoint safe (v : jsval) : bool :=
  match v with
  | Num z => (- 2 ^ 53 <? z) && (z <? 2 ^ 53)
  | Arr l => forallb safe l
  | _ => true
  end.

Fixpoint joinComma (l : list jsstring) : jsstring :=
  match l with
  | [] => []
  | [w] => w
  | w :: ws => w ++ lit "," ++ joinComma ws
  end.

(** [String(v)] *)
Fixpoint toString (v : jsval) : jsstring :=
  match v with
  | Undefined => lit "undefined"
  | Null => lit "null"
  | Bool b => lit (if b then "true" else "false")
  | Num z => lit (NilZero.string_of_int (Z.to_int z))
  | Str s => s
  | Arr l =>
      joinComma (map (λ x, match x with
                           | Undefined | Null => []
                           | _ => toString x
                           end) l)
  | Other text => text
  end.

(** Conversion to a [USVString], which the methods of [URLSearchParams]
    apply to their arguments: a surrogate that is not part of a pair
    becomes U+FFFD. *)
Definition isHigh (c : N) : bool := ((0xD800 <=? c) && (c <=? 0xDBFF))%N.
Definition isLow (c : N) : bool := ((0xDC00 <=? c) && (c <=? 0xDFFF))%N.

Fixpoint usv (s : jsstring) : jsstring :=
  match s with
  | [] => []
  | c :: s' =>
      if isHigh c then
        match s' with
        | d :: s'' =>
            if isLow d then c :: d :: usv s'' else 0xFFFD%N :: usv s'
        | [] => [0xFFFD%N]
        end
      else if isLow c then 0xFFFD%N :: usv s'
      else c :: usv s'
  end.

(** [URLSearchParams]: a list of name-value pairs *)
Abbreviation params := (list (jsstring * jsstring)).

Definition append (k v : jsstring) (q : params) : params := q ++ [(k, v)].

Definition named (k : jsstring) (p : jsstring * jsstring) : bool :=
  bool_decide (fst p = k).

(** [set]: the first pair named [k] takes the value, the other pairs named
    [k] go; without such a pair, the same as [append] *)
Fixpoint set (k v : jsstring) (q : params) : params :=
  match q with
  | [] => [(k, v)]
  | p :: q' =>
      if named k p then (fst p, v) :: List.filter (λ x, negb (named k x)) q'
      else p :: set k v q'
  end.

(** the body of the [forEach] over [Object.entries(params)]; [append]
    and [set] take the name and the value as [USVString]s *)
Definition addParam (q : params) (kv : jsstring * jsval) : params :=
  let '(k, v) := kv in
  match v with
  | Arr xs => fold_left (λ q' x, append (usv k) (usv (toString x)) q') xs q
  | Undefined | Null => q
  | _ => set (usv k) (usv (toString v)) q
  end.

(** does the entry reach [append] or [set] at all *)
Definition touches (kv : jsstring * jsval) : bool :=
  match snd kv with
  | Undefined | Null | Arr [] => false
  | _ => true
  end.

(** UTF-8 bytes of a string; a lone surrogate becomes U+FFFD *)
Fixpoint utf8 (s : jsstring) : list N :=
  match s with
  | [] => []
  | c :: s' =>
      if (c <? 0x80)%N then c :: utf8 s'
      else if (c <? 0x800)%N then
        (0xC0 + c / 0x40)%N :: (0x80 + c mod 0x40)%N :: utf8 s'
      else if ((0xD800 <=? c) && (c <=? 0xDBFF))%N then
        match s' with
        | d :: s'' =>
            if ((0xDC00 <=? d) && (d <=? 0xDFFF))%N then
              let cp := (0x10000 + (c - 0xD800) * 0x400 + (d - 0xDC00))%N in
              (0xF0 + cp / 0x40000)%N :: (0x80 + (cp / 0x1000) mod 0x40)%N
              :: (0x80 + (cp / 0x40) mod 0x40)%N :: (0x80 + cp mod 0x40)%N
              :: utf8 s''
            else 0xEF%N :: 0xBF%N :: 0xBD%N :: utf8 s'
        | [] => [0xEF; 0xBF; 0xBD]%N
        end
      else if ((0xDC00 <=? c) && (c <=? 0xDFFF))%N then
        0xEF%N :: 0xBF%N :: 0xBD%N :: utf8 s'
      else
        (0xE0 + c / 0x1000)%N :: (0x80 + (c / 0x40) mod 0x40)%N
        :: (0x80 + c mod 0x40)%N :: utf8 s'
  end.

Definition bytes (s : jsstring) : string :=
  string_of_list_ascii (map ascii_of_N (utf8 s)).

(** [url.searchParams.toString()] *)
Definition serialize (q : params) : jsstring :=
  lit (Query.serialize (map (λ p, (bytes (fst p), bytes (snd p))) q)).

(** What [new URL] makes of an address: all of it before the path, the
    path, the query as the address spells it (with its question mark;
    empty without a query), the pairs that [searchParams] reads from the
    query, and the fragment. *)
Record url := {
  site     : jsstring;
  pathname : jsstring;
  search   : jsstring;
  query    : params;
  hash     : jsstring;
}.

(** What [get] hands to [fetch]: the parts of [url.toString()] and the
    [Authorization] header. *)
Record fetch_request := {
  urlSite       : jsstring;
  urlPath       : jsstring;
  searchParams  : params;
  urlSearch     : jsstring;
  urlHash       : jsstring;
  authorization : jsstring;
}.

(** [url.toString()] *)
Definition href (r : fetch_request) : jsstring :=
  urlSite r ++ urlPath r ++ urlSearch r ++ urlHash r.

Inductive get_result :=
| Suspended                             (* still awaiting [_ready] *)
| Threw                                 (* [new URL] throws *)
| Fetches (r : fetch_request).

Section Get.

(** [new URL(input, base)], which throws on what it cannot parse *)
Variable newURL : jsstring → jsstring → option url.

(** [get(path, params)] up to the call of [fetch]; [entries] is
    [Object.entries(params)].  The call is suspended until the readiness
    promise is resolved.  The query of the address is written anew from
    the pairs each time [append] or [set] is called, with a question
    mark before it unless it is empty; untouched, it stays as the
    address spelled it. *)
Definition get (st : state) (path : jsstring)
    (entries : list (jsstring * jsval)) : get_result :=
  if resolved st then
    match _proxyBase st with
    | None => Threw
    | Some b =>
        match newURL (lit "/api/edo" ++ path) b with
        | None => Threw
        | Some u =>
            let q := fold_left addParam entries (query u) in
            Fetches {| urlSite := site u;
                       urlPath := pathname u;
                       searchParams := q;
                       urlSearch :=
                         if existsb touches entries then
                           match serialize q with
                           | [] => []
                           | text => lit "?" ++ text
                           end
                         else search u;
                       urlHash := hash u;
                       authorization :=
                         lit "Bearer " ++ default (lit "null") (_token st) |}
        end
    end
  else Suspended.

End Get.

End Sdk.

(** * Properties *)

(** ** The PKCE session store *)

Module PkceFacts.
Import DevProxy.

Section Store.

Variable dirname : string.
Variable EDO_API_BASE : string.
Variable PORT : string.
Variable parseURL : string → option url.
Variable challengeOf : string → string.

Local Abbreviation handle :=
  (handleRequest dirname EDO_API_BASE PORT parseURL challengeOf).
Local Abbreviation serving :=
  (serve dirname EDO_API_BASE PORT parseURL challengeOf).

(** The requests the server answers one after the other, each with the
    world its effects meet, and the state they leave behind. *)
Definition serveAll (rs : list (world * request)) (st : state) : state :=
  fold_left (λ st' wr, fst (serving (fst wr) st' (snd wr))) rs st.

(** [req] begins a flow: it is routed to [/oauth/start]. *)
Definition starts (req : request) : Prop :=
  method req ≠ "OPTIONS" ∧ pathname req = "/oauth/start".

(** [req] looks the state [s] up: it is routed to the callback, carries
    no error message and names [s]. *)
Definition looksUp (s : string) (req : request) : Prop :=
  method req ≠ "OPTIONS"
  ∧ isCallback req = true
  ∧ Str.truthy (errMsgOf req) = false
  ∧ stateOf req = Some s.

(** [wr] does not begin a flow under the state [s] *)
Definition noStart (s : string) (wr : world * request) : Prop :=
  ¬ (starts (snd wr) ∧ newState (fst wr) = s).

(** [wr] neither begins a flow under [s] nor looks [s] up *)
Definition quiet (s : string) (wr : world * request) : Prop :=
  noStart s wr ∧ ¬ looksUp s (snd wr).

(** the answer to a callback that finds no verifier *)
Definition invalidCallback : outcome :=
  Respond (html 400 "Invalid callback"
             "Missing code or state — please try again." true).

Lemma method_eqb (req : request) :
  method req ≠ "OPTIONS" → String.eqb (method req) "OPTIONS" = false.
Proof. intros H. by apply String.eqb_neq. Qed.

Lemma resume_pkce (st : state) (t : Z) (wr : bool) (r : exchange_result) :
  _pkce (fst (callback_resume st t wr r)) = _pkce st.
Proof.
  unfold callback_resume. destruct r as [[result |] | msg]; try done.
  by case_match.
Qed.

(** what a request leaves of the map, whatever its effects turn out *)
Lemma serve_pkce (w : world) (st : state) (req : request) :
  _pkce (fst (serving w st req))
  = _pkce (fst (handle st (now w) (newState w) (newVerifier w) req)).
Proof.
  unfold serve.
  destruct (handle st (now w) (newState w) (newVerifier w) req) as [st' o].
  destruct o; try done. simpl. apply resume_pkce.
Qed.

Lemma starts_stores (w : world) (st : state) (req : request) :
  starts req →
  _pkce (fst (serving w st req))
  = pkce_begin (newState w) (newVerifier w) (_pkce st).
Proof.
  intros [Hm Hp]. rewrite serve_pkce. unfold handleRequest, isCallback.
  rewrite (method_eqb _ Hm), Hp. reflexivity.
Qed.

(** the map after [handleRequest], route by route *)
Lemma handle_pkce (st : state) (t : Z) (ns nv : string) (req : request) :
  let m := _pkce (fst (handle st t ns nv req)) in
  (starts req ∧ m = pkce_begin ns nv (_pkce st))
  ∨ (∃ s, looksUp s req ∧ m = delete s (_pkce st))
  ∨ (¬ starts req ∧ (∀ s, ¬ looksUp s req) ∧ m = _pkce st).
Proof.
  unfold handleRequest.
  destruct (String.eqb (method req) "OPTIONS") eqn:Hm.
  { right. right. apply String.eqb_eq in Hm.
    split; [by intros [? _] |]. split; [by intros s (? & _) | done]. }
  apply String.eqb_neq in Hm.
  destruct (isCallback req) eqn:Hc.
  { unfold callback. destruct (Str.truthy (errMsgOf req)) eqn:He.
    { right. right. split.
      - intros [_ Hp]. unfold isCallback in Hc. rewrite Hp in Hc. done.
      - split; [| done]. intros s (_ & _ & He' & _). congruence. }
    destruct (stateOf req) as [s |] eqn:Hs; simpl.
    - right. left. exists s. split; [done |]. by case_match.
    - right. right. split.
      + intros [_ Hp]. unfold isCallback in Hc. rewrite Hp in Hc. done.
      + split; [| by case_match]. intros s (_ & _ & _ & Hs'). congruence. }
  destruct (String.eqb (pathname req) "/oauth/start") eqn:Hp.
  { left. apply String.eqb_eq in Hp. done. }
  right. right. apply String.eqb_neq in Hp.
  split; [by intros [_ ?] |].
  split; [intros s (_ & Hc' & _); congruence |].
  by repeat case_match.
Qed.

Lemma quiet_keeps (s : string) (wr : world * request) (st : state) :
  quiet s wr →
  _pkce (fst (serving (fst wr) st (snd wr))) !! s = _pkce st !! s.
Proof.
  intros [Hns Hnl]. rewrite serve_pkce.
  destruct (handle_pkce st (now (fst wr)) (newState (fst wr))
              (newVerifier (fst wr)) (snd wr))
    as [[Hs ->] | [(k & Hk & ->) | (_ & _ & ->)]]; [| | done].
  - unfold pkce_begin. rewrite lookup_insert_ne; [done |].
    intros Heq. by apply Hns.
  - rewrite lookup_delete_ne; [done |]. by intros ->.
Qed.

Lemma noStart_absent (s : string) (wr : world * request) (st : state) :
  noStart s wr → _pkce st !! s = None →
  _pkce (fst (serving (fst wr) st (snd wr))) !! s = None.
Proof.
  intros Hns Hm. rewrite serve_pkce.
  destruct (handle_pkce st (now (fst wr)) (newState (fst wr))
              (newVerifier (fst wr)) (snd wr))
    as [[Hs ->] | [(k & Hk & ->) | (_ & _ & ->)]]; [| | done].
  - unfold pkce_begin. rewrite lookup_insert_ne; [done |].
    intros Heq. by apply Hns.
  - destruct (decide (k = s)) as [-> | Hne].
    + apply lookup_delete_eq.
    + by rewrite lookup_delete_ne.
Qed.

Lemma serveAll_keeps (s : string) (rs : list (world * request)) (st : state) :
  Forall (quiet s) rs → _pkce (serveAll rs st) !! s = _pkce st !! s.
Proof.
  revert st. induction rs as [| wr rs IH]; intros st H; [done |].
  inversion H; subst. simpl. rewrite IH by done. by apply quiet_keeps.
Qed.

Lemma serveAll_absent (s : string) (rs : list (world * request)) (st : state) :
  Forall (noStart s) rs → _pkce st !! s = None →
  _pkce (serveAll rs st) !! s = None.
Proof.
  revert st. induction rs as [| wr rs IH]; intros st H Hm; [done |].
  inversion H; subst. simpl. apply IH; [done |]. by apply noStart_absent.
Qed.

(** a look-up that finds a verifier hands it to the exchange and removes
    the pair *)
Lemma lookup_found (s c v : string) (st : state) (t : Z) (ns nv : string)
    (req : request) :
  looksUp s req → _pkce st !! s = Some v → v ≠ "" →
  codeOf req = Some c → c ≠ "" →
  snd (handle st t ns nv req) = AwaitExchange c v
  ∧ _pkce (fst (handle st t ns nv req)) !! s = None.
Proof.
  intros (Hm & Hc & He & Hs) Hv Hv' Hcode Hc'.
  unfold handleRequest. rewrite (method_eqb _ Hm), Hc.
  unfold callback. rewrite He, Hs, Hcode. simpl. rewrite Hv.
  destruct c as [| a c]; [done |]. destruct v as [| b v]; [done |].
  simpl. split; [done |]. apply lookup_delete_eq.
Qed.

(** a look-up that finds nothing is answered 400 *)
Lemma lookup_missing (s : string) (st : state) (t : Z) (ns nv : string)
    (req : request) :
  looksUp s req → _pkce st !! s = None →
  snd (handle st t ns nv req) = invalidCallback.
Proof.
  intros (Hm & Hc & He & Hs) Hv.
  unfold handleRequest. rewrite (method_eqb _ Hm), Hc.
  unfold callback. rewrite He, Hs. simpl. rewrite Hv.
  by rewrite orb_true_r.
Qed.

(** C1. A pair that [/oauth/start] stores is handed out by the first
    callback that looks its state up, and by no later one.  After a
    request to [/oauth/start] that draws the state [s] and the verifier
    [v], and any requests that neither begin a flow under [s] nor look
    [s] up, a callback that names [s] (and carries a code and no error)
    goes on to the exchange with [v]; after it, and whatever requests
    follow that do not begin a flow under [s] again, a callback that
    names [s] finds nothing and is answered 400.  A callback that names a
    state under which no flow was begun since the server started is
    answered 400 as well, and so is a callback that names no state. *)
Theorem pkce_single_use (st : state) (w0 w1 w2 : world)
    (req0 cb1 cb2 : request) (before after : list (world * request))
    (c : string) :
  let s := newState w0 in
  let v := newVerifier w0 in
  starts req0 → v ≠ "" →
  Forall (quiet s) before →
  looksUp s cb1 → codeOf cb1 = Some c → c ≠ "" →
  Forall (noStart s) after →
  looksUp s cb2 →
  let st1 := serveAll before (fst (serving w0 st req0)) in
  let st2 := serveAll after (fst (serving w1 st1 cb1)) in
  snd (handle st1 (now w1) (newState w1) (newVerifier w1) cb1)
    = AwaitExchange c v
  ∧ snd (handle st2 (now w2) (newState w2) (newVerifier w2) cb2)
    = invalidCallback
  ∧ (∀ disk t k rs cb,
        Forall (noStart k) rs → looksUp k cb →
        snd (handle (serveAll rs (initial disk t))
               (now w2) (newState w2) (newVerifier w2) cb)
        = invalidCallback)
  ∧ ∀ st' cb,
      method cb ≠ "OPTIONS" → isCallback cb = true →
      Str.truthy (errMsgOf cb) = false → stateOf cb = None →
      snd (handle st' (now w2) (newState w2) (newVerifier w2) cb)
      = invalidCallback.
Proof.
  intros s v Hst Hv Hb Hcb1 Hc Hc' Ha Hcb2 st1 st2.
  assert (_pkce st1 !! s = Some v) as H1.
  { unfold st1. rewrite serveAll_keeps by done.
    rewrite starts_stores by done. apply lookup_insert_eq. }
  destruct (lookup_found s c v st1 (now w1) (newState w1) (newVerifier w1) cb1)
    as [Hout Hgone]; try done.
  split; [done |]. split.
  - apply (lookup_missing s); [done |].
    unfold st2. apply serveAll_absent; [done |].
    by rewrite serve_pkce.
  - split.
    + intros disk t k rs cb Hrs Hcb. apply (lookup_missing k); [done |].
      apply serveAll_absent; [done |].
      unfold initial. by repeat case_match.
    + intros st' cb Hm Hcb He Hs. unfold handleRequest.
      rewrite (method_eqb _ Hm), Hcb. unfold callback. rewrite He, Hs.
      simpl. by rewrite orb_true_r.
Qed.

End Store.

(** the worlds and requests of an example run *)
Definition aWorld (s v : string) : world :=
  {| now := 0; newState := s; newVerifier := v; writable := true;
     exchange := λ _ _, Rejected "offline";
     upstream := λ _, inr "offline";
     readFile := λ _, ENOENT |}.

Definition aRequest (path : string) (query : option string) : request :=
  {| method := "GET"; pathname := path; search := query;
     headers := ∅; reqBody := "" |}.

Definition emptyState : state := initial None 0.

Lemma pkce_single_use_witness :
  let serving := serve "/srv/app" "https://api.example" "3001" (λ _, None) (λ x, x) in
  let handle := handleRequest "/srv/app" "https://api.example" "3001" (λ _, None) (λ x, x) in
  let st1 := fst (serving (aWorld "s2" "v2")
                    (fst (serving (aWorld "s1" "v1") emptyState
                            (aRequest "/oauth/start" None)))
                    (aRequest "/oauth/start" None)) in
  let st2 := fst (serving (aWorld "s3" "v3")
                    (fst (serving (aWorld "s4" "v4") st1
                            (aRequest "/" (Some "?code=abc&state=s1"))))
                    (aRequest "/oauth/start" None)) in
  snd (handle st1 0 "s4" "v4" (aRequest "/" (Some "?code=abc&state=s1")))
    = AwaitExchange "abc" "v1"
  ∧ snd (handle st2 0 "s5" "v5" (aRequest "/" (Some "?code=abc&state=s1")))
    = invalidCallback
  ∧ snd (handle emptyState 0 "s5" "v5" (aRequest "/" (Some "?code=abc&state=zz")))
    = invalidCallback.
Proof.
  intros serving handle st1 st2.
  pose proof (pkce_single_use "/srv/app" "https://api.example" "3001"
                (λ _, None) (λ x, x) emptyState
                (aWorld "s1" "v1") (aWorld "s4" "v4") (aWorld "s5" "v5")
                (aRequest "/oauth/start" None)
                (aRequest "/" (Some "?code=abc&state=s1"))
                (aRequest "/" (Some "?code=abc&state=s1"))
                [(aWorld "s2" "v2", aRequest "/oauth/start" None)]
                [(aWorld "s3" "v3", aRequest "/oauth/start" None)]
                "abc") as H.
  simpl in H.
  destruct H as (H1 & H2 & H3 & _).
  - split; [discriminate | reflexivity].
  - discriminate.
  - constructor; [| constructor]. split.
    + intros [_ Heq]. discriminate Heq.
    + intros (_ & Hc & _). discriminate Hc.
  - repeat split; first [discriminate | vm_compute; reflexivity].
  - reflexivity.
  - discriminate.
  - constructor; [| constructor]. intros [_ Heq]. discriminate Heq.
  - repeat split; first [discriminate | vm_compute; reflexivity].
  - split; [exact H1 |]. split; [exact H2 |].
    apply (H3 None 0 "zz" [] (aRequest "/" (Some "?code=abc&state=zz")));
      [constructor |].
    repeat split; first [discriminate | vm_compute; reflexivity].
Defined.

End PkceFacts.

(** ** Paths *)

Module PathFacts.

(** the characters of a string *)
Fixpoint chars (s : string) : list ascii :=
  match s with
  | EmptyString => []
  | String c s' => c :: chars s'
  end.

(** a segment of a normalized path: not empty, not [.], not [..], and
    without a separator *)
Definition plain (s : string) : Prop :=
  s ≠ "" ∧ s ≠ "." ∧ s ≠ ".." ∧ "/"%char ∉ chars s.

(** is [l1] the beginning of [l2] *)
Fixpoint isPrefix (l1 l2 : list string) : bool :=
  match l1, l2 with
  | [], _ => true
  | a :: l1', b :: l2' => String.eqb a b && isPrefix l1' l2'
  | _ :: _, [] => false
  end.

(** [f] lies in the directory [root] or is [root] itself: the segments of
    [root] are the first segments of [f] *)
Definition inside (root f : string) : bool :=
  isPrefix (Path.segments root) (Path.segments f).

Lemma isPrefix_app (l k : list string) : isPrefix l (l ++ k) = true.
Proof.
  induction l as [| a l IH]; [done |].
  simpl. by rewrite String.eqb_refl, IH.
Qed.

Lemma split_nonnil (c : ascii) (s : string) : Str.split c s ≠ [].
Proof.
  destruct s as [| d s]; simpl; [done |].
  destruct (Ascii.eqb d c); [done |]. by destruct (Str.split c s).
Qed.

Lemma append_cons (d : ascii) (a b : string) :
  String d a +:+ b = String d (a +:+ b).
Proof. reflexivity. Qed.

Lemma append_nil (b : string) : "" +:+ b = b.
Proof. reflexivity. Qed.

Lemma append_assoc (a b c : string) : (a +:+ b) +:+ c = a +:+ (b +:+ c).
Proof.
  induction a as [| d a IH]; [done |].
  by rewrite !append_cons, IH.
Qed.

(** splitting distributes over a separator *)
Lemma split_app (c : ascii) (a b : string) :
  Str.split c (a +:+ String c b) = Str.split c a ++ Str.split c b.
Proof.
  induction a as [| d a IH].
  - rewrite append_nil. simpl. by rewrite Ascii.eqb_refl.
  - rewrite append_cons. simpl.
    destruct (Ascii.eqb d c); [by rewrite IH |].
    rewrite IH. pose proof (split_nonnil c a) as Hn.
    by destruct (Str.split c a).
Qed.

Lemma startsWith_app (s p : string) :
  Str.startsWith s p = true → ∃ r, s = p +:+ r.
Proof.
  revert s. induction p as [| c p IH]; intros s H; simpl in *.
  - by exists s.
  - destruct s as [| d s]; [done |].
    apply andb_prop in H as [Hc Hs]. apply Ascii.eqb_eq in Hc as ->.
    destruct (IH s Hs) as [r ->]. by exists r.
Qed.

Lemma segments_app (root r : string) :
  Path.segments (root +:+ "/" +:+ r) = Path.segments root ++ Path.segments r.
Proof.
  unfold Path.segments. change ("/" +:+ r) with (String "/" r).
  by rewrite split_app, List.filter_app.
Qed.

(** The test of the static handler: a path that begins with the root and
    a separator, or is the root, lies inside the root. *)
Lemma guard_inside (root f : string) :
  Str.startsWith f (root +:+ "/") || String.eqb f root = true →
  inside root f = true.
Proof.
  intros H. apply orb_prop in H as [H | H].
  - apply startsWith_app in H as [r ->]. unfold inside.
    rewrite append_assoc, segments_app. apply isPrefix_app.
  - apply String.eqb_eq in H as ->. unfold inside.
    rewrite <- (app_nil_r (Path.segments root)) at 2. apply isPrefix_app.
Qed.

Lemma chars_app (a b : string) : chars (a +:+ b) = chars a ++ chars b.
Proof.
  induction a as [| c a IH]; [done |]. rewrite append_cons. simpl. by rewrite IH.
Qed.

(** *** What [path.normalize] returns for an absolute path *)

Lemma split_free (c : ascii) (s : string) :
  Forall (λ w, c ∉ chars w) (Str.split c s).
Proof.
  induction s as [| d s IH]; simpl.
  - repeat constructor. apply not_elem_of_nil.
  - destruct (Ascii.eqb_spec d c) as [-> | Hne].
    + constructor; [apply not_elem_of_nil | done].
    + destruct (Str.split c s) as [| w ws]; simpl.
      * repeat constructor. intros H%list_elem_of_singleton. done.
      * apply Forall_cons in IH as [Hw Hws]. constructor; [| done].
        simpl. intros [? | ?]%elem_of_cons; done.
Qed.

Lemma split_single (c : ascii) (w : string) :
  c ∉ chars w → Str.split c w = [w].
Proof.
  induction w as [| d w IH]; simpl; [done |].
  intros [Hd Hw]%not_elem_of_cons.
  destruct (Ascii.eqb_spec d c) as [-> | _]; [done |]. by rewrite IH.
Qed.

Lemma segments_single (w : string) :
  "/"%char ∉ chars w → w ≠ "" → Path.segments w = [w].
Proof.
  intros Hf Hne. unfold Path.segments. rewrite split_single by done.
  simpl. by destruct w.
Qed.

Lemma segments_join (l : list string) :
  Forall plain l → Path.segments (Str.join "/" l) = l.
Proof.
  induction 1 as [| w l (Hne & _ & _ & Hf) Hl IH]; [done |].
  destruct l as [| w' l].
  - simpl. by apply segments_single.
  - change (Path.segments (w +:+ "/" +:+ Str.join "/" (w' :: l)) = w :: w' :: l).
    by rewrite segments_app, IH, segments_single.
Qed.

Lemma segments_leading (s : string) :
  Path.segments ("/" +:+ s) = Path.segments s.
Proof. by rewrite <- (append_nil ("/" +:+ s)), segments_app. Qed.

Lemma segments_trailing (s : string) :
  Path.segments (s +:+ "/") = Path.segments s.
Proof.
  change (s +:+ "/") with (s +:+ "/" +:+ ""). rewrite segments_app.
  apply app_nil_r.
Qed.

Lemma step_plain (stack : list string) (seg : string) :
  Forall plain stack → "/"%char ∉ chars seg →
  Forall plain (Path.step false stack seg).
Proof.
  intros Hs Hf. unfold Path.step.
  destruct (String.eqb_spec seg "") as [| Hn1]; [done |].
  destruct (String.eqb_spec seg ".") as [| Hn2]; [done |]. simpl.
  destruct (String.eqb_spec seg "..") as [| Hn3].
  - destruct stack as [| top rest]; [done |].
    destruct (String.eqb top ".."); [done |].
    by apply Forall_cons in Hs as [_ ?].
  - by constructor.
Qed.

Lemma fold_plain (segs stack : list string) :
  Forall plain stack → Forall (λ w, "/"%char ∉ chars w) segs →
  Forall plain (fold_left (Path.step false) segs stack).
Proof.
  revert stack. induction segs as [| seg segs IH]; intros stack Hs Hf; [done |].
  apply Forall_cons in Hf as [Hseg Hf]. simpl.
  apply IH; [| done]. by apply step_plain.
Qed.

(** The segments of a normalized absolute path are the stack that
    [normalizeString] builds: none of them is empty, [.] or [..]. *)
Lemma normalize_segments (p : string) :
  Path.isAbsolute p = true →
  Path.segments (Path.normalize p)
  = rev (fold_left (Path.step false) (Str.split "/" p) [])
  ∧ Forall plain (Path.segments (Path.normalize p)).
Proof.
  intros Habs.
  assert (Forall plain (rev (fold_left (Path.step false) (Str.split "/" p) [])))
    as Hplain.
  { apply List.Forall_rev, fold_plain; [constructor | apply split_free]. }
  assert (Path.segments (Path.normalize p)
          = rev (fold_left (Path.step false) (Str.split "/" p) [])) as Heq.
  { unfold Path.normalize. destruct p as [| c p]; [done |].
    rewrite Habs. unfold Path.normalizeString. simpl negb.
    set (l := rev (fold_left (Path.step false) (Str.split "/" (String c p)) []))
      in *.
    destruct (Str.join "/" l) eqn:Hj.
    - rewrite <- (segments_join l Hplain), Hj. done.
    - rewrite <- Hj. rewrite segments_leading.
      destruct (match Str.last (String c p) with
                | Some c0 => Ascii.eqb c0 "/"
                | None => false
                end).
      + rewrite segments_trailing. by apply segments_join.
      + by apply segments_join. }
  split; [done |]. by rewrite Heq.
Qed.

Lemma isAbsolute_app (a b : string) :
  Path.isAbsolute a = true → Path.isAbsolute (a +:+ b) = true.
Proof.
  unfold Path.isAbsolute. destruct a as [| c a]; [done |].
  rewrite append_cons. cbv beta iota delta [Str.startsWith].
  by destruct (Ascii.eqb "/" c).
Qed.

(** [path.join] under an absolute directory gives a normalized path. *)
Lemma join_plain (root x : string) :
  Path.isAbsolute root = true →
  Forall plain (Path.segments (Path.join root x)).
Proof.
  intros Habs. unfold Path.join.
  destruct root as [| c root]; [done |].
  destruct x as [| d x].
  - change (Forall plain (Path.segments (Path.normalize (String c root)))).
    by apply normalize_segments.
  - change (Forall plain
              (Path.segments
                 (Path.normalize (String c root +:+ "/" +:+ String d x)))).
    by apply normalize_segments, isAbsolute_app.
Qed.

End PathFacts.

(** ** Query strings *)

Module QueryFacts.
Import PathFacts.

Definition noEquals (s : string) : Prop := Forall (λ c, c ≠ "="%char) (chars s).

(** the serializer never writes [=] inside a name or a value *)
Lemma encode_noEquals (s : string) : noEquals (Query.encode s).
Proof.
  unfold noEquals. induction s as [| c s IH]; simpl; [constructor |].
  destruct (Query.unreserved c) eqn:Hu.
  { simpl. constructor; [| done]. intros ->. discriminate Hu. }
  destruct (Ascii.eqb c " "); simpl.
  { constructor; [done | done]. }
  constructor; [done |].
  constructor; [| constructor; [| done]].
  - clear. destruct c as [[] [] [] [] [] [] [] []]; vm_compute; discriminate.
  - clear. destruct c as [[] [] [] [] [] [] [] []]; vm_compute; discriminate.
Qed.

(** case analysis on every comparison of a character with a variable *)
Ltac case_chars :=
  repeat match goal with
         | |- context [Ascii.eqb ?a ?c] => is_var c; destruct (Ascii.eqb a c)
         end.

Lemma startsWith_code_noEquals (s : string) :
  noEquals s → Str.startsWith s "code=" = false.
Proof.
  unfold noEquals.
  destruct s as [| c0 [| c1 [| c2 [| c3 [| c4 s]]]]]; cbv beta iota delta [Str.startsWith];
    intros H; try (by case_chars).
  do 4 (apply Forall_cons in H as [_ H]). apply Forall_cons in H as [H _].
  destruct (Ascii.eqb_spec "=" c4) as [Heq |]; [by symmetry in Heq |].
  by case_chars.
Qed.

Lemma includes_code_noEquals (s : string) :
  noEquals s → Str.includes s "code=" = false.
Proof.
  induction s as [| c s IH]; intros H.
  - done.
  - change (Str.startsWith (String c s) "code=" || Str.includes s "code=" = false).
    rewrite startsWith_code_noEquals by done.
    apply IH. by apply Forall_cons in H as [_ ?].
Qed.

(** an occurrence of [code=] does not span a [&] *)
Lemma startsWith_code_amp (a b : string) :
  Str.startsWith (a +:+ String "&" b) "code=" = Str.startsWith a "code=".
Proof.
  destruct a as [| c0 [| c1 [| c2 [| c3 [| c4 a]]]]];
    rewrite ?append_cons, ?append_nil; cbv beta iota delta [Str.startsWith]; by case_chars.
Qed.

Lemma includes_code_amp (a b : string) :
  Str.includes (a +:+ String "&" b) "code="
  = Str.includes a "code=" || Str.includes b "code=".
Proof.
  induction a as [| c a IH].
  - rewrite append_nil. done.
  - rewrite append_cons.
    change (Str.startsWith (String c (a +:+ String "&" b)) "code="
            || Str.includes (a +:+ String "&" b) "code="
            = (Str.startsWith (String c a) "code=" || Str.includes a "code=")
              || Str.includes b "code=").
    rewrite <- append_cons, startsWith_code_amp, IH. by rewrite orb_assoc.
Qed.

(** the names of the parameters of an OAuth error response *)
Definition errorName (n : string) : Prop :=
  n = "error" ∨ n = "error_description" ∨ n = "error_uri" ∨ n = "state".

Lemma pair_no_code (n v : string) :
  errorName n →
  Str.includes (Query.encode n +:+ "=" +:+ Query.encode v) "code=" = false.
Proof.
  pose proof (includes_code_noEquals _ (encode_noEquals v)) as Hv.
  intros [-> | [-> | [-> | ->]]]; vm_compute (Query.encode _) at 1;
    rewrite ?append_cons, ?append_nil;
    repeat (cbn [Str.includes]; rewrite orb_false_l); exact Hv.
Qed.

(** A query made of error parameters only, as the serializer writes it,
    does not contain [code=]. *)
Lemma error_query_no_code (ps : list (string * string)) :
  Forall (λ p, errorName (fst p)) ps →
  Str.includes (Query.serialize ps) "code=" = false.
Proof.
  unfold Query.serialize.
  induction 1 as [| [n v] ps Hn Hps IH]; [done |].
  destruct ps as [| q ps].
  - simpl. by apply pair_no_code.
  - change (Str.includes
              ((Query.encode n +:+ "=" +:+ Query.encode v)
               +:+ String "&"
                     (Str.join "&"
                        (map (λ p, Query.encode (fst p) +:+ "=" +:+ Query.encode (snd p))
                           (q :: ps)))) "code=" = false).
    rewrite includes_code_amp, IH. by rewrite pair_no_code.
Qed.

End QueryFacts.

(** ** The request handler *)

Module ProxyFacts.
Import DevProxy.

(** A configuration to run the handler on.  [demoURL] stands in for
    [new URL]: it reads an [http] or [https] address as scheme, host,
    optional port, path, query and fragment, and agrees with [new URL] on
    addresses that have a lower-case host name and no credentials, dot
    segments or characters that the parser would escape. *)
Fixpoint authority (s : string) : string * string :=
  match s with
  | EmptyString => (EmptyString, EmptyString)
  | String c s' =>
      if Ascii.eqb c "/" || Ascii.eqb c "?" || Ascii.eqb c "#"
      then (EmptyString, s)
      else let '(a, r) := authority s' in (String c a, r)
  end.

Fixpoint digits (s : string) : bool :=
  match s with
  | EmptyString => true
  | String c s' =>
      (48 <=? N_of_ascii c)%N && (N_of_ascii c <=? 57)%N && digits s'
  end.

Definition readAddress (proto dflt rest : string) : option url :=
  let '(auth, tail) := authority rest in
  let '(host, p) := Str.cut ":" auth in
  let beforeHash := fst (Str.cut "#" tail) in
  let path := fst (Str.cut "?" beforeHash) in
  let query := snd (Str.cut "?" beforeHash) in
  if Str.nonempty host && digits (default EmptyString p) then
    Some {| protocol := proto; hostname := host;
            port := match p with
                    | Some n => if String.eqb n dflt then EmptyString else n
                    | None => EmptyString
                    end;
            urlPathname := if Str.nonempty path then path else "/";
            urlSearch := match query with
                         | Some q => if Str.nonempty q then "?" +:+ q
                                     else EmptyString
                         | None => EmptyString
                         end |}
  else None.

Definition demoURL (s : string) : option url :=
  if Str.startsWith s "https://" then readAddress "https:" "443" (Str.slice 8 s)
  else if Str.startsWith s "http://" then readAddress "http:" "80" (Str.slice 7 s)
  else None.

Definition demoWorld (t : Z) : world :=
  {| now := t; newState := "s1"; newVerifier := "v1"; writable := true;
     exchange := λ _ _,
       Resolved (Some {| access_token := Some "tok"; expires_in := Some 3600;
                         error_description := None; error := None |});
     upstream := λ _,
       inl {| statusCode := 404; contentType := None; upstreamBody := "gone" |};
     readFile := λ _, ReadOk "<html></html>" |}.

Definition GET (path : string) (query : option string) : request :=
  {| method := "GET"; pathname := path; search := query;
     headers := ∅; reqBody := "" |}.

Section Facts.

Variable dirname : string.
Variable EDO_API_BASE : string.
Variable PORT : string.
Variable parseURL : string → option url.
Variable challengeOf : string → string.

Local Abbreviation handle :=
  (handleRequest dirname EDO_API_BASE PORT parseURL challengeOf).
Local Abbreviation serving :=
  (serve dirname EDO_API_BASE PORT parseURL challengeOf).

(** *** Reachable states *)

(** The states the server can be in: the one it starts in, and those it
    moves to when a handler runs up to its first effect or when a
    pending token exchange settles. *)
Inductive reachable : state → Prop :=
| reach_initial disk t : reachable (initial disk t)
| reach_handle st t ns nv req :
    reachable st → reachable (fst (handle st t ns nv req))
| reach_resume st t w r :
    reachable st → reachable (fst (callback_resume st t w r)).

(** a token that is held is a non-empty one *)
Definition token_ok (st : state) : Prop :=
  ∀ t, _token st = Some t → t ≠ "".

Lemma truthy_Some (t : string) : Str.truthy (Some t) = true → t ≠ "".
Proof. by destruct t. Qed.

Lemma truthy_nonempty (t : string) : t ≠ "" → Str.truthy (Some t) = true.
Proof. by destruct t. Qed.

Lemma handle_token st t ns nv req :
  _token (fst (handle st t ns nv req)) = _token st
  ∧ _tokenExpiry (fst (handle st t ns nv req)) = _tokenExpiry st.
Proof.
  unfold handleRequest.
  repeat (case_match; simpl; try done).
  unfold callback.
  repeat (case_match; simpl; try done).
Qed.

Lemma reachable_token_ok st : reachable st → token_ok st.
Proof.
  induction 1 as [disk t | st t ns nv req _ IH | st t w r _ IH].
  - unfold initial. intros tok.
    destruct disk as [c|]; [| done].
    destruct (_ && _) eqn:Ht; simpl; [| done].
    apply andb_prop in Ht as [Ht _].
    intros Heq. rewrite Heq in Ht. by apply truthy_Some.
  - intros tok. destruct (handle_token st t ns nv req) as [-> _]. apply IH.
  - intros tok. unfold callback_resume.
    destruct r as [[result|] | msg]; simpl; try apply IH.
    destruct (Str.truthy (access_token result)) eqn:Ht; simpl; [| apply IH].
    intros Heq. rewrite Heq in Ht. by apply truthy_Some.
Qed.

(** *** The status endpoint *)

Definition isStatusRequest (req : request) : Prop :=
  method req ≠ "OPTIONS" ∧ pathname req = "/api/dev-auth/status".

(** C2. In a reachable state the status endpoint answers
    [{ ready: true, token }] exactly when a token is held whose expiry
    lies more than 60000 ms after the current time, and
    [{ ready: false }] otherwise; in particular a token that expires
    within the next 60 seconds is not reported. *)
Theorem status_ready_iff_valid st t ns nv req :
  reachable st →
  isStatusRequest req →
  ∃ j, handle st t ns nv req
       = (st, Respond (reply 200 [("Content-Type", "application/json")] (Json j)))
    ∧ (∀ tok, j = StatusReady tok
              ↔ _token st = Some tok
                ∧ ∃ e, _tokenExpiry st = Some e ∧ e > t + 60000)
    ∧ (j = StatusNotReady
       ↔ ¬ ∃ tok e, _token st = Some tok
                    ∧ _tokenExpiry st = Some e ∧ e > t + 60000)
    ∧ (∀ e, _tokenExpiry st = Some e → e ≤ t + 60000 → j = StatusNotReady).
Proof.
  intros Hr [Hm Hp]. apply reachable_token_ok in Hr.
  unfold handleRequest, isCallback. rewrite Hp.
  destruct (String.eqb_spec (method req) "OPTIONS") as [? | _]; [done |].
  simpl. eexists. split; [reflexivity |].
  unfold tokenValid, gt.
  destruct (_token st) as [tok |] eqn:Htok.
  - rewrite (truthy_nonempty tok) by (by apply Hr). simpl.
    destruct (_tokenExpiry st) as [e |] eqn:He.
    + destruct (Z.gtb_spec e (t + 60000)) as [Hgt | Hle]; simpl.
      * split; [| split].
        -- intros tok'. split.
           ++ intros [= <-]. split; [done |]. exists e. split; [done | lia].
           ++ intros [[= <-] _]. done.
        -- split; [done |]. intros Hn. exfalso. apply Hn.
           exists tok, e. repeat split; try done; lia.
        -- intros e' [= <-] Hle. lia.
      * split; [| split].
        -- intros tok'. split; [done |].
           intros [_ (e' & [= <-] & Hgt)]. lia.
        -- split; [| done]. intros _ (tok' & e' & _ & [= <-] & Hgt). lia.
        -- done.
    + simpl. split; [| split].
      * intros tok'. split; [done |]. intros [_ (e' & [=] & _)].
      * split; [| done]. intros _ (tok' & e' & _ & [=] & _).
      * done.
  - simpl. split; [| split].
    + intros tok'. split; [done |]. intros [[=] _].
    + split; [| done]. intros _ (tok' & e' & [=] & _).
    + done.
Qed.

(** *** Routing *)

Lemma prefix_not_root (p : string) :
  Str.startsWith p "/api/edo" = true →
  String.eqb p "/" = false
  ∧ String.eqb p "/oauth/start" = false
  ∧ String.eqb p "/api/dev-auth/status" = false.
Proof.
  intros H. repeat split.
  - destruct (String.eqb_spec p "/") as [-> |]; [discriminate | done].
  - destruct (String.eqb_spec p "/oauth/start") as [-> |]; [discriminate | done].
  - destruct (String.eqb_spec p "/api/dev-auth/status") as [-> |];
      [discriminate | done].
Qed.

Lemma not_options (req : request) :
  method req ≠ "OPTIONS" → String.eqb (method req) "OPTIONS" = false.
Proof. intros H. by destruct (String.eqb_spec (method req) "OPTIONS"). Qed.

(** the response is one of the callback's pages, or the callback is
    waiting for the token exchange *)
Definition callbackOutcome (o : outcome) : Prop :=
  match o with
  | AwaitExchange _ _ => True
  | Respond r => ∃ s, respBody r = Html s
  | _ => False
  end.

Lemma static_cases (req : request) :
  static dirname req = Respond (reply 403 [] (Text "Forbidden"))
  ∨ ∃ f, static dirname req = ReadFile f.
Proof. unfold static. case_match; eauto. Qed.

Lemma static_not_callback (req : request) :
  ¬ callbackOutcome (static dirname req).
Proof.
  destruct (static_cases req) as [-> | [f ->]]; simpl; [| tauto].
  intros [s' [=]].
Qed.

(** C9. Only a request for the path [/] whose query string contains
    [code=] is answered by the callback; a request for [/] whose query
    string does not contain it, whatever error parameters it carries,
    goes to the static file handler, which renders no callback page. Such
    is a redirect whose query is made of the parameters [error],
    [error_description] and [state] alone. *)
Theorem callback_needs_code st t ns nv req :
  (callbackOutcome (snd (handle st t ns nv req)) →
   pathname req = "/"
   ∧ ∃ s, search req = Some s ∧ Str.includes s "code=" = true)
  ∧ (method req ≠ "OPTIONS" →
     pathname req = "/" →
     (∀ s, search req = Some s → Str.includes s "code=" = false) →
     handle st t ns nv req = (st, static dirname req)
     ∧ ¬ callbackOutcome (static dirname req)
     ∧ (static dirname req = ReadFile (Path.join dirname "index.html")
        ∨ static dirname req = Respond (reply 403 [] (Text "Forbidden"))))
  ∧ (∀ ps, method req ≠ "OPTIONS" →
       pathname req = "/" →
       search req = Some ("?" +:+ Query.serialize ps) →
       Forall (λ p, QueryFacts.errorName (fst p)) ps →
       handle st t ns nv req = (st, static dirname req)).
Proof.
  assert (method req ≠ "OPTIONS" →
          pathname req = "/" →
          (∀ s, search req = Some s → Str.includes s "code=" = false) →
          handle st t ns nv req = (st, static dirname req)) as Hstatic.
  { intros Hm Hp Hs. unfold handleRequest, isCallback.
    rewrite (not_options req Hm), Hp. simpl.
    assert (match search req with
            | Some s => Str.includes s "code="
            | None => false
            end = false) as ->; [| done].
    destruct (search req) as [s' |]; [by apply Hs | done]. }
  split; [| split].
  - unfold handleRequest.
    destruct (String.eqb (method req) "OPTIONS"); simpl.
    { intros [s' [=]]. }
    destruct (isCallback req) eqn:Hcb.
    { intros _. unfold isCallback in Hcb.
      apply andb_prop in Hcb as [Hp Hs].
      apply String.eqb_eq in Hp. split; [done |].
      destruct (search req) as [s' |]; [eauto | done]. }
    destruct (String.eqb (pathname req) "/oauth/start"); simpl.
    { intros [s' [=]]. }
    destruct (String.eqb (pathname req) "/api/dev-auth/status"); simpl.
    { intros [s' [=]]. }
    destruct (Str.startsWith (pathname req) "/api/edo"); simpl.
    { unfold proxy. case_match; simpl; tauto. }
    intros H. by apply static_not_callback in H.
  - intros Hm Hp Hs. split; [by apply Hstatic |].
    split; [apply static_not_callback |].
    unfold static, filePathOf. rewrite Hp. simpl. case_match; eauto.
  - intros ps Hm Hp Hs Hps. apply Hstatic; [done | done |].
    intros s' Hs'. rewrite Hs in Hs'. injection Hs' as <-.
    change (Str.startsWith ("?" +:+ Query.serialize ps) "code="
            || Str.includes (Query.serialize ps) "code=" = false).
    by rewrite (QueryFacts.error_query_no_code ps Hps).
Qed.

(** *** The callback *)

Definition invalidCallback : response :=
  html 400 "Invalid callback" "Missing code or state — please try again." true.

(** C4, as amended. A response of the callback route carries status 200,
    but for the "Invalid callback" page, which carries status 400; that
    page is rendered when no error is reported and the code is missing
    or empty, or no verifier is stored under the state. *)
Theorem callback_status w st req :
  method req ≠ "OPTIONS" →
  isCallback req = true →
  let r := snd (serving w st req) in
  let invalid :=
    negb (Str.truthy (errMsgOf req))
    && (negb (Str.truthy (codeOf req))
        || negb (Str.truthy (fst (pkce_complete (stateOf req) (_pkce st))))) in
  (invalid = true → r = invalidCallback ∧ status r = 400)
  ∧ (invalid = false → status r = 200).
Proof.
  intros Hm Hcb. unfold serve, handleRequest.
  rewrite (not_options req Hm), Hcb. unfold callback.
  destruct (Str.truthy (errMsgOf req)); simpl; [done |].
  destruct (pkce_complete (stateOf req) (_pkce st)) as [verifier m]. simpl.
  destruct (negb (Str.truthy (codeOf req)) || negb (Str.truthy verifier));
    simpl; [done |].
  split; [done | intros _].
  unfold callback_resume.
  destruct (exchange w _ _) as [[result |] | msg]; simpl; try done.
  by destruct (Str.truthy (access_token result)).
Qed.

(** When the callback reports an error, no exchange is started and the
    state, the PKCE map included, is left as it was. *)
Lemma callback_error_untouched st t ns nv req :
  method req ≠ "OPTIONS" →
  isCallback req = true →
  Str.truthy (errMsgOf req) = true →
  handle st t ns nv req
  = (st, Respond (html 200 "Authorization failed"
                    (default "" (errMsgOf req)) true)).
Proof.
  intros Hm Hcb He. unfold handleRequest.
  rewrite (not_options req Hm), Hcb. unfold callback. by rewrite He.
Qed.

(** *** The reverse proxy *)

Definition forwardedHeaders (req : request) : list (string * string) :=
  [ ("Authorization", default "" (headers req !! "authorization"));
    ("Content-Type", "application/json");
    ("Accept", "application/json") ].

Lemma handle_proxy st t ns nv req :
  method req ≠ "OPTIONS" →
  Str.startsWith (pathname req) "/api/edo" = true →
  handle st t ns nv req = (st, proxy EDO_API_BASE parseURL req).
Proof.
  intros Hm Hp. unfold handleRequest, isCallback.
  destruct (prefix_not_root _ Hp) as (-> & -> & ->).
  by rewrite (not_options req Hm), Hp.
Qed.

(** [req] is under the path prefix: its path is [/api/edo] itself or
    goes on below it. *)
Definition underPrefix (req : request) : Prop :=
  pathname req = "/api/edo"
  ∨ Str.startsWith (pathname req) "/api/edo/" = true.

(** What the proxy takes from the URL parser: the configured base is an
    address with the host of [base], and a path that begins with a slash,
    appended to it, gives an address of the same host. *)
Definition extendsBase (base : url) : Prop :=
  parseURL EDO_API_BASE = Some base
  ∧ ∀ p, Str.startsWith p "/" = true →
      ∃ u, parseURL (EDO_API_BASE +:+ p) = Some u
        ∧ hostname u = hostname base.

Lemma forwardPath_slash req :
  underPrefix req →
  Str.startsWith (pathname req) "/api/edo" = true
  ∧ Str.startsWith (forwardPath req +:+ default "" (search req)) "/" = true.
Proof.
  unfold forwardPath. intros [-> | H]; [done |].
  apply PathFacts.startsWith_app in H as [r ->]. split; reflexivity.
Qed.

(** C3, as amended. A request under the prefix [/api/edo] other than an
    OPTIONS request is sent to the upstream host, the host of the
    configured base address, with the caller's [Authorization] value as
    it came (the empty string when there is none); the status and the
    body of the upstream response are relayed as they are, and so is its
    content type ([application/json] stands in when it has none). *)
Theorem proxy_relays w st req base :
  method req ≠ "OPTIONS" →
  underPrefix req →
  extendsBase base →
  ∃ u, handle st (now w) (newState w) (newVerifier w) req = (st, ProxyTo u)
    ∧ upHost u = hostname base
    ∧ upMethod u = method req
    ∧ Query.get "Authorization" (upHeaders u)
      = Some (default "" (headers req !! "authorization"))
    ∧ (∀ a, headers req !! "authorization" = Some a →
            Query.get "Authorization" (upHeaders u) = Some a)
    ∧ ∀ proxyRes, upstream w u = inl proxyRes →
        ∃ r, serving w st req = (st, r)
          ∧ status r = statusCode proxyRes
          ∧ respBody r = Data (upstreamBody proxyRes)
          ∧ (∀ c, contentType proxyRes = Some c →
                  Query.get "Content-Type" (respHeaders r) = Some c)
          ∧ (contentType proxyRes = None →
             Query.get "Content-Type" (respHeaders r)
             = Some "application/json").
Proof.
  intros Hm Hp [_ Hbase].
  destruct (forwardPath_slash req Hp) as [Hpre Hslash].
  destruct (Hbase _ Hslash) as (target & Hu & Hhost).
  unfold serve.
  rewrite (handle_proxy st _ _ _ req Hm Hpre). unfold proxy.
  rewrite Hu.
  eexists. split; [reflexivity |]. simpl.
  split; [done |]. split; [done |]. split; [done |].
  split; [by intros a -> |].
  intros proxyRes ->. eexists. split; [reflexivity |]. simpl.
  split; [done |]. split; [done |].
  split; [by intros c -> | by intros ->].
Qed.

(** the request with one more header, or with another value for it *)
Definition withHeader (h v : string) (req : request) : request :=
  {| method := method req; pathname := pathname req; search := search req;
     headers := <[h := v]> (headers req); reqBody := reqBody req |}.

Lemma handle_ignores_header st t ns nv req h v :
  h ≠ "authorization" →
  handle st t ns nv (withHeader h v req) = handle st t ns nv req.
Proof.
  intros Hh.
  unfold handleRequest, isCallback, callback, codeOf, stateOf, errMsgOf,
    paramsOf, proxy, forwardPath, static, filePathOf, withHeader.
  cbn [method pathname search headers reqBody].
  by rewrite lookup_insert_ne.
Qed.

(** the names of the headers that the HTTP client adds *)
Definition clientNames : list string :=
  ["Host"; "Connection"; "Content-Length"; "Transfer-Encoding"].

Lemma proxy_options st t ns nv req u :
  snd (handle st t ns nv req) = ProxyTo u →
  upHeaders u = forwardedHeaders req.
Proof.
  unfold handleRequest.
  destruct (String.eqb (method req) "OPTIONS"); simpl; [done |].
  destruct (isCallback req).
  { unfold callback. repeat (case_match; simpl; try done). }
  destruct (String.eqb (pathname req) "/oauth/start"); simpl; [done |].
  destruct (String.eqb (pathname req) "/api/dev-auth/status"); simpl; [done |].
  destruct (Str.startsWith (pathname req) "/api/edo"); simpl.
  - unfold proxy. destruct (parseURL _) as [target |]; [| done].
    by intros [= <-].
  - intros H. destruct (static_cases req) as [Hf | [f Hf]];
      rewrite Hf in H; done.
Qed.

(** C10, as amended. Of the caller's headers only [Authorization]
    reaches upstream: the proxy sets three headers on the upstream
    request, the caller's [Authorization] value (the empty string
    without one) and [Content-Type] and [Accept], both
    [application/json], and no other header of the caller has any
    influence on what is sent.  Besides the three, upstream receives
    what the HTTP client adds on its own: [Host], which names the
    upstream address, [Connection], and for a body [Content-Length] or
    [Transfer-Encoding]. *)
Theorem proxy_headers st t ns nv req u keepAlive :
  snd (handle st t ns nv req) = ProxyTo u →
  (∃ own, wire keepAlive u
          = [ ("Authorization", default "" (headers req !! "authorization"));
              ("Content-Type", "application/json");
              ("Accept", "application/json") ] ++ own
        ∧ Forall (λ h, fst h ∈ clientNames) own
        ∧ Query.get "Host" own = Some (hostHeader u))
  ∧ ∀ h v, h ≠ "authorization" →
      handle st t ns nv (withHeader h v req) = handle st t ns nv req.
Proof.
  intros H. split; [| intros h v; apply handle_ignores_header].
  exists (clientHeaders keepAlive u). unfold wire.
  rewrite (proxy_options _ _ _ _ _ _ H). split; [done |].
  split; [| done].
  unfold clientHeaders, framing, clientNames.
  destruct (chunkedByDefault (upMethod u)); [destruct (upBody u) as [[| ? ?] |] |];
    repeat constructor; set_solver.
Qed.

(** *** Static files *)

(** none of the routes before the static handler takes the request *)
Definition fallsThrough (req : request) : Prop :=
  method req ≠ "OPTIONS"
  ∧ isCallback req = false
  ∧ pathname req ≠ "/oauth/start"
  ∧ pathname req ≠ "/api/dev-auth/status"
  ∧ Str.startsWith (pathname req) "/api/edo" = false.

Lemma handle_static st t ns nv req :
  fallsThrough req → handle st t ns nv req = (st, static dirname req).
Proof.
  intros (Hm & Hcb & Hs & Ha & Hp). unfold handleRequest.
  rewrite (not_options req Hm), Hcb, Hp.
  destruct (String.eqb_spec (pathname req) "/oauth/start"); [done |].
  by destruct (String.eqb_spec (pathname req) "/api/dev-auth/status").
Qed.

(** C8. A request that reaches the static file handler and whose file
    path, as [path.join] resolves it, is not inside the server's
    directory is answered 403; no file is read, so the answer is the
    same whatever the file system holds. *)
Theorem static_traversal_forbidden w st req :
  fallsThrough req →
  PathFacts.inside dirname (filePathOf dirname req) = false →
  handle st (now w) (newState w) (newVerifier w) req
  = (st, Respond (reply 403 [] (Text "Forbidden")))
  ∧ serving w st req = (st, reply 403 [] (Text "Forbidden"))
  ∧ ∀ f, static dirname req ≠ ReadFile f.
Proof.
  intros Hf Hout.
  assert (static dirname req = Respond (reply 403 [] (Text "Forbidden")))
    as Hs.
  { unfold static.
    destruct (Str.startsWith (filePathOf dirname req) (dirname +:+ "/")
              || String.eqb (filePathOf dirname req) dirname) eqn:Hg.
    - apply PathFacts.guard_inside in Hg. congruence.
    - apply orb_false_elim in Hg as [-> ->]. done. }
  unfold serve. rewrite (handle_static st _ _ _ req Hf), Hs.
  repeat split. intros f. discriminate.
Qed.

(** Conversely, a file the static handler reads is inside the directory;
    its path is normalized when the directory is an absolute path. *)
Lemma static_reads_inside req f :
  static dirname req = ReadFile f →
  f = filePathOf dirname req
  ∧ PathFacts.inside dirname f = true
  ∧ (Path.isAbsolute dirname = true →
     Forall PathFacts.plain (Path.segments f)).
Proof.
  unfold static.
  destruct (Str.startsWith (filePathOf dirname req) (dirname +:+ "/")
            || String.eqb (filePathOf dirname req) dirname) eqn:Hg.
  - apply PathFacts.guard_inside in Hg. intros H.
    assert (f = filePathOf dirname req) as ->.
    { by repeat case_match; simplify_eq. }
    split; [done |]. split; [done |].
    intros Habs. by apply PathFacts.join_plain.
  - apply orb_false_elim in Hg as [-> ->]. done.
Qed.

(** *** The PKCE map in the handlers *)

(** [/oauth/start] stores the pair *)
Lemma start_stores st t ns nv req :
  method req ≠ "OPTIONS" →
  pathname req = "/oauth/start" →
  _pkce (fst (handle st t ns nv req)) = pkce_begin ns nv (_pkce st).
Proof.
  intros Hm Hp. unfold handleRequest, isCallback.
  by rewrite (not_options req Hm), Hp.
Qed.

(** a callback without an error looks the state up and removes it; with a
    code and a stored verifier it goes on to the exchange with that
    verifier, otherwise it ends on the invalid page *)
Lemma callback_consumes st t ns nv req :
  method req ≠ "OPTIONS" →
  isCallback req = true →
  Str.truthy (errMsgOf req) = false →
  let '(verifier, m) := pkce_complete (stateOf req) (_pkce st) in
  _pkce (fst (handle st t ns nv req)) = m
  ∧ (∀ c v, codeOf req = Some c → c ≠ "" → verifier = Some v → v ≠ "" →
            snd (handle st t ns nv req) = AwaitExchange c v)
  ∧ (verifier = None → snd (handle st t ns nv req) = Respond invalidCallback).
Proof.
  intros Hm Hcb He. unfold handleRequest.
  rewrite (not_options req Hm), Hcb. unfold callback. rewrite He.
  destruct (pkce_complete (stateOf req) (_pkce st)) as [verifier m].
  split; [| split].
  - by case_match.
  - intros c v -> Hc -> Hv.
    by rewrite !truthy_nonempty by done.
  - intros ->. simpl. by rewrite orb_true_r.
Qed.

End Facts.

(** *** The handler on concrete requests *)

Abbreviation demoHandle :=
  (handleRequest "/srv/app" "https://api.example" "3001" demoURL (λ v, v)).
Abbreviation demoServe :=
  (serve "/srv/app" "https://api.example" "3001" demoURL (λ v, v)).

Definition idle : state :=
  {| _token := None; _tokenExpiry := Some 0; _pkce := ∅; cacheFile := None |}.

(** the state after [/oauth/start] has stored the pair [s1], [v1] *)
Definition started : state := fst (demoHandle idle 0 "s1" "v1" (GET "/oauth/start" None)).

Example started_pkce : _pkce started = {[ "s1" := "v1" ]}.
Proof. reflexivity. Qed.

Example callback_exchange :
  demoHandle started 0 "s2" "v2" (GET "/" (Some "?code=abc&state=s1"))
  = (idle, AwaitExchange "abc" "v1").
Proof. vm_compute. reflexivity. Qed.

(** a second look-up of the same state finds nothing: the callback page
    is the invalid one *)
Example callback_replayed :
  demoHandle idle 0 "s2" "v2" (GET "/" (Some "?code=abc&state=s1"))
  = (idle, Respond invalidCallback).
Proof. vm_compute. reflexivity. Qed.

(** a token cached with an expiry 30 minutes ahead is reported at once *)
Lemma status_ready_iff_valid_witness :
  let st := initial (Some {| c_access_token := Some "tok";
                             c_expires_on := Some 1800 |}) 0 in
  ∃ j, demoHandle st 1000 "s1" "v1" (GET "/api/dev-auth/status" None)
       = (st, Respond (reply 200 [("Content-Type", "application/json")] (Json j)))
    ∧ j = StatusReady "tok".
Proof.
  intros st.
  destruct (status_ready_iff_valid "/srv/app" "https://api.example" "3001"
              demoURL (λ v, v) st 1000 "s1" "v1"
              (GET "/api/dev-auth/status" None))
    as (j & Hj & Hready & _).
  - apply reach_initial.
  - split; [discriminate | reflexivity].
  - exists j. split; [exact Hj |].
    apply Hready. split; [reflexivity |].
    exists 1800000. split; [reflexivity | lia].
Defined.

(** a token 59 seconds from its expiry is not reported *)
Example status_margin :
  let st := {| _token := Some "tok"; _tokenExpiry := Some 60000;
               _pkce := ∅; cacheFile := None |} in
  tokenValid st 1000 = false ∧ tokenValid st 0 = false
  ∧ tokenValid st (-1) = true.
Proof. done. Qed.

(** C3, counterexample. An OPTIONS request under the prefix is answered
    204 by the handler itself; nothing is sent upstream. *)
Lemma proxy_options_not_forwarded :
  let req := {| method := "OPTIONS"; pathname := "/api/edo/buildings";
                search := None;
                headers := {[ "authorization" := "Bearer t" ]};
                reqBody := "" |} in
  Str.startsWith (pathname req) "/api/edo" = true
  ∧ demoHandle idle 0 "s1" "v1" req = (idle, Respond (reply 204 [] NoBody))
  ∧ ¬ ∃ u, snd (demoHandle idle 0 "s1" "v1" req) = ProxyTo u.
Proof.
  intros req. split; [reflexivity |]. split; [reflexivity |].
  intros [u Hu]. vm_compute in Hu. discriminate.
Qed.

Lemma demoURL_extends :
  extendsBase "https://api.example" demoURL
    {| protocol := "https:"; hostname := "api.example"; port := "";
       urlPathname := "/"; urlSearch := "" |}.
Proof.
  split; [reflexivity |].
  intros [| c p] Hp; [done |].
  cbv beta iota delta [Str.startsWith] in Hp.
  apply andb_prop in Hp as [<-%Ascii.eqb_eq _].
  eexists. split; reflexivity.
Defined.

Lemma proxy_relays_witness :
  let req := {| method := "GET"; pathname := "/api/edo/buildings";
                search := None;
                headers := {[ "authorization" := "Bearer t" ]};
                reqBody := "" |} in
  let w := demoWorld 0 in
  ∃ u, demoHandle idle (now w) (newState w) (newVerifier w) req
       = (idle, ProxyTo u)
    ∧ upHost u = "api.example"
    ∧ Query.get "Authorization" (upHeaders u) = Some "Bearer t"
    ∧ ∃ r, demoServe w idle req = (idle, r)
        ∧ status r = 404 ∧ respBody r = Data "gone"
        ∧ Query.get "Content-Type" (respHeaders r) = Some "application/json".
Proof.
  intros req w.
  destruct (proxy_relays "/srv/app" "https://api.example" "3001" demoURL
              (λ v, v) w idle req
              {| protocol := "https:"; hostname := "api.example"; port := "";
                 urlPathname := "/"; urlSearch := "" |})
    as (u & Hu & Hhost & _ & Hauth & _ & Hres).
  - discriminate.
  - right. reflexivity.
  - exact demoURL_extends.
  - exists u. split; [exact Hu |]. split; [exact Hhost |].
    split; [exact Hauth |].
    destruct (Hres {| statusCode := 404; contentType := None;
                      upstreamBody := "gone" |})
      as (r & Hr & Hst & Hb & _ & Hct).
    + revert Hu. vm_compute. intros [= <-]. reflexivity.
    + exists r. split; [exact Hr |]. split; [exact Hst |].
      split; [exact Hb |]. exact (Hct eq_refl).
Defined.

(** C4, counterexample. A callback with a code and a state under which
    nothing is stored is answered with status 400. *)
Lemma callback_unknown_state_400 :
  let req := GET "/" (Some "?code=abc&state=forged") in
  isCallback req = true
  ∧ codeOf req = Some "abc" ∧ stateOf req = Some "forged"
  ∧ status (snd (demoServe (demoWorld 0) started req)) = 400.
Proof. vm_compute. done. Qed.

Lemma callback_status_witness :
  let w := demoWorld 0 in
  (snd (demoServe w started (GET "/" (Some "?code=abc&state=forged")))
   = invalidCallback)
  ∧ status (snd (demoServe w started (GET "/" (Some "?code=abc&state=s1"))))
    = 200.
Proof.
  intros w. split.
  - apply (callback_status "/srv/app" "https://api.example" "3001" demoURL
             (λ v, v) w started (GET "/" (Some "?code=abc&state=forged")));
      [discriminate | reflexivity | reflexivity].
  - apply (callback_status "/srv/app" "https://api.example" "3001" demoURL
             (λ v, v) w started (GET "/" (Some "?code=abc&state=s1")));
      [discriminate | reflexivity | reflexivity].
Defined.

(** C5, on the code. A callback that reports an error for the state [s1]
    is answered with the failure page and no exchange is started, but the
    pair stored under [s1] stays in the map. *)
Theorem callback_error_keeps_entry :
  let req := GET "/" (Some "?code=abc&state=s1&error=access_denied") in
  isCallback req = true
  ∧ stateOf req = Some "s1"
  ∧ _pkce started !! "s1" = Some "v1"
  ∧ demoHandle started 0 "s2" "v2" req
    = (started, Respond (html 200 "Authorization failed" "access_denied" true))
  ∧ _pkce (fst (demoHandle started 0 "s2" "v2" req)) !! "s1" = Some "v1"
  ∧ _pkce (fst (demoServe (demoWorld 0) started req)) !! "s1" = Some "v1".
Proof. vm_compute. done. Qed.

(** the sibling path: the same callback without the error parameter
    removes the pair *)
Example callback_removes_entry :
  _pkce (fst (demoHandle started 0 "s2" "v2" (GET "/" (Some "?code=&state=s1"))))
    !! "s1" = None.
Proof. vm_compute. reflexivity. Qed.

Lemma static_traversal_forbidden_witness :
  let req := GET "/../../etc/passwd" None in
  filePathOf "/srv/app" req = "/etc/passwd"
  ∧ demoServe (demoWorld 0) idle req = (idle, reply 403 [] (Text "Forbidden")).
Proof.
  intros req. split; [reflexivity |].
  apply (static_traversal_forbidden "/srv/app" "https://api.example" "3001"
           demoURL (λ v, v) (demoWorld 0) idle req).
  - repeat split; discriminate.
  - reflexivity.
Defined.

(** a sibling directory whose name begins with the name of the root *)
Example static_sibling_forbidden :
  demoServe (demoWorld 0) idle (GET "/../app-secrets/key" None)
  = (idle, reply 403 [] (Text "Forbidden")).
Proof. vm_compute. reflexivity. Qed.

Example static_index :
  demoHandle idle 0 "s1" "v1" (GET "/" None)
  = (idle, ReadFile "/srv/app/index.html").
Proof. vm_compute. reflexivity. Qed.

Lemma callback_needs_code_witness :
  let req := GET "/" (Some "?error=access_denied&error_description=cancelled&state=s1") in
  demoHandle started 0 "s2" "v2" req = (started, ReadFile "/srv/app/index.html")
  ∧ demoHandle started 0 "s2" "v2"
      (GET "/" (Some ("?" +:+ Query.serialize
                                [("error", "access_denied");
                                 ("error_description", "The user cancelled (code=7)");
                                 ("state", "s1")])))
    = (started, ReadFile "/srv/app/index.html").
Proof.
  intros req. split.
  - destruct (callback_needs_code "/srv/app" "https://api.example" "3001"
                demoURL (λ v, v) started 0 "s2" "v2" req) as (_ & H & _).
    destruct H as (H & _ & _).
    + discriminate.
    + reflexivity.
    + intros s' [= <-]. reflexivity.
    + exact H.
  - destruct (callback_needs_code "/srv/app" "https://api.example" "3001"
                demoURL (λ v, v) started 0 "s2" "v2"
                (GET "/" (Some ("?" +:+ Query.serialize
                                          [("error", "access_denied");
                                           ("error_description",
                                            "The user cancelled (code=7)");
                                           ("state", "s1")]))))
      as (_ & _ & H).
    apply (H [("error", "access_denied");
              ("error_description", "The user cancelled (code=7)");
              ("state", "s1")]).
    + discriminate.
    + reflexivity.
    + reflexivity.
    + repeat constructor; unfold QueryFacts.errorName; simpl; tauto.
Defined.

(** the literal test also takes a request without a code parameter whose
    query happens to contain [code=] *)
Example callback_other_code :
  let req := GET "/" (Some "?error=denied&error_code=7&state=s1") in
  codeOf req = None
  ∧ demoHandle started 0 "s2" "v2" req
    = (started, Respond (html 200 "Authorization failed" "denied" true)).
Proof. vm_compute. done. Qed.

Definition postPoints : request :=
  {| method := "POST"; pathname := "/api/edo/points";
     search := Some "?id=1";
     headers := {[ "authorization" := "Bearer t"; "cookie" := "k=v";
                   "host" := "localhost:3001" ]};
     reqBody := "{}" |}.

(** C10, counterexample. A proxied request reaches upstream with six
    headers, not three: the HTTP client adds [Host], [Connection] and
    [Transfer-Encoding] to the three that the proxy sets. *)
Lemma proxy_host_reaches_upstream :
  ∃ u, snd (demoHandle idle 0 "s1" "v1" postPoints) = ProxyTo u
    ∧ ∀ keepAlive,
        wire keepAlive u
        = [ ("Authorization", "Bearer t");
            ("Content-Type", "application/json");
            ("Accept", "application/json");
            ("Host", "api.example");
            ("Connection", if keepAlive then "keep-alive" else "close");
            ("Transfer-Encoding", "chunked") ]
        ∧ length (wire keepAlive u) ≠ 3%nat.
Proof.
  eexists. split; [reflexivity |]. intros keepAlive. split; [reflexivity |].
  discriminate.
Qed.

Lemma proxy_headers_witness :
  ∃ u, snd (demoHandle idle 0 "s1" "v1" postPoints) = ProxyTo u
    ∧ (∃ own, wire true u
              = [ ("Authorization", "Bearer t");
                  ("Content-Type", "application/json");
                  ("Accept", "application/json") ] ++ own
            ∧ Query.get "Host" own = Some "api.example")
    ∧ demoHandle idle 0 "s1" "v1" (withHeader "cookie" "other" postPoints)
      = demoHandle idle 0 "s1" "v1" postPoints.
Proof.
  eexists. split; [reflexivity |].
  destruct (proxy_headers "/srv/app" "https://api.example" "3001" demoURL
              (λ v, v) idle 0 "s1" "v1" postPoints _ true eq_refl)
    as [(own & Hw & _ & Hh) Hother].
  split.
  - exists own. split; [exact Hw | exact Hh].
  - apply Hother. discriminate.
Defined.

End ProxyFacts.

(** ** The browser SDK *)

Module SdkFacts.
Import Sdk.

(** *** Pasting a token *)

Definition allWhite (s : jsstring) : Prop := Forall (λ c, isWhiteSpace c = true) s.

(** the first code unit is there and is not white space *)
Definition solidStart (s : jsstring) : Prop :=
  ∃ c r, s = c :: r ∧ isWhiteSpace c = false.

(** a non-empty string with no white space at either end *)
Definition solid (s : jsstring) : Prop := solidStart s ∧ solidStart (rev s).

(** the word [Bearer] in any mix of cases *)
Definition bearerWord (p : jsstring) : Prop :=
  map canonicalize p = lit "BEARER".

(** [s] does not begin with the word and a white space *)
Definition noBearer (s : jsstring) : Prop :=
  ∀ p c r, s = p ++ c :: r → bearerWord p → isWhiteSpace c = false.

Lemma trimStart_white (ws s : jsstring) :
  allWhite ws → trimStart (ws ++ s) = trimStart s.
Proof.
  induction 1 as [| c ws Hc _ IH]; [done |]. simpl. by rewrite Hc.
Qed.

Lemma trimStart_solid (s : jsstring) : solidStart s → trimStart s = s.
Proof. intros (c & r & -> & Hc). simpl. by rewrite Hc. Qed.

Lemma trimStart_nil (s : jsstring) : trimStart s = [] ↔ allWhite s.
Proof.
  split.
  - induction s as [| c s IH]; [constructor |]. simpl.
    destruct (isWhiteSpace c) eqn:Hc; [| done].
    intros H. constructor; [done | by apply IH].
  - intros H. rewrite <- (app_nil_r s). by rewrite trimStart_white.
Qed.

Lemma trimStart_head (s : jsstring) :
  trimStart s = [] ∨ solidStart (trimStart s).
Proof.
  induction s as [| c s IH]; [by left |]. simpl.
  destruct (isWhiteSpace c) eqn:Hc; [done |]. right. by exists c, s.
Qed.

Lemma allWhite_rev (s : jsstring) : allWhite s → allWhite (rev s).
Proof. apply List.Forall_rev. Qed.

Lemma trimEnd_white (s ws : jsstring) :
  allWhite ws → trimEnd (s ++ ws) = trimEnd s.
Proof.
  intros H. unfold trimEnd. rewrite rev_app_distr.
  by rewrite trimStart_white by by apply allWhite_rev.
Qed.

Lemma trimEnd_solid (s : jsstring) : solidStart (rev s) → trimEnd s = s.
Proof.
  intros H. unfold trimEnd. rewrite trimStart_solid by done. apply rev_involutive.
Qed.

Lemma solidStart_app (s r : jsstring) : solidStart s → solidStart (s ++ r).
Proof. intros (c & r' & -> & Hc). by exists c, (r' ++ r). Qed.

(** what [trim] leaves of a solid string wrapped in white space *)
Lemma trim_wrapped (ws1 core ws2 : jsstring) :
  allWhite ws1 → allWhite ws2 → solid core →
  trim (ws1 ++ core ++ ws2) = core.
Proof.
  intros H1 H2 [Hs He]. unfold trim.
  rewrite trimStart_white by done.
  rewrite trimStart_solid by by apply solidStart_app.
  rewrite trimEnd_white by done. by apply trimEnd_solid.
Qed.

Lemma trim_nil (s : jsstring) : trim s = [] ↔ allWhite s.
Proof.
  unfold trim, trimEnd. split.
  - intros H. apply trimStart_nil.
    destruct (trimStart_head s) as [H0 | (c & r & Hcr & Hc)]; [done |].
    rewrite Hcr in *. simpl in H.
    assert (trimStart (rev r ++ [c]) = []) as H'.
    { rewrite <- (rev_involutive (trimStart _)). by rewrite H. }
    apply trimStart_nil in H'. apply Forall_app in H' as [_ H'].
    inversion H'; congruence.
  - intros H. apply trimStart_nil in H. by rewrite H.
Qed.

(** a trimmed string does not end in white space *)
Lemma trim_end (s : jsstring) : trim s = [] ∨ solidStart (rev (trim s)).
Proof.
  unfold trim, trimEnd. rewrite rev_involutive.
  destruct (trimStart_head (rev (trimStart s))) as [-> | H]; [by left | by right].
Qed.

Lemma match_word (pat p r : jsstring) :
  map canonicalize p = map canonicalize pat →
  matchIgnoreCase pat (p ++ r) = Some r.
Proof.
  revert p. induction pat as [| a pat IH]; intros [| c p] H; simpl in *;
    try done.
  injection H as Hc Hp. rewrite Hc, N.eqb_refl. by apply IH.
Qed.

Lemma match_inv (pat s r : jsstring) :
  matchIgnoreCase pat s = Some r →
  ∃ p, s = p ++ r ∧ map canonicalize p = map canonicalize pat.
Proof.
  revert s. induction pat as [| a pat IH]; intros s H; simpl in *.
  - injection H as ->. by exists [].
  - destruct s as [| c s]; [done |].
    destruct (N.eqb_spec (canonicalize a) (canonicalize c)) as [Hc |]; [| done].
    destruct (IH s H) as (p & -> & Hp). exists (c :: p). simpl.
    by rewrite Hp, Hc.
Qed.

Lemma bearerWord_canon (p : jsstring) :
  bearerWord p ↔ map canonicalize p = map canonicalize (lit "Bearer").
Proof. done. Qed.

Lemma stripBearer_prefixed (p ws core : jsstring) :
  bearerWord p → ws ≠ [] → allWhite ws → solidStart core →
  stripBearer (p ++ ws ++ core) = core.
Proof.
  intros Hp Hne Hws Hcore. unfold stripBearer.
  rewrite match_word by by apply bearerWord_canon.
  destruct ws as [| c ws]; [done |]. inversion Hws as [| ? ? Hc Hws']; subst.
  simpl. rewrite Hc, trimStart_white by done. by apply trimStart_solid.
Qed.

Lemma stripBearer_plain (s : jsstring) : noBearer s → stripBearer s = s.
Proof.
  intros H. unfold stripBearer.
  destruct (matchIgnoreCase (lit "Bearer") s) as [[| c r] |] eqn:Hm; try done.
  apply match_inv in Hm as (p & -> & Hp).
  by rewrite (H p c r eq_refl Hp).
Qed.

Lemma stripBearer_trim_nil (value : jsstring) :
  stripBearer (trim value) = [] ↔ allWhite value.
Proof.
  split.
  - intros H. apply trim_nil. unfold stripBearer in H.
    destruct (matchIgnoreCase (lit "Bearer") (trim value))
      as [[| c r] |] eqn:Hm; try done.
    destruct (isWhiteSpace c) eqn:Hc; [| done].
    apply trimStart_nil in H. apply match_inv in Hm as (p & Heq & Hp).
    exfalso. destruct (trim_end value) as [H0 | (d & t & Hd & Hdw)].
    + rewrite H0 in Heq. by destruct p.
    + rewrite Heq in Hd. rewrite rev_app_distr in Hd. simpl in Hd.
      assert (allWhite (rev r ++ [c])) as Hw.
      { apply Forall_app. split; [by apply allWhite_rev | by constructor]. }
      destruct (rev r ++ [c]) as [| x xs] eqn:Hx.
      * by destruct (rev r).
      * simpl in Hd. injection Hd as -> _. inversion Hw; congruence.
  - intros H. apply trim_nil in H. by rewrite H.
Qed.

(** C7. The pasted value is trimmed and a leading [Bearer], in any mix of
    cases, is dropped together with the white space after it: a value
    made of white space, the word, white space, a solid token and white
    space yields the token; without the word, the token is what the white
    space surrounds. What is left is empty exactly when the value is all
    white space; then nothing changes: the overlay stays, no token is
    taken and readiness is not resolved. *)
Theorem paste_token (proxyUrl : jsstring) (st : state) :
  (∀ ws1 p ws core ws2,
      allWhite ws1 → bearerWord p → ws ≠ [] → allWhite ws → solid core →
      allWhite ws2 →
      connectWithToken proxyUrl (ws1 ++ (p ++ ws ++ core) ++ ws2) st
      = finishConnect proxyUrl core st)
  ∧ (∀ ws1 core ws2,
        allWhite ws1 → solid core → noBearer core → allWhite ws2 →
        connectWithToken proxyUrl (ws1 ++ core ++ ws2) st
        = finishConnect proxyUrl core st)
  ∧ (∀ value, stripBearer (trim value) = [] ↔ allWhite value)
  ∧ (∀ value, stripBearer (trim value) = [] →
              connectWithToken proxyUrl value st = st).
Proof.
  split; [| split; [| split]].
  - intros ws1 p ws core ws2 H1 Hp Hne Hws [Hs He] H2.
    unfold connectWithToken.
    assert (solid (p ++ ws ++ core)) as Hsolid.
    { split.
      - apply solidStart_app.
        destruct p as [| c p]; [done |]. exists c, p. split; [done |].
        injection Hp as Hc _. unfold canonicalize in Hc.
        destruct ((97 <=? c)%N && (c <=? 122)%N) eqn:Hr.
        + assert (c = 98%N) as -> by lia. done.
        + subst c. done.
      - rewrite !rev_app_distr, <- app_assoc. by apply solidStart_app. }
    rewrite trim_wrapped, stripBearer_prefixed by (done || apply Hs).
    destruct Hs as (c & r & -> & _). done.
  - intros ws1 core ws2 H1 [Hs He] Hn H2. unfold connectWithToken.
    rewrite trim_wrapped, stripBearer_plain by done.
    destruct Hs as (c & r & -> & _). done.
  - apply stripBearer_trim_nil.
  - intros value H. unfold connectWithToken. by rewrite H.
Qed.

Definition overlayShown : state :=
  {| _token := None; _proxyBase := None; resolved := false; overlay := true;
     _poll := false; sessionToken := None; sessionProxy := None |}.

Lemma paste_token_witness :
  connectWithToken (lit "http://localhost:3001") (lit "  bEaRer   abc.def  ")
    overlayShown
  = finishConnect (lit "http://localhost:3001") (lit "abc.def") overlayShown
  ∧ connectWithToken (lit "http://localhost:3001") (lit "bearertoken ")
      overlayShown
    = finishConnect (lit "http://localhost:3001") (lit "bearertoken")
        overlayShown
  ∧ connectWithToken (lit "http://localhost:3001") [0x20; 0x9; 0xA0; 0x3000]%N
      overlayShown
    = overlayShown.
Proof.
  pose proof (paste_token (lit "http://localhost:3001") overlayShown)
    as (Hword & Hplain & Hnil & Hreject).
  split; [| split].
  - apply (Hword (lit "  ") (lit "bEaRer") (lit "   ") (lit "abc.def") (lit "  ")).
    + repeat constructor.
    + reflexivity.
    + discriminate.
    + repeat constructor.
    + split; eexists _, _; split; reflexivity.
    + repeat constructor.
  - apply (Hplain [] (lit "bearertoken") (lit " ")).
    + constructor.
    + split; eexists _, _; split; reflexivity.
    + intros p c r Heq Hp.
      assert (length p = 6%nat) as Hlen.
      { rewrite <- (length_map canonicalize), Hp. reflexivity. }
      do 7 (destruct p as [| ? p]; try discriminate Hlen).
      injection Heq as <- <- <- <- <- <- <- _. reflexivity.
    + repeat constructor.
  - apply Hreject. apply Hnil. repeat constructor.
Defined.

(** the word alone is not a prefix: it is taken as the token *)
Example paste_word_alone :
  connectWithToken (lit "p") (lit "Bearer  ") overlayShown
  = finishConnect (lit "p") (lit "Bearer") overlayShown.
Proof. reflexivity. Qed.

(** *** The query of [get] *)

(** the values the query holds under the name [k], in order *)
Definition valuesOf (k : jsstring) (q : params) : list jsstring :=
  map snd (List.filter (named k) q).

(** the name an entry goes by in the query *)
Definition nameOf (kv : jsstring * jsval) : jsstring := usv (fst kv).

(** the text an element or a scalar goes by in the query *)
Definition textOf (v : jsval) : jsstring := usv (toString v).

(** what an entry of the parameter object stands for: a pair for each
    element of a list in the order of the list, nothing for [undefined]
    and [null], one pair for any other value *)
Definition pairsOf (kv : jsstring * jsval) : params :=
  match snd kv with
  | Arr xs => map (λ x, (nameOf kv, x)) (map textOf xs)
  | Undefined | Null => []
  | v => [(nameOf kv, textOf v)]
  end.

Lemma named_spec (k : jsstring) (p : jsstring * jsstring) :
  named k p = true ↔ fst p = k.
Proof. unfold named. by rewrite bool_decide_eq_true. Qed.

Lemma valuesOf_app (k : jsstring) (q1 q2 : params) :
  valuesOf k (q1 ++ q2) = valuesOf k q1 ++ valuesOf k q2.
Proof. unfold valuesOf. by rewrite List.filter_app, map_app. Qed.

Lemma valuesOf_same (k : jsstring) (vs : list jsstring) :
  valuesOf k (map (λ x, (k, x)) vs) = vs.
Proof.
  unfold valuesOf. induction vs as [| v vs IH]; [done |]. simpl.
  unfold named at 1. simpl. rewrite bool_decide_eq_true_2 by done.
  simpl. by rewrite IH.
Qed.

Lemma valuesOf_other (k k' : jsstring) (vs : list jsstring) :
  k ≠ k' → valuesOf k (map (λ x, (k', x)) vs) = [].
Proof.
  intros Hne. unfold valuesOf. induction vs as [| v vs IH]; [done |]. simpl.
  unfold named at 1. simpl. by rewrite bool_decide_eq_false_2.
Qed.

Lemma fold_append (k : jsstring) (xs : list jsval) (q : params) :
  fold_left (λ q' x, append k (usv (toString x)) q') xs q
  = q ++ map (λ x, (k, x)) (map textOf xs).
Proof.
  revert q. induction xs as [| x xs IH]; intros q; simpl.
  - by rewrite app_nil_r.
  - rewrite IH. unfold append. by rewrite <- app_assoc.
Qed.

Lemma valuesOf_removed (k : jsstring) (q : params) :
  valuesOf k (List.filter (λ x, negb (named k x)) q) = [].
Proof.
  unfold valuesOf. induction q as [| p q IH]; [done |]. simpl.
  destruct (named k p) eqn:Hp; simpl; [done |]. by rewrite Hp.
Qed.

Lemma valuesOf_kept (k k' : jsstring) (q : params) :
  k ≠ k' →
  valuesOf k (List.filter (λ x, negb (named k' x)) q) = valuesOf k q.
Proof.
  intros Hne. unfold valuesOf. induction q as [| p q IH]; [done |]. simpl.
  destruct (named k' p) eqn:Hp'; simpl.
  - apply named_spec in Hp'.
    assert (named k p = false) as ->; [| done].
    apply bool_decide_eq_false_2. congruence.
  - destruct (named k p); simpl; by rewrite IH.
Qed.

Lemma valuesOf_set_same (k v : jsstring) (q : params) :
  valuesOf k (set k v q) = [v].
Proof.
  induction q as [| p q IH]; simpl.
  - unfold valuesOf. simpl. unfold named. simpl.
    by rewrite bool_decide_eq_true_2.
  - destruct (named k p) eqn:Hp.
    + change (valuesOf k ([(fst p, v)] ++ List.filter (λ x, negb (named k x)) q)
              = [v]).
      rewrite valuesOf_app, valuesOf_removed. unfold valuesOf. simpl.
      apply named_spec in Hp. unfold named. simpl.
      by rewrite bool_decide_eq_true_2.
    + change (valuesOf k ([p] ++ set k v q) = [v]).
      rewrite valuesOf_app, IH. unfold valuesOf. simpl. by rewrite Hp.
Qed.

Lemma valuesOf_set_other (k k' v : jsstring) (q : params) :
  k ≠ k' → valuesOf k (set k' v q) = valuesOf k q.
Proof.
  intros Hne. induction q as [| p q IH]; simpl.
  - unfold valuesOf. simpl. unfold named. simpl.
    by rewrite bool_decide_eq_false_2.
  - destruct (named k' p) eqn:Hp'.
    + apply named_spec in Hp'.
      change (valuesOf k ([(fst p, v)] ++ List.filter (λ x, negb (named k' x)) q)
              = valuesOf k ([p] ++ q)).
      rewrite !valuesOf_app, valuesOf_kept by done. f_equal.
      unfold valuesOf. simpl. unfold named. simpl.
      by rewrite !bool_decide_eq_false_2 by congruence.
    + change (valuesOf k ([p] ++ set k' v q) = valuesOf k ([p] ++ q)).
      by rewrite !valuesOf_app, IH.
Qed.

(** an entry changes the values under its own name only *)
Lemma addParam_other (k : jsstring) (q : params) (kv : jsstring * jsval) :
  k ≠ nameOf kv → valuesOf k (addParam q kv) = valuesOf k q.
Proof.
  destruct kv as [k' v]. unfold nameOf. simpl. intros Hne.
  destruct v; simpl; try done; try by apply valuesOf_set_other.
  rewrite fold_append, valuesOf_app, valuesOf_other by done.
  apply app_nil_r.
Qed.

Lemma addParam_same (k : jsstring) (v : jsval) (q : params) :
  valuesOf (usv k) (addParam q (k, v))
  = match v with
    | Arr xs => valuesOf (usv k) q ++ map textOf xs
    | Undefined | Null => valuesOf (usv k) q
    | _ => [textOf v]
    end.
Proof.
  destruct v; simpl; try done; try apply valuesOf_set_same.
  rewrite fold_append, valuesOf_app. f_equal. apply valuesOf_same.
Qed.

Lemma fold_other (k : jsstring) (entries : list (jsstring * jsval)) (q : params) :
  k ∉ map nameOf entries →
  valuesOf k (fold_left addParam entries q) = valuesOf k q.
Proof.
  revert q. induction entries as [| kv entries IH]; intros q Hk; [done |].
  simpl in *. apply not_elem_of_cons in Hk as [Hne Hk].
  rewrite IH by done. by apply addParam_other.
Qed.

(** [set] on a name the query does not hold appends the pair *)
Lemma set_fresh (k v : jsstring) (q : params) :
  k ∉ map fst q → set k v q = q ++ [(k, v)].
Proof.
  induction q as [| p q IH]; intros Hk; [done |]. simpl in *.
  apply not_elem_of_cons in Hk as [Hne Hk].
  assert (named k p = false) as ->.
  { apply bool_decide_eq_false_2. congruence. }
  by rewrite IH.
Qed.

Lemma addParam_fresh (q : params) (kv : jsstring * jsval) :
  nameOf kv ∉ map fst q → addParam q kv = q ++ pairsOf kv.
Proof.
  destruct kv as [k v]. unfold pairsOf, nameOf. simpl. intros Hk.
  destruct v; simpl; try (by rewrite app_nil_r); try by apply set_fresh.
  apply fold_append.
Qed.

Lemma pairsOf_names (kv : jsstring * jsval) :
  Forall (λ p, fst p = nameOf kv) (pairsOf kv).
Proof.
  destruct kv as [k v]. unfold pairsOf. simpl.
  destruct v; simpl; try by repeat constructor.
  induction (map textOf l); by constructor.
Qed.

(** Starting from an empty query, entries with distinct names are laid
    out one after the other. *)
Lemma fold_fresh (entries : list (jsstring * jsval)) (q : params) :
  NoDup (map nameOf entries) →
  (∀ k, k ∈ map fst q → k ∉ map nameOf entries) →
  fold_left addParam entries q = q ++ flat_map pairsOf entries.
Proof.
  revert q. induction entries as [| kv entries IH]; intros q Hnd Hq; simpl.
  - by rewrite app_nil_r.
  - simpl in Hnd. apply NoDup_cons in Hnd as [Hkv Hnd].
    rewrite addParam_fresh.
    + rewrite IH; [by rewrite <- app_assoc | done |].
      intros k Hk. rewrite map_app in Hk. apply elem_of_app in Hk as [Hk | Hk].
      * specialize (Hq k Hk). simpl in Hq. by apply not_elem_of_cons in Hq as [_ ?].
      * assert (k = nameOf kv) as ->; [| done].
        pose proof (pairsOf_names kv) as Hn.
        apply list_elem_of_fmap in Hk as (p & -> & Hp).
        by apply (proj1 (Forall_forall _ _) Hn).
    + intros Hk. specialize (Hq _ Hk). simpl in Hq.
      apply not_elem_of_cons in Hq as [? _]. done.
Qed.

Definition ready : state :=
  finishConnect (lit "http://localhost:3001") (lit "tok") overlayShown.

End SdkFacts.

(** * Further properties *)

(** ** The query string codec *)

Module QueryCodec.
Import PathFacts QueryFacts.

(** the characters the serializer writes inside a name or a value *)
Definition safeChar (c : ascii) : bool :=
  Query.unreserved c || Ascii.eqb c "+" || Ascii.eqb c "%".

(** what the serializer writes for one byte *)
Definition encodeByte (c : ascii) : string := Query.encode (String c "").

Lemma encode_cons (c : ascii) (s : string) :
  Query.encode (String c s) = encodeByte c +:+ Query.encode s.
Proof.
  unfold encodeByte. simpl.
  destruct (Query.unreserved c); [done |].
  by destruct (Ascii.eqb c " ").
Qed.

Lemma decode_encodeByte (c : ascii) (t : string) :
  Query.decode (encodeByte c +:+ t) = String c (Query.decode t).
Proof.
  unfold Query.decode.
  destruct c as [[] [] [] [] [] [] [] []]; reflexivity.
Qed.

Lemma decode_encode (s : string) : Query.decode (Query.encode s) = s.
Proof.
  induction s as [| c s IH]; [done |].
  by rewrite encode_cons, decode_encodeByte, IH.
Qed.

Lemma safe_encodeByte (c : ascii) :
  Forall (λ x, safeChar x = true) (chars (encodeByte c)).
Proof.
  destruct c as [[] [] [] [] [] [] [] []]; repeat constructor.
Qed.

(** Every character the serializer writes for a name or a value is a
    letter, a digit or one of [* - . _ + %]. *)
Lemma encode_safe (s : string) :
  Forall (λ x, safeChar x = true) (chars (Query.encode s)).
Proof.
  induction s as [| c s IH]; [constructor |].
  rewrite encode_cons, chars_app. apply Forall_app. split; [| done].
  apply safe_encodeByte.
Qed.

Lemma encode_free (c : ascii) (s : string) :
  safeChar c = false → c ∉ chars (Query.encode s).
Proof.
  intros Hc Hin. pose proof (encode_safe s) as Hs.
  rewrite Forall_forall in Hs. specialize (Hs c Hin). congruence.
Qed.

Lemma cut_app (c : ascii) (a b : string) :
  c ∉ chars a → Str.cut c (a +:+ String c b) = (a, Some b).
Proof.
  induction a as [| d a IH]; intros Ha.
  - rewrite append_nil. simpl. by rewrite Ascii.eqb_refl.
  - rewrite append_cons. simpl in *.
    apply not_elem_of_cons in Ha as [Hd Ha].
    destruct (Ascii.eqb_spec d c) as [-> | _]; [done |]. by rewrite IH.
Qed.

Definition piece (p : string * string) : string :=
  Query.encode (fst p) +:+ "=" +:+ Query.encode (snd p).

Lemma piece_free (p : string * string) : "&"%char ∉ chars (piece p).
Proof.
  unfold piece. rewrite !chars_app. simpl.
  intros [H | [H | H]%elem_of_cons]%elem_of_app.
  - by apply encode_free in H.
  - done.
  - by apply encode_free in H.
Qed.

Lemma piece_nonempty (p : string * string) : Str.nonempty (piece p) = true.
Proof.
  unfold piece. destruct (Query.encode (fst p)); [done |]. by rewrite append_cons.
Qed.

Lemma parse_piece (p : string * string) : Query.parse_pair (piece p) = p.
Proof.
  unfold Query.parse_pair, piece.
  change ("=" +:+ Query.encode (snd p)) with (String "=" (Query.encode (snd p))).
  rewrite cut_app by by apply encode_free.
  simpl. rewrite !decode_encode. by destruct p.
Qed.

Lemma split_pieces (ps : list (string * string)) :
  ps ≠ [] → Str.split "&" (Str.join "&" (map piece ps)) = map piece ps.
Proof.
  induction ps as [| p ps IH]; [done |]. intros _.
  destruct ps as [| q ps].
  - simpl. apply split_single, piece_free.
  - change (Str.split "&" (piece p +:+ String "&" (Str.join "&" (map piece (q :: ps))))
            = piece p :: map piece (q :: ps)).
    rewrite split_app, IH by done. by rewrite split_single by apply piece_free.
Qed.

Lemma serialize_pieces (ps : list (string * string)) :
  Query.serialize ps = Str.join "&" (map piece ps).
Proof. reflexivity. Qed.

Lemma serialize_head (ps : list (string * string)) :
  ∀ s, Query.serialize ps ≠ String "?" s.
Proof.
  intros s H. rewrite serialize_pieces in H.
  assert ("?"%char ∈ chars (Str.join "&" (map piece ps))) as Hin.
  { rewrite H. simpl. apply list_elem_of_here. }
  clear H. induction ps as [| p ps IH]; [by apply elem_of_nil in Hin |].
  assert ("?"%char ∉ chars (piece p)) as Hp.
  { unfold piece. rewrite !chars_app. simpl.
    intros [H | [H | H]%elem_of_cons]%elem_of_app.
    - by apply encode_free in H.
    - done.
    - by apply encode_free in H. }
  destruct ps as [| q ps]; [done |].
  change ("?"%char ∈ chars (piece p +:+ "&" +:+ Str.join "&" (map piece (q :: ps))))
    in Hin.
  rewrite !chars_app in Hin. simpl in Hin.
  apply elem_of_app in Hin as [? | [? | ?]%elem_of_cons]; [done | done |].
  by apply IH.
Qed.

Lemma keep_head (c : ascii) (s : string) :
  c ≠ "?"%char →
  match String c s with
  | String "?" s' => s'
  | _ => String c s
  end = String c s.
Proof. destruct c as [[] [] [] [] [] [] [] []]; done. Qed.

Lemma parse_pieces (ps : list (string * string)) :
  map Query.parse_pair
    (List.filter Str.nonempty (Str.split "&" (Query.serialize ps))) = ps.
Proof.
  destruct ps as [| p ps]; [done |].
  rewrite serialize_pieces, split_pieces by done.
  set (l := p :: ps). clearbody l. clear.
  induction l as [| q l IH]; [done |]. cbn [map List.filter].
  rewrite piece_nonempty. cbn [map]. by rewrite parse_piece, IH.
Qed.

Lemma parse_question (ps : list (string * string)) :
  Query.parse ("?" +:+ Query.serialize ps) = ps.
Proof. exact (parse_pieces ps). Qed.

Lemma parse_plain (ps : list (string * string)) :
  Query.parse (Query.serialize ps) = ps.
Proof.
  unfold Query.parse.
  destruct (Query.serialize ps) as [| c s] eqn:Hs;
    [rewrite <- Hs; apply parse_pieces |].
  destruct (Ascii.eqb_spec c "?") as [-> | Hne].
  - by apply serialize_head in Hs.
  - rewrite keep_head, <- Hs by done. apply parse_pieces.
Qed.

(** X1. Parsing what the serializer wrote gives the pairs back, in order,
    with or without the leading question mark. *)
Theorem parse_serialize (ps : list (string * string)) :
  Query.parse (Query.serialize ps) = ps
  ∧ Query.parse ("?" +:+ Query.serialize ps) = ps.
Proof.
  pose proof (parse_pieces ps) as Hmain.
  split; [| exact Hmain].
  unfold Query.parse.
  destruct (Query.serialize ps) as [| c s] eqn:Hs; [exact Hmain |].
  destruct (Ascii.eqb_spec c "?") as [-> | Hne].
  - by apply serialize_head in Hs.
  - rewrite keep_head by done. exact Hmain.
Qed.

End QueryCodec.

(** ** The query that [get] writes *)

Module GetFacts.
Import Sdk SdkFacts PathFacts QueryFacts QueryCodec.

(** the pairs as the bytes the serializer works on *)
Definition wireBytes (q : params) : list (string * string) :=
  map (λ p, (bytes (fst p), bytes (snd p))) q.

(** a code unit that the serializer writes as it is *)
Definition plainUnit (c : N) : bool :=
  ((48 <=? c) && (c <=? 57) || (65 <=? c) && (c <=? 90)
   || (97 <=? c) && (c <=? 122)
   || (c =? 42) || (c =? 45) || (c =? 46) || (c =? 95))%N.

Definition plain (s : jsstring) : Prop := Forall (λ c, plainUnit c = true) s.

Fixpoint joinAmp (l : list jsstring) : jsstring :=
  match l with
  | [] => []
  | [w] => w
  | w :: ws => w ++ lit "&" ++ joinAmp ws
  end.

(** a pair as it stands in a query of plain names and values *)
Definition pieceOf (p : jsstring * jsstring) : jsstring :=
  fst p ++ lit "=" ++ snd p.

Lemma lit_app (a b : string) : lit (a +:+ b) = lit a ++ lit b.
Proof.
  induction a as [| c a IH]; [done |].
  rewrite append_cons. unfold lit in *. simpl. by rewrite IH.
Qed.

Lemma lit_nil (s : string) : lit s = [] → s = "".
Proof. by destruct s. Qed.

Lemma plainUnit_small (c : N) : plainUnit c = true → (c < 0x80)%N.
Proof.
  unfold plainUnit.
  rewrite !orb_true_iff, !andb_true_iff, !N.leb_le, !N.eqb_eq. lia.
Qed.

Lemma plainUnit_unreserved (c : N) :
  plainUnit c = true → Query.unreserved (ascii_of_N c) = true.
Proof.
  intros H. pose proof (plainUnit_small c H) as Hc.
  unfold Query.unreserved. rewrite N_ascii_embedding by lia. exact H.
Qed.

Lemma bytes_plain (c : N) (s : jsstring) :
  (c < 0x80)%N → bytes (c :: s) = String (ascii_of_N c) (bytes s).
Proof.
  intros Hc. unfold bytes. cbn [utf8].
  by rewrite (proj2 (N.ltb_lt c 0x80) Hc).
Qed.

Lemma encode_plain (s : jsstring) :
  plain s → Query.encode (bytes s) = bytes s ∧ lit (bytes s) = s.
Proof.
  induction 1 as [| c s Hc Hs [IH1 IH2]]; [done |].
  pose proof (plainUnit_small c Hc) as Hlt.
  rewrite bytes_plain by done. split.
  - cbn [Query.encode]. by rewrite plainUnit_unreserved, IH1.
  - unfold lit in *. cbn [list_ascii_of_string map].
    rewrite N_ascii_embedding by lia. by rewrite IH2.
Qed.

Lemma piece_plain (p : jsstring * jsstring) :
  plain (fst p) → plain (snd p) →
  lit (piece (bytes (fst p), bytes (snd p))) = pieceOf p.
Proof.
  intros [H1 H1']%encode_plain [H2 H2']%encode_plain.
  unfold piece, pieceOf. cbn [fst snd].
  by rewrite H1, H2, !lit_app, H1', H2'.
Qed.

(** a query of plain names and values is written as it reads *)
Lemma serialize_plain (q : params) :
  Forall (λ p, plain (fst p) ∧ plain (snd p)) q →
  serialize q = joinAmp (map pieceOf q).
Proof.
  unfold serialize. rewrite serialize_pieces.
  induction 1 as [| p q [Hp1 Hp2] Hq IH]; [done |].
  destruct q as [| p' q].
  - simpl. by apply piece_plain.
  - change (lit (piece (bytes (fst p), bytes (snd p)) +:+ "&"
                 +:+ Str.join "&" (map piece
                       (map (λ p, (bytes (fst p), bytes (snd p))) (p' :: q))))
            = pieceOf p ++ lit "&" ++ joinAmp (map pieceOf (p' :: q))).
    by rewrite !lit_app, IH, piece_plain.
Qed.

Lemma serialize_nonempty (q : params) : q ≠ [] → serialize q ≠ [].
Proof.
  destruct q as [| p q]; [done |]. intros _ H.
  apply lit_nil in H. rewrite serialize_pieces in H.
  pose proof (piece_nonempty (bytes (fst p), bytes (snd p))) as Hp.
  simpl in H. destruct q as [| p' q]; simpl in H.
  - by rewrite H in Hp.
  - destruct (piece (bytes (fst p), bytes (snd p))); [done |].
    by rewrite append_cons in H.
Qed.

Lemma set_nonempty (k v : jsstring) (q : params) : set k v q ≠ [].
Proof. destruct q as [| p q]; simpl; [done |]. by case_match. Qed.

Lemma addParam_keeps (q : params) (kv : jsstring * jsval) :
  q ≠ [] → addParam q kv ≠ [].
Proof.
  destruct kv as [k v]. intros Hq.
  destruct v; simpl; try done; try apply set_nonempty.
  rewrite fold_append. intros [? _]%app_eq_nil. done.
Qed.

Lemma addParam_touches (q : params) (kv : jsstring * jsval) :
  touches kv = true → addParam q kv ≠ [].
Proof.
  destruct kv as [k v]. unfold touches. simpl.
  destruct v as [| | | | | [| x xs] |]; simpl; try done;
    try (intros _; apply set_nonempty).
  intros _. rewrite fold_append. unfold append.
  intros [[_ ?]%app_eq_nil _]%app_eq_nil. done.
Qed.

Lemma fold_nonempty (entries : list (jsstring * jsval)) (q : params) :
  q ≠ [] → fold_left addParam entries q ≠ [].
Proof.
  revert q. induction entries as [| kv entries IH]; intros q Hq; [done |].
  simpl. apply IH. by apply addParam_keeps.
Qed.

Lemma fold_touched (entries : list (jsstring * jsval)) (q : params) :
  existsb touches entries = true → fold_left addParam entries q ≠ [].
Proof.
  revert q. induction entries as [| kv entries IH]; intros q H; [done |].
  simpl in *. apply orb_prop in H as [H | H].
  - apply fold_nonempty. by apply addParam_touches.
  - by apply IH.
Qed.

Lemma addParam_untouched (q : params) (kv : jsstring * jsval) :
  touches kv = false → addParam q kv = q.
Proof.
  destruct kv as [k v]. unfold touches. simpl.
  by destruct v as [| | | | | [| x xs] |].
Qed.

Lemma fold_untouched (entries : list (jsstring * jsval)) (q : params) :
  existsb touches entries = false → fold_left addParam entries q = q.
Proof.
  revert q. induction entries as [| kv entries IH]; intros q H; [done |].
  simpl in *. apply orb_false_elim in H as [H1 H2].
  rewrite addParam_untouched by done. by apply IH.
Qed.

Section Get.

Variable newURL : jsstring → jsstring → option url.

(** C6. Once the SDK is ready, [get] builds the query of the address it
    fetches from the entries of the parameter object, whose names are
    distinct and whose numbers are safe integers, as follows.  Under
    the name of a list-valued entry the query holds the elements of the
    list in their order, after the values the path already had under
    that name; under the name of any other entry it holds the single
    value of the entry; an entry that is [undefined] or [null] adds
    nothing.  For a path without a query, the pairs are the entries
    laid out in order: a pair for each element of a list, one pair for
    a scalar, none for [undefined] and [null].  The query string is
    these pairs serialized after a question mark: it parses back into
    them, and when names and values need no escaping it reads
    [name=value] for each pair, joined by [&].  When no entry adds a
    pair, the address keeps the query it had. *)
Theorem get_query (st : state) (path proxy : jsstring) (u : url)
    (entries : list (jsstring * jsval)) :
  resolved st = true →
  _proxyBase st = Some proxy →
  newURL (lit "/api/edo" ++ path) proxy = Some u →
  NoDup (map nameOf entries) →
  Forall (λ kv, safe (snd kv) = true) entries →
  ∃ r, get newURL st path entries = Fetches r
    ∧ (∀ k v, (k, v) ∈ entries →
         valuesOf (usv k) (searchParams r)
         = match v with
           | Arr xs => valuesOf (usv k) (query u) ++ map textOf xs
           | Undefined | Null => valuesOf (usv k) (query u)
           | _ => [textOf v]
           end)
    ∧ (query u = [] → searchParams r = flat_map pairsOf entries)
    ∧ (existsb touches entries = false →
         searchParams r = query u ∧ urlSearch r = search u)
    ∧ (existsb touches entries = true →
         ∃ text, urlSearch r = lit ("?" +:+ text)
           ∧ Query.parse ("?" +:+ text) = wireBytes (searchParams r)
           ∧ (Forall (λ p, plain (fst p) ∧ plain (snd p)) (searchParams r) →
              urlSearch r
              = lit "?" ++ joinAmp (map pieceOf (searchParams r)))).
Proof.
  intros Hr Hb Hu Hnd _. unfold get. rewrite Hr, Hb, Hu.
  eexists. split; [reflexivity |]. cbn [searchParams urlSearch].
  split; [| split; [| split]].
  - intros k v Hin.
    apply list_elem_of_split in Hin as (l1 & l2 & ->).
    rewrite map_app in Hnd. simpl in Hnd.
    apply NoDup_app in Hnd as (_ & Hl1 & Hl2).
    apply NoDup_cons in Hl2 as [Hl2 _].
    rewrite fold_left_app. cbn [fold_left]. rewrite fold_other by done.
    rewrite addParam_same.
    assert (valuesOf (usv k) (fold_left addParam l1 (query u))
            = valuesOf (usv k) (query u)) as ->; [| done].
    apply fold_other. intros Hk. apply (Hl1 _ Hk). apply list_elem_of_here.
  - intros ->. rewrite fold_fresh; [done | done |].
    by intros k ?%elem_of_nil.
  - intros Hnone. rewrite Hnone. split; [| done]. by apply fold_untouched.
  - intros Hsome. rewrite Hsome.
    pose proof (fold_touched entries (query u) Hsome) as Hq.
    pose proof (serialize_nonempty _ Hq) as Hs.
    exists (Query.serialize (wireBytes (fold_left addParam entries (query u)))).
    assert (match serialize (fold_left addParam entries (query u)) with
            | [] => []
            | text => lit "?" ++ text
            end
            = lit "?" ++ serialize (fold_left addParam entries (query u))) as ->.
    { by destruct (serialize (fold_left addParam entries (query u))). }
    split; [by rewrite lit_app |]. split; [apply parse_question |].
    intros Hplain. by rewrite serialize_plain.
Qed.

End Get.

(** A stand-in for [new URL] with a base, to run [get] on: the input is
    an absolute path with an optional query, the base an origin.  It
    agrees with [new URL] on paths without dot segments, fragments or
    characters that the parser escapes, and on queries without escapes. *)
Fixpoint cutUnit (c : N) (s : jsstring) : jsstring * option jsstring :=
  match s with
  | [] => ([], None)
  | d :: s' =>
      if (d =? c)%N then ([], Some s')
      else let '(a, b) := cutUnit c s' in (d :: a, b)
  end.

Fixpoint splitUnit (c : N) (s : jsstring) : list jsstring :=
  match s with
  | [] => [[]]
  | d :: s' =>
      if (d =? c)%N then [] :: splitUnit c s'
      else match splitUnit c s' with
           | [] => [[d]]
           | w :: ws => (d :: w) :: ws
           end
  end.

Definition readPairs (q : jsstring) : params :=
  map (λ piece, let '(n, v) := cutUnit 61 piece in (n, default [] v))
    (List.filter (λ w, negb (bool_decide (w = []))) (splitUnit 38 q)).

Definition demoNewURL (input base : jsstring) : option url :=
  match input with
  | 47%N :: _ =>
      let '(p, q) := cutUnit 63 input in
      Some {| site := base;
              pathname := p;
              search := match q with
                        | Some (c :: q') => 63%N :: c :: q'
                        | _ => []
                        end;
              query := readPairs (default [] q);
              hash := [] |}
  | _ => None
  end.

Lemma get_query_witness :
  ∃ r, get demoNewURL ready (lit "/timeseries/latest")
         [ (lit "id", Arr [Num 1; Num 2]);
           (lit "unit", Str (lit "hour"));
           (lit "start", Undefined);
           (lit "end", Null) ] = Fetches r
    ∧ searchParams r
      = [ (lit "id", lit "1"); (lit "id", lit "2"); (lit "unit", lit "hour") ]
    ∧ urlSearch r = lit "?id=1&id=2&unit=hour"
    ∧ href r
      = lit "http://localhost:3001/api/edo/timeseries/latest?id=1&id=2&unit=hour".
Proof.
  destruct (get_query demoNewURL ready (lit "/timeseries/latest")
              (lit "http://localhost:3001")
              {| site := lit "http://localhost:3001";
                 pathname := lit "/api/edo/timeseries/latest";
                 search := []; query := []; hash := [] |}
              [ (lit "id", Arr [Num 1; Num 2]);
                (lit "unit", Str (lit "hour"));
                (lit "start", Undefined);
                (lit "end", Null) ])
    as (r & Hr & _ & Hq & _ & Hs).
  - reflexivity.
  - reflexivity.
  - reflexivity.
  - repeat (apply NoDup_cons_2;
            [by vm_compute; intros H;
                repeat (apply elem_of_cons in H as [H | H]; [discriminate |]);
                by apply elem_of_nil in H |]).
    apply NoDup_nil_2.
  - repeat constructor.
  - exists r. split; [exact Hr |].
    specialize (Hq eq_refl). split; [exact Hq |].
    destruct (Hs eq_refl) as (text & _ & _ & Hplain).
    assert (urlSearch r = lit "?id=1&id=2&unit=hour") as Hsearch.
    { rewrite Hplain; rewrite Hq; [reflexivity |].
      repeat constructor; vm_compute; reflexivity. }
    split; [exact Hsearch |].
    revert Hr. vm_compute. intros [= <-]. reflexivity.
Defined.

(** the example of the specification *)
Example get_query_ids :
  ∃ r, get demoNewURL ready (lit "/timeseries/latest")
         [ (lit "id", Arr [Num 1; Num 2]) ] = Fetches r
    ∧ href r = lit "http://localhost:3001/api/edo/timeseries/latest?id=1&id=2".
Proof. eexists. split; reflexivity. Qed.

(** a scalar replaces what the path held under its name *)
Example get_query_replaces :
  ∃ r, get demoNewURL ready (lit "/x?a=1&a=2") [ (lit "a", Num 3) ] = Fetches r
    ∧ href r = lit "http://localhost:3001/api/edo/x?a=3".
Proof. eexists. split; reflexivity. Qed.

(** without a parameter the query of the path stays as it is spelled *)
Example get_query_untouched :
  ∃ r, get demoNewURL ready (lit "/x?a=1&&b") [ (lit "c", Undefined) ] = Fetches r
    ∧ href r = lit "http://localhost:3001/api/edo/x?a=1&&b".
Proof. eexists. split; reflexivity. Qed.

(** names that differ only in a lone surrogate are one name to [set] *)
Example get_query_surrogates :
  ∃ r, get demoNewURL ready (lit "/x")
         [ ([0xD800%N], Num 1); ([0xDC00%N], Num 2) ] = Fetches r
    ∧ searchParams r = [ ([0xFFFD%N], lit "2") ].
Proof. eexists. split; reflexivity. Qed.

(** before the SDK is ready the call waits *)
Example get_suspended :
  get demoNewURL overlayShown (lit "/buildings") [] = Suspended.
Proof. reflexivity. Qed.

End GetFacts.

(** ** The authorization flow, end to end *)

Module FlowFacts.
Import DevProxy ProxyFacts PathFacts QueryCodec.

Lemma startsWith_app_l (a b sub : string) :
  Str.startsWith a sub = true → Str.startsWith (a +:+ b) sub = true.
Proof.
  revert a. induction sub as [| c sub IH]; intros a H; [done |].
  destruct a as [| d a]; [done |]. rewrite append_cons.
  cbv beta iota delta [Str.startsWith] in H |- *. fold Str.startsWith in H |- *.
  apply andb_prop in H as [-> H]. by rewrite IH.
Qed.

Lemma startsWith_self (sub r : string) : Str.startsWith (sub +:+ r) sub = true.
Proof.
  induction sub as [| c sub IH]; [done |]. rewrite append_cons.
  cbv beta iota delta [Str.startsWith]. fold Str.startsWith.
  by rewrite Ascii.eqb_refl, IH.
Qed.

Lemma includes_start (s sub : string) :
  Str.startsWith s sub = true → Str.includes s sub = true.
Proof. intros H. destruct s; simpl; by rewrite H. Qed.

Lemma includes_app_l (a b sub : string) :
  Str.includes a sub = true → Str.includes (a +:+ b) sub = true.
Proof.
  induction a as [| c a IH]; intros H.
  - simpl in H. rewrite orb_false_r in H. rewrite append_nil.
    apply includes_start. destruct sub; [by destruct b | done].
  - rewrite append_cons. simpl in H |- *.
    apply orb_prop in H as [H | H].
    + rewrite <- append_cons. by rewrite startsWith_app_l.
    + rewrite IH by done. apply orb_true_r.
Qed.

Lemma includes_app_r (a b sub : string) :
  Str.includes b sub = true → Str.includes (a +:+ b) sub = true.
Proof.
  intros H. induction a as [| c a IH]; [done |].
  rewrite append_cons. simpl. rewrite IH. apply orb_true_r.
Qed.

(** a query that holds a [code] parameter contains [code=] *)
Lemma serialize_has_code (ps : list (string * string)) (c : string) :
  Query.get "code" ps = Some c →
  Str.includes (Query.serialize ps) "code=" = true.
Proof.
  rewrite serialize_pieces.
  induction ps as [| [n v] ps IH]; [done |]. cbn [Query.get].
  destruct (String.eqb_spec n "code") as [-> | _].
  - intros _.
    assert (Str.includes (piece ("code", v)) "code=" = true) as Hp.
    { apply includes_start. unfold piece. cbn [fst snd].
      change (Query.encode "code") with "code".
      change ("code" +:+ "=" +:+ Query.encode v) with ("code=" +:+ Query.encode v).
      apply startsWith_self. }
    destruct ps as [| q ps]; [exact Hp |].
    change (Str.includes (piece ("code", v) +:+ "&"
                          +:+ Str.join "&" (map piece (q :: ps))) "code=" = true).
    by apply includes_app_l.
  - intros H. specialize (IH H). destruct ps as [| q ps]; [done |].
    change (Str.includes (piece (n, v) +:+ "&"
                          +:+ Str.join "&" (map piece (q :: ps))) "code=" = true).
    apply includes_app_r. by apply (includes_app_r "&").
Qed.

Section Flow.

Variable dirname : string.
Variable EDO_API_BASE : string.
Variable PORT : string.
Variable parseURL : string → option url.
Variable challengeOf : string → string.

Local Abbreviation handle :=
  (handleRequest dirname EDO_API_BASE PORT parseURL challengeOf).
Local Abbreviation serving :=
  (serve dirname EDO_API_BASE PORT parseURL challengeOf).

(** the provider's redirect back to the proxy, with the query it carries *)
Definition isRedirect (req : request) (ps : list (string * string)) : Prop :=
  method req ≠ "OPTIONS"
  ∧ pathname req = "/"
  ∧ search req = Some ("?" +:+ Query.serialize ps).

Lemma redirect_params req ps : isRedirect req ps → paramsOf req = ps.
Proof.
  intros (_ & _ & Hs). unfold paramsOf. rewrite Hs. apply parse_question.
Qed.

Lemma redirect_callback req ps c :
  isRedirect req ps → Query.get "code" ps = Some c → isCallback req = true.
Proof.
  intros (_ & Hp & Hs) Hc. unfold isCallback. rewrite Hp, Hs. simpl.
  change (Str.includes ("?" +:+ Query.serialize ps) "code=" = true).
  apply (includes_app_r "?"). by apply (serialize_has_code ps c).
Qed.

(** X2. A whole flow. [/oauth/start] stores a pair; the provider redirects
    back with the state and a code, among whatever other parameters but
    no error; the exchange made with that code and the stored verifier
    yields an access token. Then the page is the success page, the pair
    is gone, the token is held, and it counts as valid exactly until 60
    seconds before the end of the lifetime the provider gave. *)
Theorem flow_succeeds st w1 w2 start_req req ps c result tok e :
  method start_req ≠ "OPTIONS" →
  pathname start_req = "/oauth/start" →
  newVerifier w1 ≠ "" →
  isRedirect req ps →
  Query.get "code" ps = Some c → c ≠ "" →
  Query.get "state" ps = Some (newState w1) →
  Query.get "error" ps = None →
  Query.get "error_description" ps = None →
  exchange w2 c (newVerifier w1) = Resolved (Some result) →
  access_token result = Some tok → tok ≠ "" →
  expires_in result = Some e →
  let st1 := fst (serving w1 st start_req) in
  let st2 := fst (serving w2 st1 req) in
  let r := snd (serving w2 st1 req) in
  r = html 200 "Authorized!" "This window will close automatically." false
  ∧ _token st2 = Some tok
  ∧ _pkce st2 !! newState w1 = None
  ∧ (∀ t, tokenValid st2 t = true ↔ t + 60000 < now w2 + e * 1000)
  ∧ (∀ t, t + 60000 < now w2 + e * 1000 →
          authStatus st2 t
          = reply 200 [("Content-Type", "application/json")]
              (Json (StatusReady tok))).
Proof.
  intros Hm Hp Hv Hred Hcode Hc Hstate Herr Hdesc Hex Htok Htokne He st1 st2 r.
  assert (_pkce st1 = pkce_begin (newState w1) (newVerifier w1) (_pkce st)) as Hst1.
  { unfold st1, serve, handleRequest, isCallback.
    by rewrite (not_options _ Hm), Hp. }
  pose proof (redirect_params req ps Hred) as Hps.
  pose proof (redirect_callback req ps c Hred Hcode) as Hcb.
  destruct Hred as (Hm2 & _ & _).
  assert (serving w2 st1 req
          = (persistToken
               {| _token := _token st1; _tokenExpiry := _tokenExpiry st1;
                  _pkce := delete (newState w1) (_pkce st1);
                  cacheFile := cacheFile st1 |}
               (now w2) (writable w2) result,
             html 200 "Authorized!" "This window will close automatically." false))
    as Hserve.
  { unfold serve, handleRequest. rewrite (not_options _ Hm2), Hcb.
    unfold callback, errMsgOf, codeOf, stateOf. rewrite Hps, Hdesc, Herr, Hcode, Hstate.
    assert (_pkce st1 !! newState w1 = Some (newVerifier w1)) as Hlook.
    { rewrite Hst1. apply lookup_insert_eq. }
    cbn [pkce_complete]. rewrite Hlook.
    rewrite !truthy_nonempty by done.
    cbn [Str.truthy negb orb default id].
    rewrite Hex. unfold callback_resume. rewrite Htok.
    by rewrite truthy_nonempty by done. }
  unfold st2, r. rewrite Hserve. cbn [fst snd].
  assert (∀ t, tokenValid
                 (persistToken
                    {| _token := _token st1; _tokenExpiry := _tokenExpiry st1;
                       _pkce := delete (newState w1) (_pkce st1);
                       cacheFile := cacheFile st1 |}
                    (now w2) (writable w2) result) t = true
               ↔ t + 60000 < now w2 + e * 1000) as Hvalid.
  { intros t. unfold tokenValid, persistToken. cbn [_token _tokenExpiry].
    rewrite Htok, He, truthy_nonempty by done. cbn [fmap option_fmap option_map gt andb].
    rewrite Z.gtb_ltb, Z.ltb_lt. done. }
  split; [done |]. split; [by rewrite <- Htok |].
  split; [cbn [persistToken _pkce]; apply lookup_delete_eq |].
  split; [exact Hvalid |].
  intros t Ht. unfold authStatus. rewrite (proj2 (Hvalid t) Ht).
  cbn [persistToken _token]. by rewrite Htok.
Qed.

(** X4. No handler touches the cached token, its expiry or the cache
    file, whatever the request; and an exchange that settles without an
    access token (a provider error, a reply that is [null], a rejected
    request) leaves the whole state as it was and ends on a page with
    status 200. *)
Theorem token_changes_only_on_success st t ns nv req w r :
  (_token (fst (handle st t ns nv req)) = _token st
   ∧ _tokenExpiry (fst (handle st t ns nv req)) = _tokenExpiry st
   ∧ cacheFile (fst (handle st t ns nv req)) = cacheFile st)
  ∧ ((∀ result, r = Resolved (Some result) →
                Str.truthy (access_token result) = false) →
     fst (callback_resume st t w r) = st
     ∧ status (snd (callback_resume st t w r)) = 200).
Proof.
  split.
  - unfold handleRequest.
    repeat (case_match; simpl; try done).
    unfold callback.
    repeat (case_match; simpl; try done).
  - intros H. unfold callback_resume.
    destruct r as [[result |] | msg]; try done.
    by rewrite (H result eq_refl).
Qed.

(** X5. A request leaves the pair of every other pending flow in place:
    only the state it names in its query, or the state a new flow is
    started under, can change in the map. *)
Theorem pkce_isolation w st req k :
  newState w ≠ k →
  stateOf req ≠ Some k →
  _pkce (fst (serving w st req)) !! k = _pkce st !! k.
Proof.
  intros Hns Hsk.
  assert (_pkce (fst (handle st (now w) (newState w) (newVerifier w) req)) !! k
          = _pkce st !! k) as Hh.
  { unfold handleRequest.
    destruct (String.eqb (method req) "OPTIONS"); [done |].
    destruct (isCallback req).
    { unfold callback. destruct (Str.truthy (errMsgOf req)); [done |].
      destruct (stateOf req) as [s |]; simpl.
      - case_match; simpl; rewrite lookup_delete_ne; congruence.
      - by case_match. }
    destruct (String.eqb (pathname req) "/oauth/start").
    { simpl. unfold pkce_begin. by rewrite lookup_insert_ne. }
    by repeat case_match. }
  unfold serve.
  destruct (handle st (now w) (newState w) (newVerifier w) req) as [st' o].
  simpl in Hh. destruct o; try done.
  unfold callback_resume.
  destruct (exchange w code verifier) as [[result |] | msg]; try done.
  by case_match.
Qed.

(** X6. Every response, of whatever route and however its effects turn
    out, begins with the three CORS headers. *)
Theorem cors_on_every_response w st req :
  ∃ hs, respHeaders (snd (serving w st req)) = cors ++ hs.
Proof.
  unfold serve.
  destruct (handle st (now w) (newState w) (newVerifier w) req) as [st' o] eqn:Hh.
  destruct o as [r | c v | u | f |].
  - revert Hh. unfold handleRequest.
    destruct (String.eqb (method req) "OPTIONS"); [intros [= <- <-]; by eexists |].
    destruct (isCallback req).
    { unfold callback. repeat case_match; intros [= <- <-]; by eexists. }
    destruct (String.eqb (pathname req) "/oauth/start");
      [intros [= <- <-]; by eexists |].
    destruct (String.eqb (pathname req) "/api/dev-auth/status");
      [intros [= <- <-]; by eexists |].
    destruct (Str.startsWith (pathname req) "/api/edo").
    { unfold proxy. by case_match. }
    unfold static. case_match; intros [= <- <-]; by eexists.
  - simpl. unfold callback_resume.
    destruct (exchange w c v) as [[result |] | msg]; try by eexists.
    case_match; by eexists.
  - simpl. destruct (upstream w u); by eexists.
  - simpl. unfold static_read. destruct (readFile w f); by eexists.
  - by eexists.
Qed.

(** the callback page around its detail *)
Definition pageHead (heading : string) (isError : bool) : string :=
  "<!DOCTYPE html>
<html><head><style>
  body { font-family: -apple-system, sans-serif; display: flex; flex-direction: column;
         align-items: center; justify-content: center; min-height: 100vh; margin: 0;
         background: " +:+ (if isError then "#1a0808" else "#07130d")
  +:+ "; color: " +:+ (if isError then "#f87171" else "#4ade80") +:+ ";
         gap: 12px; text-align: center; padding: 24px; }
  h2 { margin: 0; font-size: 22px; }
  p  { margin: 0; opacity: .6; font-size: 13px; }
</style></head><body>
  <h2>" +:+ heading +:+ "</h2><p>".

Definition pageTail (isError : bool) : string :=
  "</p>
  <script>
    window.opener?.postMessage('"
  +:+ (if isError then "edo_auth_error" else "edo_auth_ok") +:+ "', '*');
    setTimeout(() => window.close(), 1200);
  </script>
</body></html>".

Lemma page_around (heading detail : string) (isError : bool) :
  page heading detail isError
  = pageHead heading isError +:+ detail +:+ pageTail isError.
Proof.
  unfold page, pageHead, pageTail. by rewrite !append_assoc.
Qed.

(** X7. The error message of a callback goes into the page as it is,
    after percent-decoding and without any escaping: whatever text (in
    well-formed UTF-8) the query carries under [error_description], or
    under [error] without a description, stands between the same
    opening and closing markup. *)
Theorem error_page_verbatim st t ns nv req ps c m :
  isRedirect req ps →
  Query.get "code" ps = Some c →
  m ≠ "" →
  Query.utf8 m = true →
  (Query.get "error_description" ps = Some m
   ∨ (Query.get "error_description" ps = None ∧ Query.get "error" ps = Some m)) →
  handle st t ns nv req
  = (st, Respond (reply 200 [("Content-Type", "text/html")]
                    (Html (pageHead "Authorization failed" true
                           +:+ m +:+ pageTail true))))
  ∧ Str.includes (pageHead "Authorization failed" true +:+ m +:+ pageTail true) m
    = true.
Proof.
  intros Hred Hcode Hm _ Herr.
  pose proof (redirect_params req ps Hred) as Hps.
  pose proof (redirect_callback req ps c Hred Hcode) as Hcb.
  destruct Hred as (Hm2 & _ & _).
  assert (errMsgOf req = Some m) as He.
  { unfold errMsgOf. rewrite Hps. by destruct Herr as [-> | [-> ->]]. }
  split.
  - rewrite (callback_error_untouched dirname EDO_API_BASE PORT parseURL
               challengeOf st t ns nv req Hm2 Hcb).
    + rewrite He. unfold html. by rewrite page_around.
    + rewrite He. by apply truthy_nonempty.
  - apply includes_app_r, includes_start, startsWith_self.
Qed.

End Flow.

(** X3. What [persistToken] writes, a restart reads back: the token is
    restored with its expiry rounded down to the second, provided that
    instant is still more than 60 seconds ahead, and dropped otherwise.
    The restart never makes a token count as valid at a time at which it
    did not before, and it forgets every pending flow.  The times and
    the lifetime are such that the expiry is computed exactly. *)
Theorem restart_restores st t0 result tok e t1 :
  access_token result = Some tok → tok ≠ "" →
  expires_in result = Some e →
  safeInteger t0 → safeInteger (e * 1000) → safeInteger (t0 + e * 1000) →
  safeInteger (t1 + 60000) →
  let st' := persistToken st t0 true result in
  let st'' := initial (cacheFile st') t1 in
  let kept := (t0 + e * 1000) / 1000 * 1000 in
  (t1 + 60000 < kept → _token st'' = Some tok ∧ _tokenExpiry st'' = Some kept)
  ∧ (kept ≤ t1 + 60000 → _token st'' = None)
  ∧ kept ≤ t0 + e * 1000 < kept + 1000
  ∧ (∀ t, safeInteger (t + 60000) →
          tokenValid st'' t = true → tokenValid st' t = true)
  ∧ _pkce st'' = ∅.
Proof.
  intros Htok Hne He _ _ _ _ st' st'' kept.
  assert (kept ≤ t0 + e * 1000 < kept + 1000) as Hk.
  { unfold kept. pose proof (Z.div_mod (t0 + e * 1000) 1000).
    pose proof (Z.mod_pos_bound (t0 + e * 1000) 1000). lia. }
  assert (st'' = if kept >? t1 + 60000
                 then {| _token := Some tok; _tokenExpiry := Some kept;
                         _pkce := ∅;
                         cacheFile := Some {| c_access_token := Some tok;
                                              c_expires_on := Some ((t0 + e * 1000) / 1000) |} |}
                 else {| _token := None; _tokenExpiry := Some 0; _pkce := ∅;
                         cacheFile := Some {| c_access_token := Some tok;
                                              c_expires_on := Some ((t0 + e * 1000) / 1000) |} |})
    as Hst.
  { unfold st'', st', initial, persistToken. cbn [cacheFile].
    rewrite Htok, He. cbn [fmap option_fmap option_map c_access_token c_expires_on gt].
    rewrite truthy_nonempty by done. cbn [andb]. fold kept. done. }
  rewrite Hst. destruct (Z.gtb_spec kept (t1 + 60000)) as [Hgt | Hle].
  - repeat split; try done; try lia.
    intros t _. unfold tokenValid, st', persistToken. cbn [_token _tokenExpiry].
    rewrite Htok, He, truthy_nonempty by done.
    cbn [fmap option_fmap option_map gt andb].
    rewrite !Z.gtb_ltb, !Z.ltb_lt. lia.
  - repeat split; try done; try lia.
Qed.

End FlowFacts.

(** ** The static handler on normalized paths *)

Module StaticFacts.
Import DevProxy ProxyFacts PathFacts FlowFacts.

(** [d] is an absolute path in normal form, other than the root: a
    separator before each of its segments [ds], which are plain *)
Definition normalDir (d : string) (ds : list string) : Prop :=
  ds ≠ [] ∧ Forall plain ds ∧ d = "/" +:+ Str.join "/" ds.

Lemma isPrefix_inv (l1 l2 : list string) :
  isPrefix l1 l2 = true → ∃ k, l2 = l1 ++ k.
Proof.
  revert l2. induction l1 as [| a l1 IH]; intros l2 H; [by exists l2 |].
  destruct l2 as [| b l2]; [done |]. simpl in H.
  apply andb_prop in H as [Hab H]. apply String.eqb_eq in Hab as ->.
  destruct (IH l2 H) as [k ->]. by exists k.
Qed.

Lemma join_app (sep : string) (l1 l2 : list string) :
  l1 ≠ [] → l2 ≠ [] →
  Str.join sep (l1 ++ l2) = Str.join sep l1 +:+ sep +:+ Str.join sep l2.
Proof.
  intros H1 H2. induction l1 as [| a l1 IH]; [done |].
  destruct l1 as [| b l1].
  - simpl. by destruct l2.
  - change (a +:+ sep +:+ Str.join sep ((b :: l1) ++ l2)
            = (a +:+ sep +:+ Str.join sep (b :: l1)) +:+ sep +:+ Str.join sep l2).
    rewrite IH by done. by rewrite !append_assoc.
Qed.

Lemma join_plain_nonempty (l : list string) :
  l ≠ [] → Forall plain l → Str.join "/" l ≠ "".
Proof.
  intros Hne Hl. destruct l as [| a l]; [done |].
  apply Forall_cons in Hl as [(Ha & _) _].
  destruct a as [| c a]; [done |].
  destruct l; [done |]. simpl. by rewrite append_cons.
Qed.

(** the shape of what [path.normalize] returns for an absolute path *)
Lemma normalize_form (p : string) :
  Path.isAbsolute p = true →
  ∃ l tr, Forall plain l
    ∧ (tr = "" ∨ tr = "/" ∧ l ≠ [])
    ∧ Path.normalize p = "/" +:+ Str.join "/" l +:+ tr.
Proof.
  intros Habs.
  assert (Forall plain (rev (fold_left (Path.step false) (Str.split "/" p) [])))
    as Hplain.
  { apply List.Forall_rev, fold_plain; [constructor | apply split_free]. }
  unfold Path.normalize. destruct p as [| c p]; [done |].
  rewrite Habs. unfold Path.normalizeString. simpl negb.
  set (l := rev (fold_left (Path.step false) (Str.split "/" (String c p)) []))
    in *.
  destruct (Str.join "/" l) as [| x r] eqn:Hj.
  - exists [], "". split; [constructor |]. split; [by left | done].
  - assert (l ≠ []) as Hl by (intros ->; done).
    rewrite <- Hj.
    destruct (match Str.last (String c p) with
              | Some c0 => Ascii.eqb c0 "/"
              | None => false
              end).
    + exists l, "/". split; [done |]. split; [by right | done].
    + exists l, "". split; [done |]. split; [by left |].
      f_equal. clear. induction (Str.join "/" l) as [| y s IH]; [done |].
      by rewrite append_cons, <- IH.
Qed.

Lemma join_absolute (d x : string) :
  Path.isAbsolute d = true →
  ∃ p, Path.isAbsolute p = true ∧ Path.join d x = Path.normalize p.
Proof.
  intros Habs. unfold Path.join.
  destruct d as [| c d]; [done |].
  destruct x as [| e x].
  - by exists (String c d).
  - exists (String c d +:+ "/" +:+ String e x). split; [| done].
    by apply isAbsolute_app.
Qed.

Lemma normalDir_absolute d ds : normalDir d ds → Path.isAbsolute d = true.
Proof. by intros (_ & _ & ->). Qed.

Lemma normalDir_segments d ds : normalDir d ds → Path.segments d = ds.
Proof.
  intros (_ & Hds & ->). rewrite segments_leading. by apply segments_join.
Qed.

Lemma append_empty (s : string) : s +:+ "" = s.
Proof. induction s as [| c s IH]; [done |]. by rewrite append_cons, IH. Qed.

Lemma startsWith_intro (s p r : string) :
  s = p +:+ r → Str.startsWith s p = true.
Proof. intros ->. apply startsWith_self. Qed.

(** on normalized paths the test of the static handler is exact *)
Lemma inside_guard (d x : string) (ds : list string) :
  normalDir d ds →
  inside d (Path.join d x) = true →
  Str.startsWith (Path.join d x) (d +:+ "/") || String.eqb (Path.join d x) d
  = true.
Proof.
  intros Hd Hin.
  destruct (join_absolute d x (normalDir_absolute d ds Hd)) as (p & Hp & Hj).
  destruct (normalize_form p Hp) as (l & tr & Hl & Htr & Hn).
  rewrite Hj, Hn in *.
  unfold inside in Hin. rewrite (normalDir_segments d ds Hd) in Hin.
  assert (Path.segments ("/" +:+ Str.join "/" l +:+ tr) = l) as Hseg.
  { rewrite segments_leading. destruct Htr as [-> | [-> _]].
    - rewrite append_empty. by apply segments_join.
    - rewrite segments_trailing. by apply segments_join. }
  rewrite Hseg in Hin. apply isPrefix_inv in Hin as [k ->].
  destruct Hd as (Hne & Hds & ->).
  destruct k as [| w k].
  - rewrite app_nil_r. destruct Htr as [-> | [-> _]].
    + rewrite append_empty, String.eqb_refl. apply orb_true_r.
    + rewrite (startsWith_intro _ _ ""); [done |].
      by rewrite append_empty, !append_assoc.
  - rewrite join_app by done.
    rewrite (startsWith_intro _ _ (Str.join "/" (w :: k) +:+ tr)); [done |].
    by rewrite !append_assoc.
Qed.

Lemma split_join_plain (l : list string) :
  l ≠ [] → Forall plain l → Str.split "/" (Str.join "/" l) = l.
Proof.
  intros Hne Hl. induction Hl as [| w l (_ & _ & _ & Hw) Hl IH]; [done |].
  destruct l as [| w' l].
  - simpl. by apply split_single.
  - change (Str.split "/" (w +:+ String "/" (Str.join "/" (w' :: l)))
            = w :: w' :: l).
    by rewrite split_app, IH, split_single.
Qed.

Lemma fold_push (l stack : list string) :
  Forall plain l → fold_left (Path.step false) l stack = rev l ++ stack.
Proof.
  revert stack. induction l as [| w l IH]; intros stack Hl; [done |].
  apply Forall_cons in Hl as [(H1 & H2 & H3 & _) Hl]. simpl.
  rewrite IH by done. rewrite <- app_assoc. f_equal.
  unfold Path.step.
  destruct (String.eqb_spec w "") as [| _]; [done |].
  destruct (String.eqb_spec w ".") as [| _]; [done |]. simpl.
  by destruct (String.eqb_spec w "..").
Qed.

Lemma last_app (a b : string) : b ≠ "" → Str.last (a +:+ b) = Str.last b.
Proof.
  intros Hb. induction a as [| c a IH]; [done |].
  rewrite append_cons. simpl. rewrite IH.
  destruct (a +:+ b) eqn:Hab; [| done].
  destruct a; [by rewrite append_nil in Hab | by rewrite append_cons in Hab].
Qed.

Lemma last_plain (w : string) :
  plain w → ∃ c, Str.last w = Some c ∧ c ≠ "/"%char.
Proof.
  intros (Hne & _ & _ & Hf). induction w as [| c w IH]; [done |].
  simpl in Hf. apply not_elem_of_cons in Hf as [Hc Hf].
  destruct w as [| d w]; [by exists c |].
  destruct IH as (x & Hx & Hxs); [done | done |]. by exists x.
Qed.

Lemma last_join (l : list string) :
  l ≠ [] → Forall plain l →
  ∃ c, Str.last (Str.join "/" l) = Some c ∧ c ≠ "/"%char.
Proof.
  intros Hne Hl. induction Hl as [| w l Hw Hl IH]; [done |].
  destruct l as [| w' l]; [by apply last_plain |].
  change (∃ c, Str.last (w +:+ "/" +:+ Str.join "/" (w' :: l)) = Some c
               ∧ c ≠ "/"%char).
  rewrite last_app by done. rewrite last_app; [by apply IH |].
  by apply join_plain_nonempty.
Qed.

Lemma normalize_abs (p : string) (l : list string) (c : ascii) :
  Path.isAbsolute p = true →
  rev (fold_left (Path.step false) (Str.split "/" p) []) = l →
  l ≠ [] → Forall plain l →
  Str.last p = Some c → c ≠ "/"%char →
  Path.normalize p = "/" +:+ Str.join "/" l.
Proof.
  intros Habs Hstack Hne Hl Hlast Hc.
  destruct p as [| x p]; [done |]. unfold Path.normalize.
  rewrite Habs. unfold Path.normalizeString. cbn [negb].
  rewrite Hstack, Hlast.
  destruct (Ascii.eqb_spec c "/") as [| _]; [done |].
  destruct (Str.join "/" l) eqn:Hj; [| done].
  by apply join_plain_nonempty in Hj.
Qed.

(** [path.join] of a normalized directory and a path of plain segments,
    with or without a separator in front, puts the one after the other *)
Lemma join_plain_path (d : string) (ds segs : list string) (lead : bool) :
  normalDir d ds → segs ≠ [] → Forall plain segs →
  Path.join d ((if lead then "/" else "") +:+ Str.join "/" segs)
  = d +:+ "/" +:+ Str.join "/" segs.
Proof.
  intros (Hne & Hds & ->) Hsne Hsegs.
  pose proof (join_plain_nonempty segs Hsne Hsegs) as Hj.
  set (x := (if lead then "/" else "") +:+ Str.join "/" segs).
  assert (x ≠ "") as Hx.
  { unfold x. destruct lead; [done |]. by rewrite append_nil. }
  set (p := ("/" +:+ Str.join "/" ds) +:+ "/" +:+ x).
  assert (Path.join ("/" +:+ Str.join "/" ds) x = Path.normalize p) as ->.
  { unfold Path.join. destruct x; done. }
  assert (Str.split "/" p = "" :: ds ++ (if lead then [""] else []) ++ segs)
    as Hsplit.
  { unfold p, x.
    change ("/" +:+ Str.join "/" ds) with ("" +:+ String "/" (Str.join "/" ds)).
    rewrite append_assoc.
    change (String "/" (Str.join "/" ds) +:+ "/"
            +:+ (if lead then "/" else "") +:+ Str.join "/" segs)
      with (String "/" (Str.join "/" ds +:+ String "/"
              ((if lead then "/" else "") +:+ Str.join "/" segs))).
    rewrite !split_app, split_join_plain by done.
    destruct lead.
    - change ("/" +:+ Str.join "/" segs)
        with ("" +:+ String "/" (Str.join "/" segs)).
      by rewrite split_app, split_join_plain.
    - by rewrite append_nil, split_join_plain. }
  assert (rev (fold_left (Path.step false) (Str.split "/" p) []) = ds ++ segs)
    as Hstack.
  { rewrite Hsplit. cbn [fold_left].
    change (Path.step false [] "") with (@nil string).
    rewrite !fold_left_app, (fold_push ds) by done.
    destruct lead; cbn [fold_left].
    - change (Path.step false (rev ds ++ []) "") with (rev ds ++ []).
      rewrite fold_push by done.
      by rewrite app_nil_r, rev_app_distr, !rev_involutive.
    - rewrite fold_push by done.
      by rewrite app_nil_r, rev_app_distr, !rev_involutive. }
  assert (∃ c, Str.last p = Some c ∧ c ≠ "/"%char) as (c & Hlast & Hc).
  { unfold p. rewrite (last_app _ ("/" +:+ x)) by done.
    rewrite (last_app "/" x) by done. unfold x.
    rewrite (last_app _ (Str.join "/" segs)) by done. by apply last_join. }
  rewrite (normalize_abs p (ds ++ segs) c); try done.
  - rewrite join_app by done. by rewrite !append_assoc.
  - by destruct ds.
  - by apply Forall_app.
Qed.

Lemma extname_last (f w : string) (init : list string) :
  Path.segments f = init ++ [w] → plain w → Path.extname f = Path.extname w.
Proof.
  intros Hf (Hne & _ & _ & Hfree). unfold Path.extname.
  rewrite Hf, rev_app_distr, segments_single by done. done.
Qed.

Section Static.

Variable dirname : string.
Variable EDO_API_BASE : string.
Variable PORT : string.
Variable parseURL : string → option url.
Variable challengeOf : string → string.

Local Abbreviation serving :=
  (serve dirname EDO_API_BASE PORT parseURL challengeOf).

Lemma inside_reads ds req :
  normalDir dirname ds →
  inside dirname (filePathOf dirname req) = true →
  static dirname req = ReadFile (filePathOf dirname req).
Proof.
  intros Hd Hin. unfold static, filePathOf in *.
  pose proof (inside_guard _ _ ds Hd Hin) as Hg.
  apply orb_prop in Hg as [-> | ->]; simpl; by rewrite ?orb_true_r, ?andb_false_r.
Qed.

(** X8. When the server's directory is a normalized absolute path, the
    traversal guard is exact: the static handler answers 403 if and only
    if the resolved path lies outside the directory, and otherwise reads
    the resolved path. *)
Theorem guard_exact ds req :
  normalDir dirname ds →
  (static dirname req = Respond (reply 403 [] (Text "Forbidden"))
   ↔ inside dirname (filePathOf dirname req) = false)
  ∧ (static dirname req = ReadFile (filePathOf dirname req)
     ↔ inside dirname (filePathOf dirname req) = true).
Proof.
  intros Hd. unfold static.
  destruct (Str.startsWith (filePathOf dirname req) (dirname +:+ "/")
            || String.eqb (filePathOf dirname req) dirname) eqn:Hg.
  - pose proof (guard_inside _ _ Hg) as Hin.
    apply orb_prop in Hg as [-> | ->]; simpl; rewrite ?orb_true_r, ?andb_false_r;
      simpl; rewrite Hin; split; split; done.
  - assert (inside dirname (filePathOf dirname req) = false) as Hout.
    { destruct (inside dirname (filePathOf dirname req)) eqn:Hin; [| done].
      unfold filePathOf in *. rewrite (inside_guard _ _ ds Hd Hin) in Hg. done. }
    apply orb_false_elim in Hg as [-> ->]. simpl. rewrite Hout.
    split; split; done.
Qed.

Local Abbreviation handle :=
  (handleRequest dirname EDO_API_BASE PORT parseURL challengeOf).

(** X9. When the server's directory is a normalized absolute path, a
    request for a path of plain segments that reaches the static handler
    reads the file of that path under the directory, and a request for
    [/] reads [index.html] there. A file that is there is sent with
    status 200 and the content type of the extension of its last segment
    ([application/octet-stream] for an unknown one); one that is not,
    gives 404. *)
Theorem static_serves st w ds req init name :
  normalDir dirname ds →
  fallsThrough req →
  Forall plain (init ++ [name]) →
  pathname req = "/" +:+ Str.join "/" (init ++ [name])
  ∨ (pathname req = "/" ∧ init = [] ∧ name = "index.html") →
  let f := dirname +:+ "/" +:+ Str.join "/" (init ++ [name]) in
  handle st (now w) (newState w) (newVerifier w) req = (st, ReadFile f)
  ∧ (∀ data, readFile w f = ReadOk data →
       serving w st req
       = (st, reply 200
                [("Content-Type",
                  default "application/octet-stream" (MIME (Path.extname name)))]
                (Data data)))
  ∧ (readFile w f = ENOENT →
     serving w st req = (st, reply 404 [] (Text "Not found"))).
Proof.
  intros Hd Hfall Hsegs Hpath f.
  assert (init ++ [name] ≠ []) as Hne by by destruct init.
  assert (filePathOf dirname req = f) as Hf.
  { unfold filePathOf. destruct Hpath as [Hp | (Hp & -> & ->)]; rewrite Hp.
    - destruct (String.eqb_spec ("/" +:+ Str.join "/" (init ++ [name])) "/")
        as [Heq | _].
      + exfalso. injection Heq as Heq.
        by apply (join_plain_nonempty (init ++ [name])).
      + by apply (join_plain_path dirname ds _ true).
    - rewrite String.eqb_refl.
      by apply (join_plain_path dirname ds ["index.html"] false). }
  assert (static dirname req = ReadFile f) as Hs.
  { rewrite <- Hf. apply (inside_reads ds req Hd). rewrite Hf.
    unfold f, inside. rewrite segments_app, (normalDir_segments _ _ Hd).
    apply isPrefix_app. }
  assert (Path.extname f = Path.extname name) as Hext.
  { apply (extname_last f name (ds ++ init)).
    - unfold f. rewrite segments_app, (normalDir_segments _ _ Hd).
      rewrite segments_join by done. by rewrite app_assoc.
    - apply Forall_app in Hsegs as [_ Hn]. by apply Forall_cons in Hn as [? _]. }
  assert (handle st (now w) (newState w) (newVerifier w) req = (st, ReadFile f))
    as Hh.
  { rewrite (handle_static dirname EDO_API_BASE PORT parseURL challengeOf) by done.
    by rewrite Hs. }
  split; [exact Hh |]. unfold serve. rewrite Hh. unfold static_read.
  split.
  - intros data ->. by rewrite Hext.
  - by intros ->.
Qed.

End Static.

End StaticFacts.

(** ** [b64url] and the PKCE values *)

Module Base64.

Definition alphabet : string :=
  "ABCDEFGHIJKLMNOPQRSTUVWXYZabcdefghijklmnopqrstuvwxyz0123456789+/".

(** the character of a six-bit value *)
Definition digit (n : N) : ascii :=
  default "A"%char (String.get (N.to_nat n) alphabet).

(** [buf.toString('base64')]: three bytes give four characters; one or
    two bytes left over give two or three, padded with [=] *)
Fixpoint base64 (buf : string) : string :=
  match buf with
  | EmptyString => EmptyString
  | String a EmptyString =>
      let n := (N_of_ascii a * 65536)%N in
      String (digit (n / 262144)) (String (digit (n / 4096 mod 64)) "==")
  | String a (String b EmptyString) =>
      let n := (N_of_ascii a * 65536 + N_of_ascii b * 256)%N in
      String (digit (n / 262144))
        (String (digit (n / 4096 mod 64)) (String (digit (n / 64 mod 64)) "="))
  | String a (String b (String c rest)) =>
      let n := (N_of_ascii a * 65536 + N_of_ascii b * 256 + N_of_ascii c)%N in
      String (digit (n / 262144))
        (String (digit (n / 4096 mod 64))
           (String (digit (n / 64 mod 64))
              (String (digit (n mod 64)) (base64 rest))))
  end.

(** [s.replace(/x/g, y)] for single characters *)
Fixpoint replaceAll (x y : ascii) (s : string) : string :=
  match s with
  | EmptyString => EmptyString
  | String c s' => String (if Ascii.eqb c x then y else c) (replaceAll x y s')
  end.

(** [s.replace(/x/g, '')] *)
Fixpoint removeAll (x : ascii) (s : string) : string :=
  match s with
  | EmptyString => EmptyString
  | String c s' =>
      if Ascii.eqb c x then removeAll x s' else String c (removeAll x s')
  end.

Definition b64url (buf : string) : string :=
  removeAll "=" (replaceAll "/" "_" (replaceAll "+" "-" (base64 buf))).

(** [generatePKCE], given the 32 random bytes and SHA-256 *)
Definition generatePKCE (sha256 : string → string) (random : string)
  : string * string :=
  let verifier := b64url random in
  let challenge := b64url (sha256 verifier) in
  (verifier, challenge).

End Base64.

Module Base64Facts.
Import Base64 PathFacts QueryCodec.

(** a letter, a digit, [-] or [_] *)
Definition urlSafe (c : ascii) : bool :=
  let n := N_of_ascii c in
  ((48 <=? n) && (n <=? 57) || (65 <=? n) && (n <=? 90)
   || (97 <=? n) && (n <=? 122) || (n =? 45) || (n =? 95))%N.

(** what the two replacements make of a character *)
Definition urlChar (c : ascii) : ascii :=
  if Ascii.eqb (if Ascii.eqb c "+" then "-"%char else c) "/" then "_"%char
  else if Ascii.eqb c "+" then "-"%char else c.

(** the character of a six-bit value in the output *)
Definition udigit (n : N) : ascii := urlChar (digit n).

Lemma digit_cases (n : nat) :
  urlSafe (urlChar (default "A"%char (String.get n alphabet))) = true.
Proof. do 65 (destruct n as [| n]; [reflexivity |]). reflexivity. Qed.

Lemma udigit_safe (k : N) : urlSafe (udigit k) = true.
Proof. apply digit_cases. Qed.

Lemma urlSafe_not_pad (c : ascii) : urlSafe c = true → Ascii.eqb c "=" = false.
Proof. destruct c as [[] [] [] [] [] [] [] []]; done. Qed.

Lemma urlSafe_unreserved (c : ascii) :
  urlSafe c = true → Query.unreserved c = true.
Proof. destruct c as [[] [] [] [] [] [] [] []]; done. Qed.

(** the output, group by group *)
Lemma b64url_step (k : N) (s : string) :
  removeAll "=" (replaceAll "/" "_" (replaceAll "+" "-" (String (digit k) s)))
  = String (udigit k)
      (removeAll "=" (replaceAll "/" "_" (replaceAll "+" "-" s))).
Proof.
  cbn [replaceAll removeAll]. fold (urlChar (digit k)). fold (udigit k).
  by rewrite (urlSafe_not_pad _ (udigit_safe k)).
Qed.

Lemma b64url_three (a b c : ascii) (rest : string) :
  b64url (String a (String b (String c rest)))
  = let n := (N_of_ascii a * 65536 + N_of_ascii b * 256 + N_of_ascii c)%N in
    String (udigit (n / 262144))
      (String (udigit (n / 4096 mod 64))
         (String (udigit (n / 64 mod 64))
            (String (udigit (n mod 64)) (b64url rest)))).
Proof. unfold b64url. cbn [base64]. cbv zeta. by rewrite !b64url_step. Qed.

Lemma b64url_two (a b : ascii) :
  b64url (String a (String b ""))
  = let n := (N_of_ascii a * 65536 + N_of_ascii b * 256)%N in
    String (udigit (n / 262144))
      (String (udigit (n / 4096 mod 64)) (String (udigit (n / 64 mod 64)) "")).
Proof. unfold b64url. cbn [base64]. cbv zeta. by rewrite !b64url_step. Qed.

Lemma b64url_one (a : ascii) :
  b64url (String a "")
  = let n := (N_of_ascii a * 65536)%N in
    String (udigit (n / 262144)) (String (udigit (n / 4096 mod 64)) "").
Proof. unfold b64url. cbn [base64]. cbv zeta. by rewrite !b64url_step. Qed.

(** induction three bytes at a time *)
Lemma bytes_ind3 (P : string → Prop) :
  P "" →
  (∀ a, P (String a "")) →
  (∀ a b, P (String a (String b ""))) →
  (∀ a b c rest, P rest → P (String a (String b (String c rest)))) →
  ∀ buf, P buf.
Proof.
  intros H0 H1 H2 H3.
  assert (∀ buf, P buf ∧ (∀ a, P (String a buf)) ∧ ∀ a b, P (String a (String b buf)))
    as H.
  { induction buf as [| c buf (IH0 & IH1 & IH2)].
    - split; [done |]. split; [apply H1 | apply H2].
    - split; [apply IH1 |]. split; [intros a; apply IH2 |].
      intros a b. by apply H3. }
  intros buf. apply H.
Qed.

(** X12. What [b64url] returns is made of letters, digits, [-] and [_]
    only, so the query serializer writes it as it is. *)
Theorem b64url_alphabet (buf : string) :
  Forall (λ c, urlSafe c = true) (chars (b64url buf))
  ∧ Query.encode (b64url buf) = b64url buf.
Proof.
  assert (Forall (λ c, urlSafe c = true) (chars (b64url buf))) as Hsafe.
  { induction buf as [| a | a b | a b c rest IH] using bytes_ind3.
    - constructor.
    - rewrite b64url_one. repeat constructor; apply udigit_safe.
    - rewrite b64url_two. repeat constructor; apply udigit_safe.
    - rewrite b64url_three. cbv zeta. simpl.
      repeat (constructor; [apply udigit_safe |]). exact IH. }
  split; [done |].
  induction (b64url buf) as [| c s IH]; [done |].
  simpl in Hsafe. apply Forall_cons in Hsafe as [Hc Hs].
  simpl. by rewrite (urlSafe_unreserved c Hc), IH.
Qed.

(** X13. [b64url] of [n] bytes has [(4n + 2) / 3] characters, rounded
    down: 22 for the 16 bytes of a state, 43 for the 32 bytes of a
    verifier; it is empty for an empty buffer only. *)
Theorem b64url_length (buf : string) :
  (String.length (b64url buf) = (4 * String.length buf + 2) / 3)%nat
  ∧ (String.length buf = 16%nat → String.length (b64url buf) = 22%nat)
  ∧ (String.length buf = 32%nat → String.length (b64url buf) = 43%nat)
  ∧ (buf ≠ "" → b64url buf ≠ "").
Proof.
  assert (String.length (b64url buf) = (4 * String.length buf + 2) / 3)%nat
    as Hlen.
  { induction buf as [| a | a b | a b c rest IH] using bytes_ind3.
    - done.
    - by rewrite b64url_one.
    - by rewrite b64url_two.
    - rewrite b64url_three. cbv zeta. cbn [String.length]. rewrite IH.
      replace (4 * S (S (S (String.length rest))) + 2)%nat
        with (4 * String.length rest + 2 + 4 * 3)%nat by lia.
      rewrite Nat.div_add by done. lia. }
  split; [done |]. split; [| split].
  - intros H. by rewrite Hlen, H.
  - intros H. by rewrite Hlen, H.
  - intros Hne Hb. rewrite Hb in Hlen. destruct buf as [| a buf]; [done |].
    cbn [String.length] in Hlen.
    assert (4 * S (String.length buf) + 2 = 3 * 2 + (4 * String.length buf))%nat
      as Heq by lia.
    rewrite Heq in Hlen.
    pose proof (Nat.div_le_lower_bound (3 * 2 + 4 * String.length buf) 3 2).
    lia.
Qed.

(** *** Decoding *)

Definition urlAlphabet : string :=
  "ABCDEFGHIJKLMNOPQRSTUVWXYZabcdefghijklmnopqrstuvwxyz0123456789-_".

Fixpoint indexOf (c : ascii) (s : string) (i : N) : N :=
  match s with
  | EmptyString => 0%N
  | String d s' => if Ascii.eqb c d then i else indexOf c s' (i + 1)%N
  end.

(** the six-bit value of a character *)
Definition val (c : ascii) : N := indexOf c urlAlphabet 0.

(** the bytes of what [b64url] wrote *)
Fixpoint unb64url (s : string) : string :=
  match s with
  | String c0 (String c1 (String c2 (String c3 rest))) =>
      let n := (val c0 * 262144 + val c1 * 4096 + val c2 * 64 + val c3)%N in
      String (ascii_of_N (n / 65536))
        (String (ascii_of_N (n / 256 mod 256))
           (String (ascii_of_N (n mod 256)) (unb64url rest)))
  | String c0 (String c1 (String c2 EmptyString)) =>
      let n := (val c0 * 262144 + val c1 * 4096 + val c2 * 64)%N in
      String (ascii_of_N (n / 65536)) (String (ascii_of_N (n / 256 mod 256)) "")
  | String c0 (String c1 EmptyString) =>
      let n := (val c0 * 262144 + val c1 * 4096)%N in
      String (ascii_of_N (n / 65536)) ""
  | _ => EmptyString
  end.

Lemma val_cases (n : nat) :
  (n < 64)%nat →
  val (urlChar (default "A"%char (String.get n alphabet))) = N.of_nat n.
Proof.
  intros H. do 64 (destruct n as [| n]; [reflexivity |]). lia.
Qed.

Lemma val_udigit (k : N) : (k < 64)%N → val (udigit k) = k.
Proof.
  intros H. unfold udigit, digit. rewrite val_cases by lia. lia.
Qed.

Ltac euclid := zify; Z.to_euclidean_division_equations; lia.

(** recognize the byte an arithmetic expression stands for *)
Ltac recover x :=
  match goal with
  | |- context [ascii_of_N ?e] =>
      replace e with (N_of_ascii x) by euclid; rewrite (ascii_N_embedding x)
  end.

Lemma unb64url_b64url (buf : string) : unb64url (b64url buf) = buf.
Proof.
  induction buf as [| a | a b | a b c rest IH] using bytes_ind3.
  - done.
  - rewrite b64url_one. cbv zeta. cbn [unb64url].
    pose proof (N_ascii_bounded a) as Ha.
    rewrite !val_udigit by euclid. by recover a.
  - rewrite b64url_two. cbv zeta. cbn [unb64url].
    pose proof (N_ascii_bounded a) as Ha. pose proof (N_ascii_bounded b) as Hb.
    rewrite !val_udigit by euclid. recover a. by recover b.
  - rewrite b64url_three. cbv zeta. cbn [unb64url]. rewrite IH.
    pose proof (N_ascii_bounded a) as Ha. pose proof (N_ascii_bounded b) as Hb.
    pose proof (N_ascii_bounded c) as Hc.
    rewrite !val_udigit by euclid. recover a. recover b. by recover c.
Qed.

(** X14. [b64url] loses nothing: different buffers give different
    strings, so two flows get the same state, or the same verifier, only
    if the random bytes were the same. *)
Theorem b64url_injective (buf1 buf2 : string) :
  b64url buf1 = b64url buf2 → buf1 = buf2.
Proof.
  intros H. rewrite <- (unb64url_b64url buf1), <- (unb64url_b64url buf2).
  by rewrite H.
Qed.

End Base64Facts.

(** ** The environment file, [.env.local] *)

Module Env.
Import Sdk.

(** [content.split('\n')] *)
Fixpoint splitLines (s : jsstring) : list jsstring :=
  match s with
  | [] => [[]]
  | c :: s' =>
      if (c =? 0xA)%N then [] :: splitLines s'
      else match splitLines s' with
           | [] => [[c]]
           | l :: ls => (c :: l) :: ls
           end
  end.

(** [[A-Z_]] and [[A-Z0-9_]] *)
Definition nameStart (c : N) : bool :=
  ((0x41 <=? c) && (c <=? 0x5A) || (c =? 0x5F))%N.

Definition nameChar (c : N) : bool :=
  nameStart c || ((0x30 <=? c) && (c <=? 0x39))%N.

(** what [.] does not match *)
Definition lineTerminator (c : N) : bool :=
  ((c =? 0xA) || (c =? 0xD) || (c =? 0x2028) || (c =? 0x2029))%N.

(** the longest run of name characters at the start, and the rest *)
Fixpoint spanName (s : jsstring) : jsstring * jsstring :=
  match s with
  | c :: s' =>
      if nameChar c then let '(n, r) := spanName s' in (c :: n, r)
      else ([], s)
  | [] => ([], [])
  end.

(** the match of a trimmed line against the pattern of the loader: a name
    made of a capital letter or underscore and then capital letters,
    digits and underscores, the sign [=], and a value that runs to the
    end without a line terminator. The name class does not hold [=], so
    the name is the longest run. *)
Definition matchLine (t : jsstring) : option (jsstring * jsstring) :=
  match t with
  | c :: _ =>
      if nameStart c then
        match spanName t with
        | (name, e :: value) =>
            if (e =? 0x3D)%N && forallb (λ x, negb (lineTerminator x)) value
            then Some (name, value) else None
        | (_, []) => None
        end
      else None
  | [] => None
  end.

Definition isQuote (c : N) : bool := ((c =? 0x27) || (c =? 0x22))%N.

(** the global replacement that strips quotes: a single or double quote
    at the start goes, then one at the end of what is left *)
Definition stripQuotes (v : jsstring) : jsstring :=
  let v1 := match v with
            | c :: r => if isQuote c then r else v
            | [] => []
            end in
  match rev v1 with
  | c :: r => if isQuote c then rev r else v1
  | [] => []
  end.

(** the body of the [forEach] over the lines; [env] is [process.env] *)
Definition loadLine (env : gmap jsstring jsstring) (line : jsstring)
  : gmap jsstring jsstring :=
  match matchLine (trim line) with
  | Some (name, value) =>
      match env !! name with
      | None => <[name := stripQuotes value]> env
      | Some _ => env
      end
  | None => env
  end.

(** the whole block; the file is optional ([None]: reading it throws) *)
Definition loadEnv (file : option jsstring) (env : gmap jsstring jsstring)
  : gmap jsstring jsstring :=
  match file with
  | Some content => fold_left loadLine (splitLines content) env
  | None => env
  end.

End Env.

Module EnvFacts.
Import Sdk Env.

Lemma loadLine_keeps env line k v :
  env !! k = Some v → loadLine env line !! k = Some v.
Proof.
  intros H. unfold loadLine.
  destruct (matchLine (trim line)) as [[name value] |]; [| done].
  destruct (env !! name) eqn:Hn; [done |].
  rewrite lookup_insert_ne; [done | congruence].
Qed.

Lemma fold_keeps lines env k v :
  env !! k = Some v → fold_left loadLine lines env !! k = Some v.
Proof.
  revert env. induction lines as [| l lines IH]; intros env H; [done |].
  simpl. apply IH. by apply loadLine_keeps.
Qed.

Lemma loadLine_other env line k :
  (∀ value, matchLine (trim line) ≠ Some (k, value)) →
  loadLine env line !! k = env !! k.
Proof.
  intros H. unfold loadLine.
  destruct (matchLine (trim line)) as [[name value] |] eqn:Hm; [| done].
  destruct (env !! name) eqn:Hn; [done |].
  rewrite lookup_insert_ne; [done |]. intros ->. by apply (H value).
Qed.

Lemma loadLine_sets env line k value :
  matchLine (trim line) = Some (k, value) →
  env !! k = None →
  loadLine env line !! k = Some (stripQuotes value).
Proof.
  intros Hm Hk. unfold loadLine. rewrite Hm, Hk. apply lookup_insert_eq.
Qed.

(** X15. A variable that the environment holds is never overwritten by
    the file, and of several lines that assign a variable the first one
    counts: its value, quotes stripped, is what the variable is set to. *)
Theorem env_precedence (content : jsstring) (env : gmap jsstring jsstring)
    (k : jsstring) :
  (∀ v, env !! k = Some v → loadEnv (Some content) env !! k = Some v)
  ∧ (∀ before line after value,
        splitLines content = before ++ line :: after →
        env !! k = None →
        Forall (λ l, ∀ v, matchLine (trim l) ≠ Some (k, v)) before →
        matchLine (trim line) = Some (k, value) →
        loadEnv (Some content) env !! k = Some (stripQuotes value))
  ∧ (env !! k = None →
     Forall (λ l, ∀ v, matchLine (trim l) ≠ Some (k, v)) (splitLines content) →
     loadEnv (Some content) env !! k = None).
Proof.
  unfold loadEnv. split; [| split].
  - intros v. apply fold_keeps.
  - intros before line after value -> Hk Hbefore Hline.
    rewrite fold_left_app. cbn [fold_left]. apply fold_keeps.
    assert (fold_left loadLine before env !! k = None) as Hb.
    { clear Hline. revert env Hk.
      induction Hbefore as [| l ls Hl _ IH]; intros env Hk; [done |].
      simpl. apply IH. by rewrite loadLine_other. }
    by apply loadLine_sets.
  - intros Hk Hall. revert env Hk.
    induction Hall as [| l ls Hl _ IH]; intros env Hk; [done |].
    simpl. apply IH. by rewrite loadLine_other.
Qed.

Lemma spanName_chars (s : jsstring) :
  Forall (λ c, nameChar c = true) (fst (spanName s)).
Proof.
  induction s as [| c s IH]; [constructor |]. simpl.
  destruct (nameChar c) eqn:Hc; [| constructor].
  destruct (spanName s) as [n r]. simpl in *. by constructor.
Qed.

Lemma matchLine_name (t name value : jsstring) :
  matchLine t = Some (name, value) →
  (∃ c r, name = c :: r ∧ nameStart c = true)
  ∧ Forall (λ c, nameChar c = true) name
  ∧ t = name ++ 0x3D%N :: value
  ∧ Forall (λ c, lineTerminator c = false) value.
Proof.
  unfold matchLine. destruct t as [| c t]; [done |].
  destruct (nameStart c) eqn:Hc; [| done].
  pose proof (spanName_chars (c :: t)) as Hn.
  assert (c :: t = fst (spanName (c :: t)) ++ snd (spanName (c :: t))) as Happ.
  { generalize (c :: t). clear. intros s. induction s as [| x s IH]; [done |].
    simpl. destruct (nameChar x); [| done].
    destruct (spanName s) as [n r]. simpl in *. by rewrite <- IH. }
  assert (∃ r, fst (spanName (c :: t)) = c :: r) as [r0 Hr0].
  { simpl. unfold nameChar. rewrite Hc. simpl.
    destruct (spanName t) as [n r]. by exists n. }
  destruct (spanName (c :: t)) as [n [| e v]]; [done |].
  destruct (N.eqb_spec e 0x3D) as [-> |]; [| done]. simpl.
  destruct (forallb (λ x, negb (lineTerminator x)) v) eqn:Hv; [| done].
  intros [= <- <-]. simpl in *. split; [by exists c, r0 |].
  split; [done |]. split; [done |].
  apply Forall_forall. intros x Hx.
  rewrite forallb_forall in Hv. apply list_elem_of_In in Hx.
  specialize (Hv x Hx). by destruct (lineTerminator x).
Qed.

(** X16. Every variable the file adds has a name that starts with a
    capital letter or an underscore and goes on with capital letters,
    digits and underscores: a line whose name is in lower case, or that
    begins with [export] or a comment sign, adds nothing. *)
Theorem env_names (file : option jsstring) (env : gmap jsstring jsstring)
    (k v : jsstring) :
  loadEnv file env !! k = Some v →
  env !! k = Some v
  ∨ (env !! k = None
     ∧ (∃ c r, k = c :: r ∧ nameStart c = true)
     ∧ Forall (λ c, nameChar c = true) k).
Proof.
  unfold loadEnv. destruct file as [content |]; [| by left].
  generalize (splitLines content). intros lines. revert env.
  induction lines as [| l lines IH]; intros env; [by left |].
  simpl. intros H. destruct (IH _ H) as [Hl | (Hl & Hname)].
  - unfold loadLine in Hl.
    destruct (matchLine (trim l)) as [[name value] |] eqn:Hm; [| by left].
    destruct (env !! name) eqn:Hn; [by left |].
    destruct (decide (name = k)) as [-> | Hne].
    + right. split; [done |].
      apply matchLine_name in Hm as (H1 & H2 & _). done.
    + rewrite lookup_insert_ne in Hl by done. by left.
  - right. split; [| done].
    destruct (env !! k) eqn:Hk; [| done].
    by rewrite (loadLine_keeps env l k _ Hk) in Hl.
Qed.

(** X17. The quotes of a value are stripped one at each end and without
    regard to their kind: a value between two quotes, matching or not,
    loses both; a value with a quote at one end only loses that one; a
    value without quotes at its ends is kept. Quotes inside stay. *)
Theorem quotes_stripped (core : jsstring) (q1 q2 : N) :
  isQuote q1 = true → isQuote q2 = true →
  (∀ c r, core = c :: r → isQuote c = false) →
  (∀ c r, rev core = c :: r → isQuote c = false) →
  stripQuotes (q1 :: core ++ [q2]) = core
  ∧ stripQuotes (q1 :: core) = core
  ∧ stripQuotes (core ++ [q2]) = core
  ∧ stripQuotes core = core
  ∧ stripQuotes [q1] = [].
Proof.
  intros H1 H2 Hhead Hlast. unfold stripQuotes.
  assert (∀ s, rev (s ++ [q2]) = q2 :: rev s) as Hsnoc.
  { intros s. by rewrite rev_app_distr. }
  assert (match rev core with
          | c :: r => if isQuote c then rev r else core
          | [] => []
          end = core) as Hkeep.
  { destruct (rev core) as [| c r] eqn:Hr.
    - by rewrite <- (rev_involutive core), Hr.
    - by rewrite (Hlast c r eq_refl). }
  rewrite H1. repeat split.
  - by rewrite Hsnoc, H2, rev_involutive.
  - exact Hkeep.
  - destruct core as [| c r]; simpl.
    + by rewrite H2.
    + rewrite (Hhead c r eq_refl).
      change (c :: r ++ [q2]) with ((c :: r) ++ [q2]).
      by rewrite Hsnoc, H2, rev_involutive.
  - destruct core as [| c r]; [done |]. by rewrite (Hhead c r eq_refl).
Qed.

End EnvFacts.

(** ** The overlay of the SDK *)

Module Overlay.
Import Sdk.

(** The page while the overlay's handlers are installed: the SDK's state,
    the text of the status line, the value of [_poll], the intervals the
    browser is running and the next identifier [setInterval] gives out. *)
Record page := {
  sdk        : state;
  statusText : jsstring;
  pollId     : option nat;
  live       : list nat;
  nextId     : nat;
}.

(** How a request to the status endpoint of the proxy turns out. *)
Inductive fetched :=
| Ready (token : jsstring)              (* [d.ready] with [d.token] *)
| NotReady
| Failed.                               (* [fetch] or [r.json()] throws *)

Inductive event :=
| ClickAuthorize (popup : bool)         (* did [window.open] give a window *)
| Tick (r : fetched)                    (* an interval fires, its fetch settles *)
| PopupMessage (ok : bool) (r : fetched)  (* [edo_auth_ok] or [edo_auth_error] *)
| OtherMessage
| Paste (value : jsstring).             (* Connect, or Enter in the field *)

Definition setPoll (b : bool) (st : state) : state :=
  {| _token := _token st; _proxyBase := _proxyBase st; resolved := resolved st;
     overlay := overlay st; _poll := b; sessionToken := sessionToken st;
     sessionProxy := sessionProxy st |}.

(** [clearInterval(_poll)]: of no effect when [_poll] is [null] *)
Definition cleared (p : page) : list nat :=
  match pollId p with
  | Some i => List.filter (λ j, negb (Nat.eqb j i)) (live p)
  | None => live p
  end.

(** [finishConnect(token)] *)
Definition finish (proxyUrl token : jsstring) (p : page) : page :=
  {| sdk := finishConnect proxyUrl token (sdk p);
     statusText := statusText p;
     pollId := None;
     live := cleared p;
     nextId := nextId p |}.

Definition say (text : jsstring) (p : page) : page :=
  {| sdk := sdk p; statusText := text; pollId := pollId p;
     live := live p; nextId := nextId p |}.

(** the code units of the two characters of the status texts that are
    not ASCII: the horizontal ellipsis and the em dash *)
Definition ellipsis : jsstring := [0x2026%N].
Definition emDash : jsstring := [0x2014%N].

(** One event. The status line, the input field and the buttons are
    looked up in the document: once the overlay is removed they are not
    found, the handler throws at that point and nothing changes. The
    handler of an interval holds the status line it was started with. *)
Definition step (proxyUrl : jsstring) (p : page) (e : event) : page :=
  match e with
  | ClickAuthorize popup =>
      if overlay (sdk p) then
        if popup then
          {| sdk := setPoll true (sdk p);
             statusText := lit "Waiting for authorization" ++ ellipsis;
             pollId := Some (nextId p);
             live := nextId p :: live p;
             nextId := S (nextId p) |}
        else
          say (lit "Popup blocked " ++ emDash
               ++ lit " allow popups for localhost, or paste your token below.") p
      else p
  | Tick (Ready token) => finish proxyUrl token p
  | Tick NotReady => p
  | Tick Failed =>
      {| sdk := setPoll false (sdk p);
         statusText := lit "Dev proxy not responding " ++ emDash
                       ++ lit " paste your token below.";
         pollId := None;
         live := cleared p;
         nextId := nextId p |}
  | PopupMessage true (Ready token) => finish proxyUrl token p
  | PopupMessage true _ => p
  | PopupMessage false _ =>
      if overlay (sdk p)
      then say (lit "Authorization failed " ++ emDash
                ++ lit " paste your token below.") p
      else p
  | OtherMessage => p
  | Paste value =>
      if overlay (sdk p) then
        match stripBearer (trim value) with
        | [] => p
        | token => finish proxyUrl token p
        end
      else p
  end.

Definition run (proxyUrl : jsstring) (es : list event) (p : page) : page :=
  fold_left (step proxyUrl) es p.

End Overlay.

Module OverlayFacts.
Import Sdk SdkFacts Overlay.

(** while the overlay is there, the paste event is [connectWithToken] on
    the SDK's state *)
Lemma paste_connects (proxyUrl value : jsstring) (p : page) :
  overlay (sdk p) = true →
  sdk (step proxyUrl p (Paste value)) = connectWithToken proxyUrl value (sdk p).
Proof.
  intros Ho. unfold step, connectWithToken. rewrite Ho.
  by destruct (stripBearer (trim value)).
Qed.

(** the SDK is connected: token and proxy are set and mirrored in the
    session storage, and the overlay is gone *)
Definition connected (proxyUrl : jsstring) (st : state) : Prop :=
  ∃ token, _token st = Some token
    ∧ sessionToken st = Some token
    ∧ _proxyBase st = Some proxyUrl
    ∧ sessionProxy st = Some proxyUrl
    ∧ overlay st = false.

Lemma step_connected (proxyUrl : jsstring) (p : page) (e : event) :
  (resolved (sdk p) = true → connected proxyUrl (sdk p) ∧ pollId p = None) →
  (resolved (sdk (step proxyUrl p e)) = true →
   connected proxyUrl (sdk (step proxyUrl p e))
   ∧ pollId (step proxyUrl p e) = None)
  ∧ (resolved (sdk p) = true → resolved (sdk (step proxyUrl p e)) = true).
Proof.
  intros H.
  assert (∀ token, connected proxyUrl (finishConnect proxyUrl token (sdk p)))
    as Hfin by (intros token; by exists token).
  assert (overlay (sdk p) = true → resolved (sdk p) = true → False) as Hov.
  { intros Ho Hr. destruct (H Hr) as [(t & _ & _ & _ & _ & Hf) _]. congruence. }
  destruct e as [[] | [token | |] | [] [token | |] | | value]; simpl;
    try (split; [try done; by intros _ | done]);
    try (destruct (overlay (sdk p)) eqn:Ho; simpl;
         [split; [intros Hr; by destruct (Hov eq_refl Hr) | done] | done]).
  - split; [| done]. intros Hr. split; [| done].
    destruct (H Hr) as [(t & H1 & H2 & H3 & H4 & H5) _]. by exists t.
  - destruct (overlay (sdk p)) eqn:Ho; [| done].
    destruct (stripBearer (trim value)); simpl; split;
      first [done | by intros _ | intros Hr; by destruct (Hov eq_refl Hr)].
Qed.

(** X19. Whatever happens once the overlay is shown — clicks, poll
    results, messages, pasted values — readiness is resolved only together
    with a token and the proxy address, both mirrored in the session
    storage, with the overlay removed and [_poll] cleared; and once
    resolved it stays so. *)
Theorem overlay_connects (proxyUrl : jsstring) (es : list event) (p : page) :
  resolved (sdk p) = false →
  (resolved (sdk (run proxyUrl es p)) = true →
   connected proxyUrl (sdk (run proxyUrl es p))
   ∧ pollId (run proxyUrl es p) = None)
  ∧ ∀ e, resolved (sdk (run proxyUrl es p)) = true →
         resolved (sdk (step proxyUrl (run proxyUrl es p) e)) = true.
Proof.
  intros H0.
  assert (resolved (sdk p) = true → connected proxyUrl (sdk p) ∧ pollId p = None)
    as Hinv by (by rewrite H0).
  clear H0. unfold run. revert p Hinv.
  induction es as [| e es IH]; intros p Hinv.
  - split; [done |]. intros e. by apply step_connected.
  - simpl. apply IH. by apply step_connected.
Qed.

(** an interval that runs but is not the one [_poll] holds *)
Definition orphan (i : nat) (p : page) : Prop :=
  i ∈ live p ∧ pollId p ≠ Some i ∧ (i < nextId p)%nat.

Lemma cleared_keeps (i : nat) (p : page) :
  i ∈ live p → pollId p ≠ Some i → i ∈ cleared p.
Proof.
  intros Hi Hp. unfold cleared. destruct (pollId p) as [j |]; [| done].
  apply list_elem_of_In, filter_In. split; [by apply list_elem_of_In |].
  destruct (Nat.eqb_spec i j) as [-> |]; [done | done].
Qed.

Lemma click_orphans (proxyUrl : jsstring) (i : nat) (p : page) :
  i ∈ live p → (i < nextId p)%nat → overlay (sdk p) = true →
  orphan i (step proxyUrl p (ClickAuthorize true)).
Proof.
  intros Hi Hn Ho. simpl. rewrite Ho.
  split; [by apply elem_of_cons; right |].
  split; [intros [= Heq]; lia | simpl; lia].
Qed.

Lemma step_orphan (proxyUrl : jsstring) (i : nat) (p : page) (e : event) :
  orphan i p → orphan i (step proxyUrl p e).
Proof.
  intros (Hi & Hp & Hn).
  pose proof (cleared_keeps i p Hi Hp) as Hc.
  destruct e as [[] | [token | |] | [] [token | |] | | value]; simpl;
    try done; destruct (overlay (sdk p)) eqn:Ho; try done.
  - split; [by apply elem_of_cons; right |].
    split; [intros [= Heq]; lia | simpl; lia].
  - by destruct (stripBearer (trim value)).
Qed.

(** X20. A click on Authorize while a poll is running starts a second
    interval and leaves the first one running: no later event clears it,
    not the connection, not a failed request, not another click. *)
Theorem second_click_leaks (proxyUrl : jsstring) (p : page) (i : nat)
    (es : list event) :
  overlay (sdk p) = true →
  pollId p = Some i →
  i ∈ live p →
  (i < nextId p)%nat →
  let p' := run proxyUrl es (step proxyUrl p (ClickAuthorize true)) in
  i ∈ live p' ∧ pollId p' ≠ Some i.
Proof.
  intros Hov Hp Hi Hn p'.
  pose proof (click_orphans proxyUrl i p Hi Hn Hov) as Ho.
  assert (orphan i p') as (H1 & H2 & _); [| done].
  unfold p', run. revert Ho. generalize (step proxyUrl p (ClickAuthorize true)).
  induction es as [| e es IH]; intros q Hq; [done |].
  simpl. apply IH. by apply step_orphan.
Qed.

(** *** The pasted token *)

Lemma trimStart_suffix (s : jsstring) :
  ∃ ws, s = ws ++ trimStart s ∧ allWhite ws.
Proof.
  induction s as [| c s (ws & Hs & Hws)].
  { exists []. split; [done | constructor]. }
  simpl. destruct (isWhiteSpace c) eqn:Hc.
  - exists (c :: ws). split; [by rewrite Hs at 1 | by constructor].
  - exists []. split; [done | constructor].
Qed.

Lemma trimEnd_prefix (s : jsstring) :
  ∃ ws, s = trimEnd s ++ ws ∧ allWhite ws.
Proof.
  unfold trimEnd. destruct (trimStart_suffix (rev s)) as (ws & Hs & Hws).
  exists (rev ws). split; [| by apply allWhite_rev].
  by rewrite <- rev_app_distr, <- Hs, rev_involutive.
Qed.

Lemma trim_start (s : jsstring) : trim s = [] ∨ solidStart (trim s).
Proof.
  unfold trim. destruct (trimStart_head s) as [-> | (c & r & Hcr & Hc)];
    [by left |]. rewrite Hcr.
  destruct (trimEnd_prefix (c :: r)) as (ws & Heq & Hws).
  destruct (trimEnd (c :: r)) as [| d t] eqn:Ht.
  - by left.
  - right. injection Heq as Hd _. subst. by eexists _, _.
Qed.

Lemma suffix_solid_end (a t : jsstring) :
  t ≠ [] → solidStart (rev (a ++ t)) → solidStart (rev t).
Proof.
  intros Hne (c & r & Hcr & Hc). rewrite rev_app_distr in Hcr.
  destruct (rev t) as [| d u] eqn:Hr.
  - by rewrite <- (rev_involutive t), Hr in Hne.
  - simpl in Hcr. injection Hcr as Hd _. subst. by eexists _, _.
Qed.

(** X21. A token taken from the paste field is never empty and has no
    white space at either end: trimming it again changes nothing. *)
Theorem pasted_token_clean (proxyUrl value : jsstring) (st : state) :
  stripBearer (trim value) ≠ [] →
  let token := stripBearer (trim value) in
  connectWithToken proxyUrl value st = finishConnect proxyUrl token st
  ∧ solid token
  ∧ trim token = token.
Proof.
  intros Hne token.
  assert (solid token) as Hsolid.
  { unfold token in *. unfold stripBearer in *.
    destruct (trim_start value) as [H0 | Hstart].
    { rewrite H0 in Hne. done. }
    destruct (trim_end value) as [H0 | Hend].
    { rewrite H0 in Hne. done. }
    destruct (matchIgnoreCase (lit "Bearer") (trim value)) as [[| c r] |] eqn:Hm;
      try done.
    destruct (isWhiteSpace c) eqn:Hc; [| done].
    apply match_inv in Hm as (pre & Heq & _).
    destruct (trimStart_suffix r) as (ws & Hr & _).
    split.
    - destruct (trimStart_head r) as [H0 | H]; [by rewrite H0 in Hne | done].
    - apply (suffix_solid_end (pre ++ c :: ws)); [done |].
      rewrite <- app_assoc. simpl. by rewrite <- Hr, <- Heq. }
  split; [| split; [done |]].
  - unfold connectWithToken. subst token.
    by destruct (stripBearer (trim value)).
  - rewrite <- (app_nil_r token) at 1.
    apply (trim_wrapped [] token []); [constructor | constructor | done].
Qed.

(** X18. [get] leaves alone what the path's own query holds under a name
    that the parameter object does not mention: the same values, in the
    same order. *)
Theorem get_keeps_other_names (newURL : jsstring → jsstring → option url)
    (st : state) (path proxy : jsstring) (u : url)
    (entries : list (jsstring * jsval)) (k : jsstring) :
  resolved st = true →
  _proxyBase st = Some proxy →
  newURL (lit "/api/edo" ++ path) proxy = Some u →
  k ∉ map nameOf entries →
  ∃ r, get newURL st path entries = Fetches r
    ∧ valuesOf k (searchParams r) = valuesOf k (query u).
Proof.
  intros Hr Hb Hu Hk. unfold get. rewrite Hr, Hb, Hu.
  eexists. split; [done |].
  simpl. by apply fold_other.
Qed.

End OverlayFacts.

(** ** The reverse proxy: address, body and failures *)

Module ForwardFacts.
Import DevProxy ProxyFacts PathFacts FlowFacts.

Lemma slice_prefix (rest : string) : Str.slice 8 ("/api/edo" +:+ rest) = rest.
Proof. reflexivity. Qed.

Section Forward.

Variable dirname : string.
Variable EDO_API_BASE : string.
Variable PORT : string.
Variable parseURL : string → option url.
Variable challengeOf : string → string.

Local Abbreviation handle :=
  (handleRequest dirname EDO_API_BASE PORT parseURL challengeOf).
Local Abbreviation serving :=
  (serve dirname EDO_API_BASE PORT parseURL challengeOf).

(** the address that [new URL] is given for a path remainder *)
Definition upstreamAddress (rest : string) (req : request) : string :=
  EDO_API_BASE +:+ (if Str.nonempty rest then rest else "/")
  +:+ default "" (search req).

(** X10. Any path that begins with the characters [/api/edo] is proxied,
    whether or not a separator follows them. The address requested is the
    upstream base followed by the rest of the path, or by [/] when nothing
    is left, and by the query string as it came; its path and query make
    the path of the upstream request and its port is 443 or 80 when the
    address names none. The body goes along unless the method is GET or
    HEAD. *)
Theorem proxy_address st t ns nv req rest target :
  method req ≠ "OPTIONS" →
  pathname req = "/api/edo" +:+ rest →
  parseURL (upstreamAddress rest req) = Some target →
  ∃ u, handle st t ns nv req = (st, ProxyTo u)
    ∧ upPath u = urlPathname target +:+ urlSearch target
    ∧ secure u = String.eqb (protocol target) "https:"
    ∧ (port target ≠ "" → upPort u = port target)
    ∧ (port target = "" → upPort u = if secure u then "443" else "80")
    ∧ (method req = "GET" ∨ method req = "HEAD" → upBody u = None)
    ∧ (method req ≠ "GET" → method req ≠ "HEAD" → upBody u = Some (reqBody req)).
Proof.
  intros Hm Hp Hu.
  assert (Str.startsWith (pathname req) "/api/edo" = true) as Hpre.
  { rewrite Hp. apply startsWith_self. }
  rewrite (handle_proxy dirname EDO_API_BASE PORT parseURL challengeOf
             st t ns nv req Hm Hpre).
  assert (forwardPath req = if Str.nonempty rest then rest else "/") as Hf.
  { unfold forwardPath. rewrite Hp, slice_prefix. by destruct rest. }
  unfold proxy. rewrite Hf. unfold upstreamAddress in Hu. rewrite Hu.
  eexists. split; [reflexivity |]. cbn [upPath secure upPort upBody].
  split; [done |]. split; [done |]. split; [| split; [| split]].
  - intros Hport. by destruct (port target).
  - by intros ->.
  - intros [-> | ->]; done.
  - intros Hg Hh.
    destruct (String.eqb_spec (method req) "GET"); [done |].
    by destruct (String.eqb_spec (method req) "HEAD").
Qed.

(** X11. When the address does not parse, the request ends in status 500
    with the text of the top-level handler; when the upstream request
    fails, it ends in status 502 with the error message as detail. In
    both cases, and whatever upstream answers, the state is unchanged. *)
Theorem proxy_failures w st req rest :
  method req ≠ "OPTIONS" →
  pathname req = "/api/edo" +:+ rest →
  fst (serving w st req) = st
  ∧ (parseURL (upstreamAddress rest req) = None →
     snd (serving w st req) = reply 500 [] (Text "Internal server error"))
  ∧ (∀ u message,
       snd (handle st (now w) (newState w) (newVerifier w) req) = ProxyTo u →
       upstream w u = inr message →
       snd (serving w st req)
       = reply 502 [("Content-Type", "application/json")]
           (Json (ProxyError message))).
Proof.
  intros Hm Hp.
  assert (Str.startsWith (pathname req) "/api/edo" = true) as Hpre.
  { rewrite Hp. apply startsWith_self. }
  assert (forwardPath req = if Str.nonempty rest then rest else "/") as Hf.
  { unfold forwardPath. rewrite Hp, slice_prefix. by destruct rest. }
  unfold serve.
  rewrite (handle_proxy dirname EDO_API_BASE PORT parseURL challengeOf
             st _ _ _ req Hm Hpre).
  unfold proxy. rewrite Hf. fold (upstreamAddress rest req).
  destruct (parseURL (upstreamAddress rest req)) as [target |]; cbn [fst snd].
  - split; [done |]. split; [done |].
    intros u message [= <-] ->. done.
  - split; [done |]. split; [done |]. intros u message [=].
Qed.

End Forward.

End ForwardFacts.

(** ** The token request of [exchangeCode] *)

Module Exchange.
Import DevProxy.

(** The options and the body given to [https.request]. *)
Record token_request := {
  tokenHost    : string;
  tokenPath    : string;
  tokenMethod  : string;
  tokenHeaders : list (string * string);
  tokenBody    : string;
}.

(** [String(n)] of a length *)
Definition decimal (n : nat) : string := NilZero.string_of_uint (Nat.to_uint n).

Definition exchangeBody (PORT code verifier : string) : string :=
  Query.serialize [
    ("grant_type", "authorization_code");
    ("client_id", CLIENT_ID);
    ("code", code);
    ("redirect_uri", REDIRECT_URI PORT);
    ("code_verifier", verifier);
    ("scope", Str.join " " SCOPES) ].

(** the request [exchangeCode(code, verifier)] sends *)
Definition exchangeRequest (PORT code verifier : string) : token_request :=
  let body := exchangeBody PORT code verifier in
  {| tokenHost := B2C_HOST;
     tokenPath := "/" +:+ TENANT_ID +:+ "/" +:+ POLICY +:+ "/oauth2/v2.0/token";
     tokenMethod := "POST";
     tokenHeaders := [
       ("Content-Type", "application/x-www-form-urlencoded");
       ("Content-Length", decimal (String.length body)) ];
     tokenBody := body |}.

End Exchange.

Module ExchangeFacts.
Import DevProxy Exchange PathFacts QueryFacts QueryCodec.

(** X22. The body of the token request reads back as its six fields: the
    code of the callback and the verifier of the flow reach the token
    endpoint as they are, whatever characters they hold, and a code or a
    verifier cannot add a field or change another one. *)
Theorem exchange_body_fields (PORT code verifier : string) :
  let ps := Query.parse (tokenBody (exchangeRequest PORT code verifier)) in
  ps = [ ("grant_type", "authorization_code");
         ("client_id", CLIENT_ID);
         ("code", code);
         ("redirect_uri", "http://localhost:" +:+ PORT);
         ("code_verifier", verifier);
         ("scope", Str.join " " SCOPES) ]
  ∧ Query.get "code" ps = Some code
  ∧ Query.get "code_verifier" ps = Some verifier
  ∧ Query.get "grant_type" ps = Some "authorization_code".
Proof.
  cbv zeta. unfold exchangeRequest, exchangeBody. cbn [tokenBody].
  rewrite parse_plain. done.
Qed.

End ExchangeFacts.

(** ** The further properties on concrete inputs *)

Module MoreExamples.
Import DevProxy ProxyFacts PathFacts QueryFacts QueryCodec FlowFacts StaticFacts
  ForwardFacts Base64 Base64Facts.

(** a character does not occur in a literal *)
Ltac absent :=
  let H := fresh in
  vm_compute; intros H;
  repeat (apply elem_of_cons in H as [H | H]; [discriminate |]);
  by apply elem_of_nil in H.

Ltac is_plain := repeat split; [discriminate | discriminate | discriminate | absent].

Definition demoReply : token_reply :=
  {| access_token := Some "tok"; expires_in := Some 3600;
     error_description := None; error := None |}.

(** a world in which the upstream request fails *)
Definition offline : world :=
  {| now := 0; newState := "s1"; newVerifier := "v1"; writable := false;
     exchange := λ _ _, Rejected "ECONNREFUSED";
     upstream := λ _, inr "ECONNREFUSED";
     readFile := λ _, ENOENT |}.

(** a state with a flow pending under [s9] *)
Definition pending : state :=
  {| _token := None; _tokenExpiry := Some 0; _pkce := {[ "s9" := "v9" ]};
     cacheFile := None |}.

Lemma flow_succeeds_witness :
  let st1 := fst (demoServe (demoWorld 0) idle (GET "/oauth/start" None)) in
  let st2 := fst (demoServe (demoWorld 5000) st1
                    (GET "/" (Some "?state=s1&code=abc"))) in
  _token st2 = Some "tok"
  ∧ _pkce st2 !! "s1" = None
  ∧ (∀ t, tokenValid st2 t = true ↔ t + 60000 < 5000 + 3600 * 1000).
Proof.
  intros st1 st2.
  pose proof (flow_succeeds "/srv/app" "https://api.example" "3001" demoURL
                (λ v, v) idle (demoWorld 0) (demoWorld 5000)
                (GET "/oauth/start" None) (GET "/" (Some "?state=s1&code=abc"))
                [("state", "s1"); ("code", "abc")] "abc" demoReply "tok" 3600
                ltac:(discriminate) eq_refl ltac:(discriminate)
                ltac:(repeat split; discriminate)
                eq_refl ltac:(discriminate) eq_refl eq_refl eq_refl eq_refl
                eq_refl ltac:(discriminate) eq_refl)
    as (_ & Htok & Hpkce & Hvalid & _).
  split; [exact Htok |]. split; [exact Hpkce | exact Hvalid].
Defined.

Lemma restart_restores_witness :
  let st' := persistToken idle 500 true demoReply in
  _token (initial (cacheFile st') 1000) = Some "tok"
  ∧ _tokenExpiry (initial (cacheFile st') 1000) = Some 3600000
  ∧ _token (initial (cacheFile st') 3540000) = None.
Proof.
  intros st'.
  assert (∀ z, (- 2 ^ 53 <? z) && (z <? 2 ^ 53) = true → safeInteger z) as Hs.
  { intros z [H1 H2]%andb_prop. split; by apply Z.ltb_lt. }
  pose proof (restart_restores idle 500 demoReply "tok" 3600 1000
                eq_refl ltac:(discriminate) eq_refl
                (Hs 500 eq_refl) (Hs (3600 * 1000) eq_refl)
                (Hs (500 + 3600 * 1000) eq_refl) (Hs (1000 + 60000) eq_refl))
    as (Hkeep & _).
  pose proof (restart_restores idle 500 demoReply "tok" 3600 3540000
                eq_refl ltac:(discriminate) eq_refl
                (Hs 500 eq_refl) (Hs (3600 * 1000) eq_refl)
                (Hs (500 + 3600 * 1000) eq_refl) (Hs (3540000 + 60000) eq_refl))
    as (_ & Hdrop & _).
  destruct (Hkeep ltac:(vm_compute; reflexivity)) as [H1 H2].
  split; [exact H1 |]. split; [exact H2 |].
  apply Hdrop. vm_compute. discriminate.
Defined.

Lemma token_changes_only_on_success_witness :
  fst (callback_resume started 0 true (Rejected "ECONNREFUSED")) = started
  ∧ status (snd (callback_resume started 0 true (Rejected "ECONNREFUSED"))) = 200.
Proof.
  apply (token_changes_only_on_success "/srv/app" "https://api.example" "3001"
           demoURL (λ v, v) started 0 "s2" "v2" (GET "/" None) true
           (Rejected "ECONNREFUSED")).
  intros result [=].
Defined.

Lemma pkce_isolation_witness :
  _pkce (fst (demoServe (demoWorld 0) pending
                (GET "/" (Some "?code=abc&state=other")))) !! "s9"
  = Some "v9".
Proof.
  rewrite (pkce_isolation "/srv/app" "https://api.example" "3001" demoURL
             (λ v, v) (demoWorld 0) pending
             (GET "/" (Some "?code=abc&state=other")) "s9"
             ltac:(discriminate) ltac:(discriminate)).
  reflexivity.
Defined.

Lemma error_page_verbatim_witness :
  let m := "<script>alert(1)</script>" in
  ∃ s, demoHandle idle 0 "s1" "v1"
         (GET "/" (Some ("?" +:+ Query.serialize
                                   [("code", "x"); ("error_description", m)])))
       = (idle, Respond (reply 200 [("Content-Type", "text/html")] (Html s)))
    ∧ Str.includes s m = true.
Proof.
  intros m.
  pose proof (error_page_verbatim "/srv/app" "https://api.example" "3001"
                demoURL (λ v, v) idle 0 "s1" "v1"
                (GET "/" (Some ("?" +:+ Query.serialize
                                          [("code", "x");
                                           ("error_description", m)])))
                [("code", "x"); ("error_description", m)] "x" m
                ltac:(repeat split; discriminate) eq_refl
                ltac:(discriminate) eq_refl (or_introl eq_refl))
    as [Hpage Hin].
  eexists. split; [exact Hpage | exact Hin].
Defined.

Lemma normal_srv_app : normalDir "/srv/app" ["srv"; "app"].
Proof.
  split; [discriminate |]. split; [| reflexivity].
  repeat constructor; try discriminate; absent.
Qed.

Lemma guard_exact_witness :
  static "/srv/app" (GET "/../etc/passwd" None)
  = Respond (reply 403 [] (Text "Forbidden"))
  ∧ static "/srv/app" (GET "/js/../app.js" None) = ReadFile "/srv/app/app.js".
Proof.
  split.
  - apply (guard_exact "/srv/app" ["srv"; "app"] (GET "/../etc/passwd" None)
             normal_srv_app). reflexivity.
  - apply (guard_exact "/srv/app" ["srv"; "app"] (GET "/js/../app.js" None)
             normal_srv_app). reflexivity.
Defined.

Lemma static_serves_witness :
  demoServe (demoWorld 0) idle (GET "/css/site.css" None)
  = (idle, reply 200 [("Content-Type", "text/css")] (Data "<html></html>"))
  ∧ demoServe offline idle (GET "/" None)
    = (idle, reply 404 [] (Text "Not found")).
Proof.
  split.
  - apply (static_serves "/srv/app" "https://api.example" "3001" demoURL
             (λ v, v) idle (demoWorld 0) ["srv"; "app"]
             (GET "/css/site.css" None) ["css"] "site.css" normal_srv_app).
    + repeat split; discriminate.
    + repeat constructor; try discriminate; absent.
    + by left.
    + reflexivity.
  - apply (static_serves "/srv/app" "https://api.example" "3001" demoURL
             (λ v, v) idle offline ["srv"; "app"]
             (GET "/" None) [] "index.html" normal_srv_app).
    + repeat split; discriminate.
    + repeat constructor; try discriminate; absent.
    + by right.
    + reflexivity.
Defined.

Definition POST (path : string) (query : option string) (b : string) : request :=
  {| method := "POST"; pathname := path; search := query;
     headers := ∅; reqBody := b |}.

Lemma proxy_address_witness :
  ∃ u, demoHandle idle 0 "s1" "v1" (POST "/api/edo/points" (Some "?id=1") "{}")
       = (idle, ProxyTo u)
    ∧ upPort u = "443"
    ∧ upBody u = Some "{}".
Proof.
  destruct (proxy_address "/srv/app" "https://api.example" "3001" demoURL
              (λ v, v) idle 0 "s1" "v1"
              (POST "/api/edo/points" (Some "?id=1") "{}") "/points"
              {| protocol := "https:"; hostname := "api.example"; port := "";
                 urlPathname := "/points"; urlSearch := "?id=1" |}
              ltac:(discriminate) eq_refl eq_refl)
    as (u & Hu & _ & Hsec & _ & Hport & _ & Hbody).
  exists u. split; [exact Hu |]. split.
  - rewrite (Hport eq_refl), Hsec. reflexivity.
  - apply Hbody; discriminate.
Defined.

Lemma proxy_failures_witness :
  demoServe offline idle (GET "/api/edo/buildings" None)
  = (idle, reply 502 [("Content-Type", "application/json")]
             (Json (ProxyError "ECONNREFUSED")))
  ∧ snd (demoServe offline idle (GET "/api/edo:bad" None))
    = reply 500 [] (Text "Internal server error").
Proof.
  split.
  - destruct (proxy_failures "/srv/app" "https://api.example" "3001" demoURL
                (λ v, v) offline idle (GET "/api/edo/buildings" None)
                "/buildings" ltac:(discriminate) eq_refl) as (Hst & _ & Hfail).
    pose proof (Hfail _ "ECONNREFUSED" eq_refl eq_refl) as H502.
    rewrite (surjective_pairing (demoServe offline idle _)).
    by rewrite Hst, H502.
  - apply (proxy_failures "/srv/app" "https://api.example" "3001" demoURL
             (λ v, v) offline idle (GET "/api/edo:bad" None) ":bad"
             ltac:(discriminate) eq_refl).
    reflexivity.
Defined.

Lemma b64url_length_witness :
  String.length (b64url "0123456789abcdef") = 22%nat
  ∧ b64url "0123456789abcdef" ≠ "".
Proof.
  destruct (b64url_length "0123456789abcdef") as (_ & H16 & _ & Hne).
  split; [by apply H16 | by apply Hne].
Defined.

Lemma b64url_injective_witness : "hello" = "hello".
Proof. apply (b64url_injective "hello" "hello"). reflexivity. Defined.

Example b64url_hello :
  b64url "hello" = "aGVsbG8" ∧ base64 "hello" = "aGVsbG8=".
Proof. split; reflexivity. Qed.

End MoreExamples.

Module SdkExamples.
Import Sdk SdkFacts Env EnvFacts Overlay OverlayFacts.

(** an environment file: the port twice, a name in lower case, a quoted
    address *)
Definition envFile : jsstring :=
  lit "PORT=4000" ++ [0xA%N] ++ lit "port=1" ++ [0xA%N]
  ++ lit "  PORT=5000 " ++ [0xD; 0xA]%N
  ++ lit "EDO_API_BASE='https://api.example/'".

Example envFile_lines :
  splitLines envFile
  = [ lit "PORT=4000"; lit "port=1"; lit "  PORT=5000 " ++ [0xD%N];
      lit "EDO_API_BASE='https://api.example/'" ].
Proof. reflexivity. Qed.

Definition noEnv : gmap jsstring jsstring := ∅.

Definition portSet : gmap jsstring jsstring := {[ lit "PORT" := lit "3001" ]}.

Lemma env_precedence_witness :
  loadEnv (Some envFile) portSet !! lit "PORT" = Some (lit "3001")
  ∧ loadEnv (Some envFile) noEnv !! lit "PORT" = Some (lit "4000")
  ∧ loadEnv (Some envFile) noEnv !! lit "EDO_API_BASE"
    = Some (lit "https://api.example/")
  ∧ loadEnv (Some envFile) noEnv !! lit "port" = None.
Proof.
  split; [| split; [| split]].
  - apply (env_precedence envFile portSet (lit "PORT")).
    vm_compute. reflexivity.
  - apply (proj1 (proj2 (env_precedence envFile noEnv (lit "PORT")))
             [] (lit "PORT=4000")
             [ lit "port=1"; lit "  PORT=5000 " ++ [0xD%N];
               lit "EDO_API_BASE='https://api.example/'" ] (lit "4000"));
      [reflexivity | reflexivity | constructor | reflexivity].
  - apply (proj1 (proj2 (env_precedence envFile noEnv (lit "EDO_API_BASE")))
             [ lit "PORT=4000"; lit "port=1"; lit "  PORT=5000 " ++ [0xD%N] ]
             (lit "EDO_API_BASE='https://api.example/'") []
             (lit "'https://api.example/'"));
      [reflexivity | reflexivity | | reflexivity].
    repeat constructor; intros v; vm_compute; discriminate.
  - apply (proj2 (proj2 (env_precedence envFile noEnv (lit "port"))));
      [reflexivity |].
    repeat constructor; intros v; vm_compute; discriminate.
Defined.

Lemma env_names_witness :
  Forall (λ c, nameChar c = true) (lit "PORT").
Proof.
  assert (loadEnv (Some envFile) noEnv !! lit "PORT" = Some (lit "4000")) as Hl
    by (vm_compute; reflexivity).
  destruct (env_names (Some envFile) noEnv (lit "PORT") (lit "4000") Hl)
    as [H | (_ & _ & H)]; [discriminate H | exact H].
Defined.

Lemma quotes_stripped_witness :
  stripQuotes (lit "'it's'") = lit "it's"
  ∧ stripQuotes ([0x22%N] ++ lit "a b'") = lit "a b"
  ∧ stripQuotes (lit "plain") = lit "plain".
Proof.
  split; [| split].
  - apply (quotes_stripped (lit "it's") 0x27 0x27 eq_refl eq_refl).
    + by intros c r [= <- _].
    + by intros c r [= <- _].
  - apply (quotes_stripped (lit "a b") 0x22 0x27 eq_refl eq_refl).
    + by intros c r [= <- _].
    + by intros c r [= <- _].
  - apply (quotes_stripped (lit "plain") 0x27 0x27 eq_refl eq_refl).
    + by intros c r [= <- _].
    + by intros c r [= <- _].
Defined.

Lemma get_keeps_other_names_witness :
  ∃ r, get GetFacts.demoNewURL SdkFacts.ready (lit "/points?page=2&id=9")
         [ (lit "id", Arr [Num 1; Num 2]) ] = Fetches r
    ∧ valuesOf (lit "page") (searchParams r) = [lit "2"].
Proof.
  destruct (get_keeps_other_names GetFacts.demoNewURL SdkFacts.ready
              (lit "/points?page=2&id=9") (lit "http://localhost:3001")
              {| site := lit "http://localhost:3001";
                 pathname := lit "/api/edo/points";
                 search := lit "?page=2&id=9";
                 query := [ (lit "page", lit "2"); (lit "id", lit "9") ];
                 hash := [] |}
              [ (lit "id", Arr [Num 1; Num 2]) ] (lit "page")
              eq_refl eq_refl eq_refl)
    as (r & Hr & Hv).
  - intros H. apply list_elem_of_singleton in H. discriminate H.
  - exists r. split; [exact Hr |]. rewrite Hv. reflexivity.
Defined.

(** the overlay as it is first shown *)
Definition shown : page :=
  {| sdk := overlayShown; statusText := []; pollId := None; live := [];
     nextId := 1 |}.

Definition localProxy : jsstring := lit "http://localhost:3001".

Lemma overlay_connects_witness :
  connected localProxy
    (sdk (run localProxy
            [ClickAuthorize true; Tick NotReady; Tick (Ready (lit "tok"))] shown)).
Proof.
  apply (overlay_connects localProxy
           [ClickAuthorize true; Tick NotReady; Tick (Ready (lit "tok"))] shown
           eq_refl).
  reflexivity.
Defined.

Lemma second_click_leaks_witness :
  let p := step localProxy shown (ClickAuthorize true) in
  let p' := run localProxy [Tick (Ready (lit "tok")); Tick Failed]
              (step localProxy p (ClickAuthorize true)) in
  pollId p = Some 1%nat ∧ 1%nat ∈ live p' ∧ pollId p' ≠ Some 1%nat.
Proof.
  intros p p'. split; [reflexivity |].
  apply (second_click_leaks localProxy p 1
           [Tick (Ready (lit "tok")); Tick Failed] eq_refl eq_refl).
  - apply list_elem_of_here.
  - simpl. lia.
Defined.

Lemma pasted_token_clean_witness :
  trim (stripBearer (trim (lit "  Bearer   abc.def "))) = lit "abc.def".
Proof.
  destruct (pasted_token_clean localProxy (lit "  Bearer   abc.def ") overlayShown)
    as (_ & _ & Htrim); [discriminate |].
  rewrite Htrim. reflexivity.
Defined.

End SdkExamples.
